(** * Simple indexing in a LevelUP store: a shallow embedding

    The program of [Simple-Index.md] stores blog posts in an ordered
    key-value store and maintains two secondary indexes by hand.  This
    file embeds its fenced JavaScript blocks:

    - [options.keyEncoding] (the key codec),
    - [putPost] (lock, existence check, atomic batch, unlock),
    - [postsBy] (range scan over the by-author index, then point reads),
    - [oldestPosts] (limited, reversed range scan over the date index),
    - [putAndQueryData] (the scenario run as a test),

    and proves properties of them. *)

From Stdlib Require Import NArith String Ascii Lia.
From stdpp Require Import gmap list sorting.

Local Open Scope N_scope.

(** ** JavaScript strings

    A JavaScript string is a finite sequence of 16-bit code units.  The
    relational operators compare strings code unit by code unit, a proper
    prefix being smaller. *)

Abbreviation jsstring := (list N).

(** The string written with ASCII characters only. *)
Definition str (s : string) : jsstring :=
  map N_of_ascii (list_ascii_of_string s).

(** All members are 16-bit code units. *)
Definition is_string (s : jsstring) : Prop := Forall (fun c => c < 65536) s.

(** Lexicographic comparison of two sequences under a strict order on
    their members ([a < b] of JavaScript when the members are code units). *)
Fixpoint lex_ltb {A} (ltb : A -> A -> bool) (a b : list A) : bool :=
  match a, b with
  | _, [] => false
  | [], _ :: _ => true
  | x :: a', y :: b' =>
      if ltb x y then true else if ltb y x then false else lex_ltb ltb a' b'
  end.

(** [a < b] on strings. *)
Definition str_ltb (a b : jsstring) : bool := lex_ltb N.ltb a b.
(** [a <= b] on strings. *)
Definition str_leb (a b : jsstring) : bool := negb (str_ltb b a).
(** Component-wise lexicographic order on sequences of strings. *)
Definition seq_ltb (a b : list jsstring) : bool := lex_ltb str_ltb a b.

(** ** [encodeURIComponent] and [decodeURIComponent] (ECMAScript) *)

(** uriUnescaped: letters, digits and the marks [- _ . ! ~ * ' ( )]. *)
Definition uriUnescaped (c : N) : bool :=
  ((65 <=? c) && (c <=? 90)) || ((97 <=? c) && (c <=? 122))
  || ((48 <=? c) && (c <=? 57))
  || existsb (N.eqb c) [45; 95; 46; 33; 126; 42; 39; 40; 41].

Definition isLeadSurrogate (c : N) : bool := (0xD800 <=? c) && (c <=? 0xDBFF).
Definition isTrailSurrogate (c : N) : bool := (0xDC00 <=? c) && (c <=? 0xDFFF).

(** UTF16SurrogatePairToCodePoint. *)
Definition surrogatePairToCodePoint (lead trail : N) : N :=
  (lead - 0xD800) * 0x400 + (trail - 0xDC00) + 0x10000.

(** The UTF-8 octets of a code point. *)
Definition utf8Encode (cp : N) : list N :=
  if cp <? 0x80 then [cp]
  else if cp <? 0x800 then [0xC0 + cp / 64; 0x80 + cp mod 64]
  else if cp <? 0x10000 then
    [0xE0 + cp / 4096; 0x80 + (cp / 64) mod 64; 0x80 + cp mod 64]
  else
    [0xF0 + cp / 262144; 0x80 + (cp / 4096) mod 64;
     0x80 + (cp / 64) mod 64; 0x80 + cp mod 64].

(** An upper-case hexadecimal digit. *)
Definition hexDigit (d : N) : N := if d <? 10 then 48 + d else 55 + d.

(** ["%XX"] for one octet. *)
Definition pctEncode (b : N) : jsstring := [37; hexDigit (b / 16); hexDigit (b mod 16)].

(** [encodeURIComponent(string)]: the abstract operation Encode with the
    unescaped set [uriUnescaped].  [None] stands for the URIError thrown at
    an unpaired surrogate. *)
Fixpoint encodeURIComponent (s : jsstring) : option jsstring :=
  match s with
  | [] => Some []
  | c :: rest =>
      if uriUnescaped c then cons c <$> encodeURIComponent rest
      else if isLeadSurrogate c then
        match rest with
        | d :: rest' =>
            if isTrailSurrogate d then
              app (flat_map pctEncode (utf8Encode (surrogatePairToCodePoint c d)))
                <$> encodeURIComponent rest'
            else None
        | [] => None
        end
      else if isTrailSurrogate c then None
      else app (flat_map pctEncode (utf8Encode c)) <$> encodeURIComponent rest
  end.

(** The value of a hexadecimal digit of either case. *)
Definition hexVal (c : N) : option N :=
  if (48 <=? c) && (c <=? 57) then Some (c - 48)
  else if (65 <=? c) && (c <=? 70) then Some (c - 55)
  else if (97 <=? c) && (c <=? 102) then Some (c - 87)
  else None.

(** First pass of Decode: every ["%XX"] becomes an octet ([inr]), every
    other code unit stands for itself ([inl]); a ["%"] that is not followed
    by two hexadecimal digits is a URIError. *)
Fixpoint pctDecode (s : jsstring) : option (list (N + N)) :=
  match s with
  | [] => Some []
  | c :: rest =>
      if c =? 37 then
        match rest with
        | h :: l :: rest' =>
            match hexVal h, hexVal l with
            | Some a, Some b => cons (inr (16 * a + b)) <$> pctDecode rest'
            | _, _ => None
            end
        | _ => None
        end
      else cons (inl c) <$> pctDecode rest
  end.

Definition isContinuation (b : N) : bool := (0x80 <=? b) && (b <? 0xC0).

(** UTF16EncodeCodePoint. *)
Definition utf16Encode (v : N) : jsstring :=
  if v <? 0x10000 then [v]
  else [0xD800 + (v - 0x10000) / 0x400; 0xDC00 + (v - 0x10000) mod 0x400].

(** A code point assembled from [n] octets is accepted when it is in the
    range of [n]-octet encodings (no overlong form), is no surrogate and
    is at most 0x10FFFF. *)
Definition validCodePoint (lo v : N) : bool :=
  (lo <=? v) && (v <=? 0x10FFFF) && negb ((0xD800 <=? v) && (v <=? 0xDFFF)).

(** Second pass of Decode: an octet below 0x80 is a code unit; an octet
    announcing [n] octets must be followed by [n - 1] escaped continuation
    octets that together are the UTF-8 encoding of a code point. *)
Fixpoint utf8Items (l : list (N + N)) : option jsstring :=
  match l with
  | [] => Some []
  | inl c :: rest => cons c <$> utf8Items rest
  | inr b :: rest =>
      if b <? 0x80 then cons b <$> utf8Items rest
      else if (0xC0 <=? b) && (b <? 0xE0) then
        match rest with
        | inr b1 :: rest' =>
            let v := (b - 0xC0) * 64 + (b1 - 0x80) in
            if isContinuation b1 && validCodePoint 0x80 v
            then app (utf16Encode v) <$> utf8Items rest' else None
        | _ => None
        end
      else if (0xE0 <=? b) && (b <? 0xF0) then
        match rest with
        | inr b1 :: inr b2 :: rest' =>
            let v := (b - 0xE0) * 4096 + (b1 - 0x80) * 64 + (b2 - 0x80) in
            if isContinuation b1 && isContinuation b2 && validCodePoint 0x800 v
            then app (utf16Encode v) <$> utf8Items rest' else None
        | _ => None
        end
      else if (0xF0 <=? b) && (b <? 0xF8) then
        match rest with
        | inr b1 :: inr b2 :: inr b3 :: rest' =>
            let v := (b - 0xF0) * 262144 + (b1 - 0x80) * 4096
                     + (b2 - 0x80) * 64 + (b3 - 0x80) in
            if isContinuation b1 && isContinuation b2 && isContinuation b3
               && validCodePoint 0x10000 v
            then app (utf16Encode v) <$> utf8Items rest' else None
        | _ => None
        end
      else None
  end.

(** [decodeURIComponent(string)]: Decode with an empty reserved set;
    [None] stands for the URIError. *)
Definition decodeURIComponent (s : jsstring) : option jsstring :=
  pctDecode s ≫= utf8Items.

(** ** The key codec: [options.keyEncoding] *)

(** [Array.prototype.join]. *)
Fixpoint join (sep : jsstring) (l : list jsstring) : jsstring :=
  match l with
  | [] => []
  | [x] => x
  | x :: xs => x ++ sep ++ join sep xs
  end.

(** [String.prototype.split] at a one-unit separator. *)
Fixpoint split (sep : N) (s : jsstring) : list jsstring :=
  match s with
  | [] => [[]]
  | c :: rest =>
      if c =? sep then [] :: split sep rest
      else match split sep rest with
           | w :: ws => (c :: w) :: ws
           | [] => [[c]]
           end
  end.

Definition slash : N := 47.

Module keyEncoding.

(** [argument.map(encodeURIComponent).join('/')] *)
Definition encode (argument : list jsstring) : option jsstring :=
  join [slash] <$> mapM encodeURIComponent argument.

(** [argument.split('/').map(decodeURIComponent)] *)
Definition decode (argument : jsstring) : option (list jsstring) :=
  mapM decodeURIComponent (split slash argument).

End keyEncoding.

(** ** Posts and stored values *)

Record Post := {
  title : jsstring;
  date : jsstring;
  author : jsstring;
  slug : jsstring;
  text : jsstring
}.

(** What the store holds under the JSON value encoding: the placeholder
    string of the by-author index, the object literal
    [{title, date, author, slug}] of the date index, or a whole post. *)
Inductive Value :=
| VString (s : jsstring)
| VSummary (title date author slug : jsstring)
| VPost (post : Post).

(** The post without its [text] (the test's [withoutTitle]: a copy from
    which [text] is deleted). *)
Definition withoutTitle (post : Post) : Value :=
  VSummary (title post) (date post) (author post) (slug post).

Inductive Error :=
| Conflict                 (* new Error('Conflict') *)
| SlugAlreadyTaken         (* new Error('Slug already taken') *)
| NotFoundError            (* the store's error with [.notFound] *)
| EncodingError            (* a stored key that the codec cannot decode *)
| StoreFailure (code : N). (* any other error the store reports *)

(** How a call with a Node-style callback ends: [callback(null, a)],
    [callback(error)], or an exception that escapes (the URIError of
    [encodeURIComponent]; the callback is then never called).  Where an
    'error' listener and an 'end' listener of a stream both run, the
    callback is called with the error and later once more:
    [FailedThen error next]. *)
Inductive Outcome (A : Type) :=
| Returned (a : A)
| Failed (error : Error)
| Thrown
| FailedThen (error : Error) (next : Outcome A).
Arguments Returned {A} a.
Arguments Failed {A} error.
Arguments Thrown {A}.
Arguments FailedThen {A} error next.

#[global] Instance Post_eq_dec : EqDecision Post.
Proof. solve_decision. Defined.
#[global] Instance Value_eq_dec : EqDecision Value.
Proof. solve_decision. Defined.
#[global] Instance Error_eq_dec : EqDecision Error.
Proof. solve_decision. Defined.
#[global] Instance Outcome_eq_dec {A} `{EqDecision A} : EqDecision (Outcome A).
Proof. solve_decision. Defined.

(** ** The store: LevelUP over memdown

    The store is an external collaborator.  It maps encoded keys to values,
    iterates in the order of the encoded keys, applies a batch as a whole or
    not at all, and may report an error of its own for any request; which
    requests fail is the environment's choice, given as [Faults]. *)

Abbreviation Store := (gmap jsstring Value).

Record Faults := {
  exists_fault : option N;
  batch_fault : option N;
  stream_fault : option N;
  get_fault : list jsstring -> option N
}.

(** The store answers every request (as memdown does). *)
Definition healthy : Faults :=
  {| exists_fault := None; batch_fault := None; stream_fault := None;
     get_fault := fun _ => None |}.

(** Modelled from the spec: the store's answer to an existence request for
    an encoded key ([level-exists], spec section 6 [get]). *)
Definition store_exists (st : Store) (fault : option N) (k : jsstring)
  : Error + bool :=
  match fault with
  | Some code => inl (StoreFailure code)
  | None => inr (bool_decide (is_Some (st !! k)))
  end.

(** Modelled from the spec: the store's atomic application of a batch of
    encoded put operations, in order (spec section 6 [batch]). *)
Definition store_batch (st : Store) (fault : option N)
    (ops : list (jsstring * Value)) : Store * option Error :=
  match fault with
  | Some code => (st, Some (StoreFailure code))
  | None => (foldl (fun m op => <[op.1 := op.2]> m) st ops, None)
  end.

(** LevelUP applies the key codec to the keys of a batch when the batch is
    submitted; [None] when the codec throws. *)
Definition encodeBatch (batch : list (list jsstring * Value))
  : option (list (jsstring * Value)) :=
  mapM (fun op => (fun k => (k, op.2)) <$> keyEncoding.encode op.1) batch.

(** Modelled from the spec: [level.get(key, callback)] (spec section 6
    [get]). *)
Definition level_get (st : Store) (io : Faults) (key : list jsstring)
  : Outcome Value :=
  match keyEncoding.encode key with
  | None => Thrown
  | Some k =>
      match get_fault io key with
      | Some code => Failed (StoreFailure code)
      | None =>
          match st !! k with
          | Some v => Returned v
          | None => Failed NotFoundError
          end
      end
  end.

(** The entries of the store in the order of their keys. *)
Definition key_le (a b : jsstring * Value) : Prop := Is_true (str_leb a.1 b.1).
#[global] Instance key_le_dec a b : Decision (key_le a b).
Proof. unfold key_le. apply _. Defined.

Definition entries (st : Store) : list (jsstring * Value) :=
  merge_sort key_le (map_to_list st).

(** The options of [createReadStream] that the program sets.  [limit] is a
    count, [None] when the option is absent (no limit). *)
Record ReadOptions := {
  gte : list jsstring;
  lte : list jsstring;
  keys : bool;
  values : bool;
  limit : option nat;
  reverse : bool
}.

(** What a read stream hands to its ['data'] listener: the decoded key, the
    value, or both, as [keys] and [values] say. *)
Inductive Datum :=
| DKey (key : list jsstring)
| DValue (value : Value)
| DEntry (key : list jsstring) (value : Value).

#[global] Instance Datum_eq_dec : EqDecision Datum.
Proof. solve_decision. Defined.

Definition in_range (lo hi : jsstring) (e : jsstring * Value) : Prop :=
  Is_true (str_leb lo e.1 && str_leb e.1 hi).
#[global] Instance in_range_dec lo hi e : Decision (in_range lo hi e).
Proof. unfold in_range. apply _. Defined.

(** Modelled from the spec: the store's range iteration (spec section 6
    [scan]): the entries between two encoded bounds, both inclusive, in
    ascending key order or in descending order when [reverse], cut off
    after [limit] entries. *)
Definition scan (st : Store) (lo hi : jsstring) (lim : option nat) (rev : bool)
  : list (jsstring * Value) :=
  let found := filter (in_range lo hi) (entries st) in
  let ordered := if rev then List.rev found else found in
  match lim with
  | Some n => take n ordered
  | None => ordered
  end.

(** One entry as the stream emits it; [None] when the key is to be
    decoded and the codec throws. *)
Definition emit (opts : ReadOptions) (e : jsstring * Value) : option Datum :=
  if keys opts then
    key ← keyEncoding.decode e.1;
    Some (if values opts then DEntry key e.2 else DKey key)
  else Some (DValue e.2).

(** The data that a stream emits before the first entry whose key the
    codec cannot decode. *)
Fixpoint emitted (opts : ReadOptions) (l : list (jsstring * Value))
  : list Datum :=
  match l with
  | [] => []
  | e :: rest =>
      match emit opts e with
      | Some d => d :: emitted opts rest
      | None => []
      end
  end.

(** Modelled from the spec: [level.createReadStream(options)] together
    with its ['data'], ['end'] and ['error'] events.  [Returned data]: the
    data in stream order, then ['end'].  [Failed error]: the store's
    iteration fails, ['error'] and no ['end'].  Where the codec cannot
    decode a stored key, LevelUP's stream emits the data before that
    entry, then ['error'], and then ends:
    [FailedThen EncodingError (Returned data)].  The bounds are encoded by
    the key codec when the stream is created. *)
Definition createReadStream (st : Store) (io : Faults) (opts : ReadOptions)
  : Outcome (list Datum) :=
  match keyEncoding.encode (gte opts), keyEncoding.encode (lte opts) with
  | Some lo, Some hi =>
      match stream_fault io with
      | Some code => Failed (StoreFailure code)
      | None =>
          let found := scan st lo hi (limit opts) (reverse opts) in
          match mapM (emit opts) found with
          | Some data => Returned data
          | None => FailedThen EncodingError (Returned (emitted opts found))
          end
      end
  | _, _ => Thrown
  end.

(** ** The advisory lock table: level-lock *)

Abbreviation Locks := (gset (list jsstring)).

(** Modelled from the spec: [lock(level, key, 'w')] (spec section 4.2
    [acquire]): the table with the key locked, or [None] (JavaScript's
    [null]) while the key is locked. *)
Definition lock (held : Locks) (key : list jsstring) : option Locks :=
  if decide (key ∈ held) then None else Some ({[key]} ∪ held).

(** Modelled from the spec: the function that [lock] returns (spec section
    4.2 [release]). *)
Definition unlock (held : Locks) (key : list jsstring) : Locks :=
  held ∖ {[key]}.

(** ** Storing posts: [putPost] *)

Record World := {
  store : Store;
  locks : Locks
}.

(** The existence request of a call in flight: [level.exists(postKey, ...)]
    has been called and its callback, which closes over [post] and
    [unlock], waits for the store. *)
Record ExistsRequest := {
  exists_post : Post;
  exists_key : jsstring
}.

(** The batch request of a call in flight: [level.batch(batch, ...)] has
    been called and its callback waits for the store. *)
Record BatchRequest := {
  batch_post : Post;
  batch_ops : list (jsstring * Value)
}.

Definition postKey (post : Post) : list jsstring := [str "posts"; slug post].

(** [var batch = [ ... ]]: the two index records, then the post itself. *)
Definition batch (post : Post) : list (list jsstring * Value) :=
  [ ([str "by"; author post; slug post], VString (str ""));
    ([str "date"; date post; slug post],
     VSummary (title post) (date post) (author post) (slug post));
    (postKey post, VPost post) ].

(** [putPost] up to its first asynchronous call: the lock is taken, or
    the callback is called with Conflict at once.  [lock] applies the key
    codec to [postKey] before it looks at the lock table: a URIError of
    the codec escapes from [putPost] and no lock is taken.  (No key that
    the codec cannot encode is ever locked, so the order of the two tests
    shows in no world that the program reaches.) *)
Definition putPost_begin (w : World) (post : Post)
  : World * (Outcome unit + ExistsRequest) :=
  match lock (locks w) (postKey post) with
  | None => (w, inl (Failed Conflict))
  | Some held =>
      match keyEncoding.encode (postKey post) with
      | None => (w, inl Thrown)
      | Some k =>
          ({| store := store w; locks := held |},
           inr {| exists_post := post; exists_key := k |})
      end
  end.

(** The callback of [level.exists]: [function (error, exists) { ... }].
    Neither [callback(error)] nor [callback(new Error('Slug already
    taken'))] is preceded by [unlock()].  [level.batch] applies the key
    codec to the keys of the batch before it hands it to the store. *)
Definition putPost_onExists (w : World) (req : ExistsRequest)
    (response : Error + bool) : World * (Outcome unit + BatchRequest) :=
  let post := exists_post req in
  match response with
  | inl error => (w, inl (Failed error))
  | inr true => (w, inl (Failed SlugAlreadyTaken))
  | inr false =>
      match encodeBatch (batch post) with
      | None => (w, inl Thrown)
      | Some ops => (w, inr {| batch_post := post; batch_ops := ops |})
      end
  end.

(** The callback of [level.batch]: [function (error) { unlock();
    callback(error) }]. *)
Definition putPost_onBatch (w : World) (req : BatchRequest)
    (error : option Error) : World * Outcome unit :=
  let w' := {| store := store w;
               locks := unlock (locks w) (postKey (batch_post req)) |} in
  (w', match error with
       | None => Returned tt
       | Some e => Failed e
       end).

(** The store answers a batch request: the batch is applied, or not. *)
Definition answer_batch (w : World) (fault : option N) (req : BatchRequest)
  : World * option Error :=
  let '(st, error) := store_batch (store w) fault (batch_ops req) in
  ({| store := st; locks := locks w |}, error).

(** [putPost(level, post, callback)] run to its end with nothing else in
    between (as under [series]). *)
Definition putPost (w : World) (io : Faults) (post : Post)
  : World * Outcome unit :=
  match putPost_begin w post with
  | (w1, inl done) => (w1, done)
  | (w1, inr req) =>
      let response := store_exists (store w1) (exists_fault io) (exists_key req) in
      match putPost_onExists w1 req response with
      | (w2, inl done) => (w2, done)
      | (w2, inr req') =>
          let '(w3, error) := answer_batch w2 (batch_fault io) req' in
          putPost_onBatch w3 req' error
      end
  end.

(** The batch request that a call run to its end has handed to the store,
    if any. *)
Definition issued_batch (w : World) (io : Faults) (post : Post)
  : option BatchRequest :=
  match putPost_begin w post with
  | (_, inl _) => None
  | (w1, inr req) =>
      let response := store_exists (store w1) (exists_fault io) (exists_key req) in
      match putPost_onExists w1 req response with
      | (_, inl _) => None
      | (_, inr req') => Some req'
      end
  end.

(** ** Calls in flight

    JavaScript runs one callback at a time, and the callbacks of several
    [putPost] calls may interleave.  A system is a world with the calls
    that wait for the store; an action starts a call or delivers the
    store's answer to a waiting one. *)

Inductive Pending :=
| AwaitExists (req : ExistsRequest)
| AwaitBatch (req : BatchRequest).

Definition pending_post (p : Pending) : Post :=
  match p with
  | AwaitExists req => exists_post req
  | AwaitBatch req => batch_post req
  end.

Record System := {
  world : World;
  inflight : list Pending
}.

Inductive Action :=
| Begin (post : Post)
| ExistsDone (i : nat) (fault : option N)
| BatchDone (i : nat) (fault : option N).

(** One action; with it the call that ended, if one did, and how. *)
Definition step (S : System) (a : Action)
  : System * option (Post * Outcome unit) :=
  match a with
  | Begin post =>
      match putPost_begin (world S) post with
      | (w, inl done) =>
          ({| world := w; inflight := inflight S |}, Some (post, done))
      | (w, inr req) =>
          ({| world := w; inflight := inflight S ++ [AwaitExists req] |}, None)
      end
  | ExistsDone i fault =>
      match inflight S !! i with
      | Some (AwaitExists req) =>
          let response := store_exists (store (world S)) fault (exists_key req) in
          match putPost_onExists (world S) req response with
          | (w, inl done) =>
              ({| world := w; inflight := delete i (inflight S) |},
               Some (exists_post req, done))
          | (w, inr req') =>
              ({| world := w; inflight := <[i := AwaitBatch req']> (inflight S) |},
               None)
          end
      | _ => (S, None)
      end
  | BatchDone i fault =>
      match inflight S !! i with
      | Some (AwaitBatch req) =>
          let '(w, error) := answer_batch (world S) fault req in
          let '(w', done) := putPost_onBatch w req error in
          ({| world := w'; inflight := delete i (inflight S) |},
           Some (batch_post req, done))
      | _ => (S, None)
      end
  end.

Definition run (S : System) (acts : list Action) : System :=
  foldl (fun S a => (step S a).1) S acts.

(** A freshly opened store: no record, no lock, no call in flight. *)
Definition initial : System :=
  {| world := {| store := ∅; locks := ∅ |}; inflight := [] |}.

(** The posts handed to [putPost] are objects whose fields are strings. *)
Definition is_post (post : Post) : Prop :=
  is_string (title post) /\ is_string (date post) /\ is_string (author post)
  /\ is_string (slug post) /\ is_string (text post).

Definition begins (P : Post -> Prop) (a : Action) : Prop :=
  match a with
  | Begin post => P post
  | _ => True
  end.

(** The systems that [putPost] calls on posts satisfying [P] lead to,
    in any interleaving and whatever the store answers. *)
Definition reachable_with (P : Post -> Prop) (S : System) : Prop :=
  exists acts, Forall (begins P) acts /\ run initial acts = S.

Definition reachable : System -> Prop := reachable_with is_post.

(** ** Finding posts by author: [postsBy] *)

(** [ToString] of a value that may be [undefined]. *)
Definition toString (x : option jsstring) : jsstring :=
  default (str "undefined") x.

(** [map(array, iterator, callback)] of async.map: the iterator is called
    on every member in order; the callback gets the results in order, or
    the first error.  An exception of an iterator call escapes before
    any callback runs.  (The iterators of this program call back once;
    of an iterator that called back with an error and again, the error
    counts.) *)
Fixpoint async_map {A B} (iterator : A -> Outcome B) (l : list A)
  : Outcome (list B) :=
  match l with
  | [] => Returned []
  | x :: xs =>
      match iterator x, async_map iterator xs with
      | Thrown, _ | _, Thrown => Thrown
      | Failed e, _ | FailedThen e _, _ => Failed e
      | Returned _, Failed e | Returned _, FailedThen e _ => Failed e
      | Returned b, Returned bs => Returned (b :: bs)
      end
  end.

(** The listeners of a read stream: [.once('error', callback)] hands an
    error to the callback, [.once('end', ...)] runs [on_end] with what the
    ['data'] listener has gathered.  The two are registered side by side:
    where the stream emits an error and then ends, both run. *)
Fixpoint listen {A B} (stream : Outcome A) (on_end : A -> Outcome B)
  : Outcome B :=
  match stream with
  | Returned gathered => on_end gathered
  | Failed error => Failed error
  | Thrown => Thrown
  | FailedThen error rest => FailedThen error (listen rest on_end)
  end.

Definition postsBy (level : Store) (io : Faults) (name : jsstring)
  : Outcome (list Value) :=
  let options :=
    {| gte := [str "by"; name; str ""];
       lte := [str "by"; name; str "~"];
       keys := true;
       values := false;
       limit := None;
       reverse := false |} in
  let getPost slug := level_get level io [str "posts"; toString slug] in
  (* .once('error', callback) and .once('end', ...) *)
  listen (createReadStream level io options)
    (fun data =>
       (* .on('data', function (key) { slugs.push(key[2]) }); key[2] is
          undefined where the key has fewer components *)
       let slugs :=
         map (fun d => match d with
                       | DKey key => key !! 2%nat
                       | _ => None
                       end) data in
       (* function () { map(slugs, getPost, callback) } *)
       async_map getPost slugs).

(** ** Finding oldest posts: [oldestPosts] *)

Definition oldestPosts (level : Store) (io : Faults) (howMany : nat)
  : Outcome (list Datum) :=
  let options :=
    {| gte := [str "date"; str ""];
       lte := [str "date"; str "~"];
       keys := false;
       values := true;
       limit := Some howMany;
       reverse := true |} in
  (* the values pushed in stream order; callback(null, values) at 'end',
     callback(error) at 'error' *)
  createReadStream level io options.

(** ** Step by step: the scenario of [putAndQueryData] *)

Definition firstByAna : Post :=
  {| title := str "Ana's First Post"; date := str "2016-01-01";
     author := str "ana"; slug := str "ana-1"; text := str "Posted!" |}.

Definition secondByBob : Post :=
  {| title := str "Bob, Too!"; date := str "2016-01-02";
     author := str "bob"; slug := str "bob-1"; text := str "Bob write!" |}.

Definition thirdByAna : Post :=
  {| title := str "Ana's Second Post"; date := str "2016-01-03";
     author := str "ana"; slug := str "ana-2"; text := str "More Ana." |}.

(** [series] of async-series over [putPost] calls: one after the other,
    stopping at the first that does not succeed. *)
Fixpoint series_put (w : World) (io : Faults) (posts : list Post)
  : World * Outcome unit :=
  match posts with
  | [] => (w, Returned tt)
  | post :: rest =>
      match putPost w io post with
      | (w', Returned _) => series_put w' io rest
      | (w', done) => (w', done)
      end
  end.

(** The world after the three [putPost] calls of the scenario. *)
Definition scenario : World :=
  (series_put (world initial) healthy [firstByAna; secondByBob; thirdByAna]).1.

(** [putAndQueryData(level)]: whether every assertion holds and [done]
    is set. *)
Definition putAndQueryData (level : World) : bool :=
  match series_put level healthy [firstByAna; secondByBob; thirdByAna] with
  | (w, Returned _) =>
      bool_decide (postsBy (store w) healthy (str "ana")
                   = Returned [VPost firstByAna; VPost thirdByAna])
      && bool_decide (oldestPosts (store w) healthy 2
                      = Returned [DValue (withoutTitle thirdByAna);
                                  DValue (withoutTitle secondByBob)])
  | _ => false
  end.

(** ** The earlier version of the program

    [src/print-table.js] carries, after [printTable], an earlier version
    of the program.  Its key codec, its lock and existence check and its
    [postsBy] are those above; its batch stores the empty string in the
    date index as well, and its [oldestPosts] reads the keys of the date
    index and fetches the posts one by one. *)

Module earlier.

(** [var batch = [ ... ]]: the post itself, then the two index records,
    both with the empty string as their value. *)
Definition batch (post : Post) : list (list jsstring * Value) :=
  [ (postKey post, VPost post);
    ([str "by"; author post; slug post], VString (str ""));
    ([str "date"; date post; slug post], VString (str "")) ].

(** The callback of [level.exists]. *)
Definition putPost_onExists (w : World) (req : ExistsRequest)
    (response : Error + bool) : World * (Outcome unit + BatchRequest) :=
  let post := exists_post req in
  match response with
  | inl error => (w, inl (Failed error))
  | inr true => (w, inl (Failed SlugAlreadyTaken))
  | inr false =>
      match encodeBatch (batch post) with
      | None => (w, inl Thrown)
      | Some ops => (w, inr {| batch_post := post; batch_ops := ops |})
      end
  end.

(** [putPost(level, post, callback)] run to its end with nothing else in
    between. *)
Definition putPost (w : World) (io : Faults) (post : Post)
  : World * Outcome unit :=
  match putPost_begin w post with
  | (w1, inl done) => (w1, done)
  | (w1, inr req) =>
      let response := store_exists (store w1) (exists_fault io) (exists_key req) in
      match putPost_onExists w1 req response with
      | (w2, inl done) => (w2, done)
      | (w2, inr req') =>
          let '(w3, error) := answer_batch w2 (batch_fault io) req' in
          putPost_onBatch w3 req' error
      end
  end.

(** [oldestPosts(level, howMany, callback)]: the slugs of the keys of the
    date index in stream order, then [map(postSlugs, getPost, callback)]. *)
Definition oldestPosts (level : Store) (io : Faults) (howMany : nat)
  : Outcome (list Value) :=
  let options :=
    {| gte := [str "date"; str ""];
       lte := [str "date"; str "~"];
       keys := true;
       values := false;
       limit := Some howMany;
       reverse := true |} in
  let getPost slug := level_get level io [str "posts"; toString slug] in
  (* .on('end', ...) and .on('error', function (error) { callback(error) }) *)
  listen (createReadStream level io options)
    (fun data =>
       let postSlugs :=
         map (fun d => match d with
                       | DKey indexKey => indexKey !! 2%nat
                       | _ => None
                       end) data in
       async_map getPost postSlugs).

(** [putPost] calls one after the other, each with the answers that the
    store gives to it; a call that fails does not stop the next. *)
Definition run (w : World) (calls : list (Faults * Post)) : World :=
  foldl (fun w call => (putPost w call.1 call.2).1) w calls.

(** [putAndQueryData(level)]: whether every assertion holds and [done]
    is set. *)
Definition putAndQueryData (level : World) : bool :=
  match putPost level healthy firstByAna with
  | (w1, Returned _) =>
      match putPost w1 healthy secondByBob with
      | (w2, Returned _) =>
          match putPost w2 healthy thirdByAna with
          | (w, Returned _) =>
              bool_decide (postsBy (store w) healthy (str "ana")
                           = Returned [VPost firstByAna; VPost thirdByAna])
              && bool_decide (oldestPosts (store w) healthy 2
                              = Returned [VPost thirdByAna; VPost secondByBob])
          | _ => false
          end
      | _ => false
      end
  | _ => false
  end.

End earlier.

(** ** Notions used in the statements and proofs

    Predicates on strings, posts, stores and systems, and the concrete
    posts and stores of the examples. *)

(** *** Code units and strings *)

(** The scalar values: code points that are no surrogates. *)
Definition isScalar (cp : N) : Prop :=
  cp <= 0x10FFFF /\ ~ (0xD800 <= cp <= 0xDFFF).

(** The code units of an encoded component: unescaped ones and ["%"]. *)
Definition uriChar (c : N) : Prop := uriUnescaped c = true \/ c = 37.

(** Strings whose code units all sort after the separator. *)
Definition above_slash (s : jsstring) : Prop := Forall (fun c => slash < c) s.

(** What follows a component in a key: nothing, or the separator and the
    rest. *)
Definition key_tail (t : jsstring) : Prop := t = [] \/ exists t', t = slash :: t'.

(** Letters, digits, ["_"] and ["~"]: the code units that
    [encodeURIComponent] leaves as they are and that sort after ["/"]. *)
Definition plainChar (c : N) : bool :=
  ((48 <=? c) && (c <=? 57)) || ((65 <=? c) && (c <=? 90))
  || ((97 <=? c) && (c <=? 122)) || (c =? 95) || (c =? 126).

Definition plain (s : jsstring) : Prop := Forall (fun c => plainChar c = true) s.

Definition tilde : N := 126.

(** The slug is ["~"] or does not begin with ["~"]. *)
Definition before_sentinel (s : jsstring) : Prop :=
  s = [tilde] \/ head s <> Some tilde.

Definition isDigit (c : N) : bool := (48 <=? c) && (c <=? 57).

(** [YYYY-MM-DD]. *)
Definition isoDate (d : jsstring) : bool :=
  match d with
  | [y1; y2; y3; y4; h1; m1; m2; h2; d1; d2] =>
      forallb isDigit [y1; y2; y3; y4; m1; m2; d1; d2] && (h1 =? 45) && (h2 =? 45)
  | _ => false
  end.

(** The code units of an encoded key: printable ASCII, from ["!"] to
    ["~"]. *)
Definition keyChar (c : N) : Prop := 33 <= c <= 126.

(** *** Posts *)

(** A post whose fields are strings and whose date is [YYYY-MM-DD]. *)
Definition isoPost (post : Post) : Prop :=
  is_post post /\ isoDate (date post) = true.

(** The order of the encoded slugs. *)
Definition slug_lt (p q : Post) : Prop :=
  exists ep eq,
    encodeURIComponent (slug p) = Some ep /\ encodeURIComponent (slug q) = Some eq
    /\ str_ltb ep eq = true.

(** A post with the slug of [firstByAna]. *)
Definition anotherAna1 : Post :=
  {| title := str "Ana again"; date := str "2016-02-01";
     author := str "ana"; slug := str "ana-1"; text := str "Once more." |}.

(** Two posts of one author whose slugs are [zoo] and [élan]. *)
Definition zoo : Post :=
  {| title := str "Zoo"; date := str "2016-03-01"; author := str "ana";
     slug := str "zoo"; text := str "Animals." |}.

Definition elan : Post :=
  {| title := 0xC9 :: str "lan"; date := str "2016-03-02"; author := str "ana";
     slug := 0xE9 :: str "lan"; text := str "Vigour." |}.

(** Two posts whose dates are a month and a day of that month. *)
Definition january : Post :=
  {| title := str "January"; date := str "2016-01"; author := str "ana";
     slug := str "jan"; text := str "A month." |}.

Definition midJanuary : Post :=
  {| title := str "Mid-January"; date := str "2016-01-15"; author := str "ana";
     slug := str "mid"; text := str "A day." |}.

(** *** Stores *)

(** A post is stored when its three records are in the store. *)
Definition stored (st : Store) (post : Post) : Prop :=
  exists ops, encodeBatch (batch post) = Some ops
              /\ Forall (fun op => st !! op.1 = Some op.2) ops.

(** Every entry of the store is a record of a stored post. *)
Definition consistent (P : Post -> Prop) (st : Store) : Prop :=
  forall k v, st !! k = Some v ->
    exists post ops, P post /\ encodeBatch (batch post) = Some ops
                     /\ (k, v) ∈ ops
                     /\ Forall (fun op => st !! op.1 = Some op.2) ops.

(** The three shapes of a record of [post] under key [k] with value [v]. *)
Definition record_of (post : Post) (k : jsstring) (v : Value) : Prop :=
  (keyEncoding.encode [str "by"; author post; slug post] = Some k
   /\ keyEncoding.decode k = Some [str "by"; author post; slug post]
   /\ v = VString (str ""))
  \/ (keyEncoding.encode [str "date"; date post; slug post] = Some k
      /\ keyEncoding.decode k = Some [str "date"; date post; slug post]
      /\ v = withoutTitle post)
  \/ (keyEncoding.encode (postKey post) = Some k
      /\ keyEncoding.decode k = Some (postKey post)
      /\ v = VPost post).

(** An index record of the namespace [ns] for the slug [s]. *)
Definition index_record (st : Store) (ns s : jsstring) (k : jsstring) (v : Value)
  : Prop :=
  st !! k = Some v /\ exists x, keyEncoding.decode k = Some [ns; x; s].

(** The lower bound of the scan: ["by/<name>/"]. *)
Definition by_prefix (e : jsstring) : jsstring := str "by" ++ slash :: e ++ [slash].

(** An entry of the scan and the post whose by-author record it is. *)
Definition by_entry (st : Store) (name en : jsstring)
    (e : jsstring * Value) (post : Post) : Prop :=
  is_post post /\ stored st post /\ author post = name
  /\ exists es, encodeURIComponent (slug post) = Some es
                /\ str_leb es [tilde] = true
                /\ e = (by_prefix en ++ es, VString (str "")).

Definition date_prefix : jsstring := str "date" ++ [slash].

(** An entry of the scan and the post whose date record it is. *)
Definition date_entry (st : Store) (e : jsstring * Value) (post : Post) : Prop :=
  isoPost post /\ stored st post
  /\ exists es, e = (date_prefix ++ date post ++ slash :: es, withoutTitle post).

(** A store with the by-author record of the slug [~x] and nothing else. *)
Definition orphan_store : Store := {[ str "by/ana/~x" := VString (str "") ]}.

(** Every key of the store was written through the key codec: it is the
    code of a non-empty sequence of strings. *)
Definition codec_keys (st : Store) : Prop :=
  forall k v, st !! k = Some v ->
    exists key, key <> [] /\ Forall is_string key
                /\ keyEncoding.encode key = Some k.

(** The posts of a store: [ps] lists the stored posts, each once, and the
    store holds three records for each of them and nothing else. *)
Definition census (st : Store) (ps : list Post) : Prop :=
  NoDup (slug <$> ps)
  /\ (forall post, post ∈ ps <-> stored st post)
  /\ size st = (3 * length ps)%nat.

(** A store that fails every batch with the error [code] and answers every
    other request. *)
Definition failing_batch (code : N) : Faults :=
  {| exists_fault := None; batch_fault := Some code; stream_fault := None;
     get_fault := fun _ => None |}.

(** An entry of the scan of [oldestPosts]: a record of the store that is
    the date record of [post]. *)
Definition date_scan_entry (st : Store) (e : jsstring * Value) (post : Post)
  : Prop :=
  st !! e.1 = Some e.2 /\ date_entry st e post.

(** *** The two versions of the program *)

(** What the earlier version stores where the later one stores [v]: the
    empty string in place of the summary of the date index. *)
Definition placeholder (v : Value) : Value :=
  match v with
  | VSummary _ _ _ _ => VString (str "")
  | _ => v
  end.

(** The world of the earlier version that corresponds to a world of the
    later one. *)
Definition earlier_world (w : World) : World :=
  {| store := placeholder <$> store w; locks := locks w |}.

(** *** Systems *)

(** The key that a call in flight has locked. *)
Definition pending_key (p : Pending) : list jsstring := postKey (pending_post p).

(** A call in flight holds the lock of its key; once the existence
    check has answered "no", the primary key stays free. *)
Definition pending_ok (P : Post -> Prop) (w : World) (p : Pending) : Prop :=
  P (pending_post p) /\ pending_key p ∈ locks w
  /\ match p with
     | AwaitExists req =>
         keyEncoding.encode (postKey (exists_post req)) = Some (exists_key req)
     | AwaitBatch req =>
         encodeBatch (batch (batch_post req)) = Some (batch_ops req)
         /\ forall k, keyEncoding.encode (postKey (batch_post req)) = Some k ->
                      store w !! k = None
     end.

Definition invariant (P : Post -> Prop) (S : System) : Prop :=
  consistent P (store (world S))
  /\ Forall (pending_ok P (world S)) (inflight S)
  /\ NoDup (pending_key <$> inflight S).

(** The run with the calls that ended, in the order in which their
    callbacks were called. *)
Fixpoint run_log (S : System) (acts : list Action)
  : System * list (Post * Outcome unit) :=
  match acts with
  | [] => (S, [])
  | a :: rest =>
      let '(S', ended) := step S a in
      let '(S'', log) := run_log S' rest in
      (S'', option_list ended ++ log)
  end.

(** The error that an action makes the store report, if any. *)
Definition fault_of (a : Action) : option N :=
  match a with
  | Begin _ => None
  | ExistsDone _ fault | BatchDone _ fault => fault
  end.

(** The action delivers an answer of the store to the call in flight for
    [key]. *)
Definition answers (S : System) (key : list jsstring) (a : Action) : Prop :=
  match a with
  | Begin _ => False
  | ExistsDone j _ | BatchDone j _ =>
      pending_key <$> inflight S !! j = Some key
  end.

#[global] Instance answers_dec S key a : Decision (answers S key a).
Proof. destruct a; cbn [answers]; apply _. Defined.

(** In the run of [acts] from [S], the store reports no error to a call
    for [key]. *)
Fixpoint answered_without_error (S : System) (key : list jsstring)
    (acts : list Action) : Prop :=
  match acts with
  | [] => True
  | a :: rest =>
      (answers S key a -> fault_of a = None)
      /\ answered_without_error (step S a).1 key rest
  end.

(** The system after the three [putPost] calls of the scenario, each run
    to its end before the next begins. *)
Definition scenario_actions : list Action :=
  [Begin firstByAna; ExistsDone 0 None; BatchDone 0 None;
   Begin secondByBob; ExistsDone 0 None; BatchDone 0 None;
   Begin thirdByAna; ExistsDone 0 None; BatchDone 0 None].

Abbreviation scenario_system := (run initial scenario_actions).

(** The world in which [firstByAna] is stored and a second call for its
    slug has taken the lock and waits for the store. *)
Definition contended : World :=
  world (run initial [Begin firstByAna; ExistsDone 0 None; BatchDone 0 None;
                      Begin anotherAna1]).

(** * Properties *)

Example encode_by_ana :
  keyEncoding.encode [str "by"; str "ana"; str "ana-1"] = Some (str "by/ana/ana-1").
Proof. reflexivity. Qed.

Example decode_by_ana :
  keyEncoding.decode (str "by/ana/ana-1") = Some [str "by"; str "ana"; str "ana-1"].
Proof. reflexivity. Qed.

Example encode_escapes :
  encodeURIComponent (str "a/b c%") = Some (str "a%2Fb%20c%25")
  /\ encodeURIComponent [0xE9] = Some (str "%C3%A9")
  /\ encodeURIComponent [0x20AC] = Some (str "%E2%82%AC")
  /\ encodeURIComponent [0xD83D; 0xDE00] = Some (str "%F0%9F%98%80")
  /\ encodeURIComponent [0xD83D] = None
  /\ decodeURIComponent (str "%F0%9F%98%80%E2%82%AC%c3%a9%2f") = Some [0xD83D; 0xDE00; 0x20AC; 0xE9; 47]
  /\ decodeURIComponent (str "%C0%80") = None
  /\ decodeURIComponent (str "%ED%A0%80") = None
  /\ decodeURIComponent (str "%4") = None.
Proof. vm_compute. repeat (split; [reflexivity|]). reflexivity. Qed.

Example scenario_passes : putAndQueryData (world initial) = true.
Proof. vm_compute. reflexivity. Qed.

(** A stored key that the codec cannot decode: [postsBy] calls back with
    the error of the stream and, when the stream has ended, once more,
    with the posts of the slugs gathered before the error. *)
Example postsBy_calls_back_twice :
  postsBy {[ str "by/ana/a" := VString (str "");
             str "by/ana/b%zz" := VString (str "");
             str "posts/a" := VPost firstByAna ]} healthy (str "ana")
  = FailedThen EncodingError (Returned [VPost firstByAna]).
Proof. vm_compute. reflexivity. Qed.

(** A slug that the codec cannot encode (a lone surrogate): the exception
    escapes from [putPost] and no lock is taken. *)
Example putPost_throws_without_lock :
  putPost (world initial) healthy
    {| title := str "t"; date := str "2016-01-01"; author := str "ana";
       slug := [0xD800]; text := str "x" |}
  = (world initial, Thrown).
Proof. vm_compute. reflexivity. Qed.

(** ** Properties of the codec *)

Ltac Zify.zify_post_hook ::= Z.to_euclidean_division_equations.

(** Settles the comparisons of the goal that linear arithmetic decides. *)
Ltac cmp :=
  repeat match goal with
  | |- context [?a <? ?b] =>
      first [ rewrite (proj2 (N.ltb_lt a b)) by lia
            | rewrite (proj2 (N.ltb_ge a b)) by lia ]
  | |- context [?a <=? ?b] =>
      first [ rewrite (proj2 (N.leb_le a b)) by lia
            | rewrite (proj2 (N.leb_gt a b)) by lia ]
  | |- context [?a =? ?b] =>
      first [ rewrite (proj2 (N.eqb_eq a b)) by lia
            | rewrite (proj2 (N.eqb_neq a b)) by lia ]
  end.

(** Turns the boolean tests among the hypotheses into (in)equalities. *)
Ltac b2p :=
  repeat match goal with
  | H : _ && _ = true |- _ => apply andb_true_iff in H; destruct H
  | H : _ || _ = false |- _ => apply orb_false_iff in H; destruct H
  | H : _ && _ = false |- _ => apply andb_false_iff in H
  | H : _ || _ = true |- _ => apply orb_true_iff in H
  | H : negb _ = true |- _ => apply negb_true_iff in H
  | H : negb _ = false |- _ => apply negb_false_iff in H
  | H : (_ <? _) = true |- _ => apply N.ltb_lt in H
  | H : (_ <? _) = false |- _ => apply N.ltb_ge in H
  | H : (_ <=? _) = true |- _ => apply N.leb_le in H
  | H : (_ <=? _) = false |- _ => apply N.leb_gt in H
  | H : (_ =? _) = true |- _ => apply N.eqb_eq in H
  | H : (_ =? _) = false |- _ => apply N.eqb_neq in H
  end.

Lemma uriUnescaped_true c :
  uriUnescaped c = true ->
  65 <= c <= 90 \/ 97 <= c <= 122 \/ 48 <= c <= 57 \/
  c = 45 \/ c = 95 \/ c = 46 \/ c = 33 \/ c = 126 \/ c = 42 \/ c = 39 \/ c = 40 \/ c = 41.
Proof.
  unfold uriUnescaped; cbn [existsb]; intros H.
  repeat (b2p; match goal with H : _ \/ _ |- _ => destruct H | _ => idtac end);
    try lia; discriminate.
Qed.

Lemma hexVal_hexDigit d : d < 16 -> hexVal (hexDigit d) = Some d.
Proof.
  intros Hd. unfold hexDigit, hexVal.
  destruct (N.ltb_spec d 10); cmp; cbn; f_equal; lia.
Qed.

Lemma hexDigit_range d :
  d < 16 -> 48 <= hexDigit d <= 57 \/ 65 <= hexDigit d <= 70.
Proof. unfold hexDigit; destruct (N.ltb_spec d 10); lia. Qed.

Lemma pctDecode_pctEncode b t :
  b < 256 -> pctDecode (pctEncode b ++ t) = cons (inr b) <$> pctDecode t.
Proof.
  intros Hb. cbn.
  rewrite !hexVal_hexDigit by lia.
  replace (16 * (b / 16) + b mod 16) with b by lia. reflexivity.
Qed.

Lemma pctDecode_octets os t :
  Forall (fun b => b < 256) os ->
  pctDecode (flat_map pctEncode os ++ t) = app (map inr os) <$> pctDecode t.
Proof.
  induction 1 as [|b os Hb _ IH]; cbn [flat_map map].
  - cbn. by destruct (pctDecode t).
  - rewrite <- app_assoc, pctDecode_pctEncode, IH by done.
    by destruct (pctDecode t).
Qed.

Lemma utf8Encode_octets cp :
  cp <= 0x10FFFF -> Forall (fun b => b < 256) (utf8Encode cp).
Proof.
  intros H. unfold utf8Encode.
  repeat match goal with |- context [?a <? ?b] => destruct (N.ltb_spec a b) end;
    repeat constructor; lia.
Qed.

Lemma utf8Items_utf8Encode cp t :
  isScalar cp ->
  utf8Items (map inr (utf8Encode cp) ++ t) = app (utf16Encode cp) <$> utf8Items t.
Proof.
  intros [Hmax Hsur]. unfold utf8Encode.
  destruct (N.ltb_spec cp 0x80) as [H1|H1];
    [|destruct (N.ltb_spec cp 0x800) as [H2|H2];
      [|destruct (N.ltb_spec cp 0x10000) as [H3|H3]]];
    cbn [map app utf8Items]; unfold isContinuation, validCodePoint; cmp;
    cbn [andb orb negb].
  - unfold utf16Encode; cmp. reflexivity.
  - replace ((_ - _) * 64 + _) with cp by lia. cmp. cbn [andb negb].
    unfold utf16Encode; cmp. reflexivity.
  - replace ((_ - _) * 4096 + _ + _) with cp by lia.
    assert (Hs : (0xD800 <=? cp) && (cp <=? 0xDFFF) = false).
    { apply andb_false_iff.
      destruct (N.leb_spec 0xD800 cp); [right; apply N.leb_gt; lia | by left]. }
    cmp. rewrite Hs. cbn [andb negb].
    unfold utf16Encode; cmp. reflexivity.
  - replace ((_ - _) * 262144 + _ + _ + _) with cp by lia. cmp. cbn [andb negb].
    reflexivity.
Qed.

Lemma utf16Encode_pair c d :
  isLeadSurrogate c = true -> isTrailSurrogate d = true ->
  utf16Encode (surrogatePairToCodePoint c d) = [c; d]
  /\ isScalar (surrogatePairToCodePoint c d).
Proof.
  unfold isLeadSurrogate, isTrailSurrogate, surrogatePairToCodePoint, utf16Encode,
    isScalar.
  intros; b2p. cmp. split; [f_equal; [|f_equal]; lia | lia].
Qed.

(** *** What [encodeURIComponent] writes *)

Lemma uriChar_bounds c : uriChar c -> c <> slash /\ c <= 126 /\ 33 <= c.
Proof.
  unfold slash. intros [H| ->]; [apply uriUnescaped_true in H|]; lia.
Qed.

Lemma uriUnescaped_hexDigit d : d < 16 -> uriUnescaped (hexDigit d) = true.
Proof.
  intros Hd. destruct (hexDigit_range d Hd) as [H|H]; unfold uriUnescaped.
  - replace ((48 <=? hexDigit d) && (hexDigit d <=? 57)) with true
      by (symmetry; apply andb_true_iff; split; apply N.leb_le; lia).
    by rewrite !orb_true_r.
  - replace ((65 <=? hexDigit d) && (hexDigit d <=? 90)) with true
      by (symmetry; apply andb_true_iff; split; apply N.leb_le; lia).
    done.
Qed.

Lemma pctEncode_chars b : b < 256 -> Forall uriChar (pctEncode b).
Proof.
  intros Hb. unfold pctEncode.
  apply Forall_cons_2; [by right|].
  apply Forall_cons_2; [left; apply uriUnescaped_hexDigit; lia|].
  apply Forall_cons_2; [left; apply uriUnescaped_hexDigit; lia|].
  apply Forall_nil_2.
Qed.

Lemma pctEncode_octets_chars os :
  Forall (fun b => b < 256) os -> Forall uriChar (flat_map pctEncode os).
Proof.
  induction 1; cbn [flat_map]; [constructor|].
  apply Forall_app; split; [by apply pctEncode_chars | done].
Qed.

(** Strong induction on the length of a string: [encodeURIComponent]
    consumes one code unit or a surrogate pair at a time. *)
Lemma string_pair_ind (P : jsstring -> Prop) :
  P [] ->
  (forall c s, P s -> (forall d s', s = d :: s' -> P s') -> P (c :: s)) ->
  forall s, P s.
Proof.
  intros Hnil Hcons s.
  assert (H : P s /\ forall d s', s = d :: s' -> P s').
  { induction s as [|c s [IH1 IH2]]; [split; [done | discriminate]|].
    split; [by apply Hcons | by intros d s' [= -> ->]]. }
  apply H.
Qed.

Lemma encodeURIComponent_chars s e :
  is_string s -> encodeURIComponent s = Some e -> Forall uriChar e.
Proof.
  revert e. induction s as [|c s IH IH2] using string_pair_ind; intros e Hs He.
  { by injection He as <-. }
  apply Forall_cons in Hs as [Hc Hs]. cbn [encodeURIComponent] in He.
  destruct (uriUnescaped c) eqn:Hu.
  { destruct (encodeURIComponent s) as [e'|]; [|done]. injection He as <-.
    constructor; [by left | by apply IH]. }
  destruct (isLeadSurrogate c) eqn:Hl.
  - destruct s as [|d s']; [done|].
    destruct (isTrailSurrogate d) eqn:Ht; [|done].
    destruct (encodeURIComponent s') as [e'|] eqn:He'; [|done]. injection He as <-.
    apply Forall_cons in Hs as [_ Hs].
    destruct (utf16Encode_pair c d Hl Ht) as [_ [Hmax _]].
    apply Forall_app; split; [|by eapply IH2].
    by apply pctEncode_octets_chars, utf8Encode_octets.
  - destruct (isTrailSurrogate c); [done|].
    destruct (encodeURIComponent s) as [e'|]; [|done]. injection He as <-.
    apply Forall_app; split; [|by apply IH].
    apply pctEncode_octets_chars, utf8Encode_octets. lia.
Qed.

(** *** Decoding what was encoded *)

Lemma decodeURIComponent_encodeURIComponent s e :
  is_string s -> encodeURIComponent s = Some e -> decodeURIComponent e = Some s.
Proof.
  unfold decodeURIComponent.
  enough (H : forall e, is_string s -> encodeURIComponent s = Some e ->
                exists items, pctDecode e = Some items /\ utf8Items items = Some s).
  { intros Hs He. destruct (H e Hs He) as (items & -> & Hi). done. }
  clear e. induction s as [|c s IH IH2] using string_pair_ind; intros e Hs He.
  { injection He as <-. by exists []. }
  apply Forall_cons in Hs as [Hc Hs]. cbn [encodeURIComponent] in He.
  destruct (uriUnescaped c) eqn:Hu.
  { destruct (encodeURIComponent s) as [e'|] eqn:He'; [|done]. injection He as <-.
    destruct (IH e' Hs eq_refl) as (items & Hp & Hi).
    exists (inl c :: items). cbn [pctDecode utf8Items].
    assert (c <> 37) by (intros ->; discriminate).
    replace (c =? 37) with false by (symmetry; by apply N.eqb_neq).
    by rewrite Hp, Hi. }
  destruct (isLeadSurrogate c) eqn:Hl.
  - destruct s as [|d s']; [done|].
    destruct (isTrailSurrogate d) eqn:Ht; [|done].
    destruct (encodeURIComponent s') as [e'|] eqn:He'; [|done]. injection He as <-.
    apply Forall_cons in Hs as [_ Hs].
    destruct (IH2 d s' eq_refl e' Hs He') as (items & Hp & Hi).
    destruct (utf16Encode_pair c d Hl Ht) as [Hpair Hsc].
    exists (map inr (utf8Encode (surrogatePairToCodePoint c d)) ++ items). split.
    + rewrite pctDecode_octets, Hp by (apply utf8Encode_octets, Hsc). done.
    + rewrite utf8Items_utf8Encode, Hi, Hpair by done. done.
  - destruct (isTrailSurrogate c) eqn:Ht; [done|].
    destruct (encodeURIComponent s) as [e'|] eqn:He'; [|done]. injection He as <-.
    destruct (IH e' Hs eq_refl) as (items & Hp & Hi).
    assert (Hsc : isScalar c).
    { unfold isLeadSurrogate, isTrailSurrogate, isScalar in *.
      split; [lia|]. intros [? ?].
      destruct (N.leb_spec c 0xDBFF); b2p.
      - destruct Hl; b2p; lia.
      - destruct Ht; b2p; lia. }
    exists (map inr (utf8Encode c) ++ items). split.
    + rewrite pctDecode_octets, Hp by (apply utf8Encode_octets, Hsc). done.
    + rewrite utf8Items_utf8Encode, Hi by done.
      unfold utf16Encode. cmp. done.
Qed.

(** [encodeURIComponent] is injective on strings. *)
Lemma encodeURIComponent_inj s1 s2 e :
  is_string s1 -> is_string s2 ->
  encodeURIComponent s1 = Some e -> encodeURIComponent s2 = Some e -> s1 = s2.
Proof.
  intros H1 H2 E1 E2.
  apply decodeURIComponent_encodeURIComponent in E1, E2; [|done..]. congruence.
Qed.

(** *** [split] undoes [join] *)

Lemma split_no_sep w : slash ∉ w -> split slash w = [w].
Proof.
  induction w as [|c w IH]; [done|]. intros Hn. cbn [split].
  replace (c =? slash) with false
    by (symmetry; apply N.eqb_neq; intros ->; apply Hn; left).
  rewrite IH; [done|]. intros ?; apply Hn. by right.
Qed.

Lemma split_app_sep w t :
  slash ∉ w -> split slash (w ++ slash :: t) = w :: split slash t.
Proof.
  induction w as [|c w IH]; intros Hn; [done|].
  cbn [app split].
  replace (c =? slash) with false
    by (symmetry; apply N.eqb_neq; intros ->; apply Hn; left).
  rewrite IH; [done|]. intros ?; apply Hn. by right.
Qed.

Lemma split_join l :
  l <> [] -> Forall (fun w => slash ∉ w) l -> split slash (join [slash] l) = l.
Proof.
  intros Hne Hl. induction Hl as [|w l Hw Hl IH]; [done|].
  destruct l as [|w' l]; [by apply split_no_sep|].
  change (join [slash] (w :: w' :: l)) with (w ++ slash :: join [slash] (w' :: l)).
  rewrite split_app_sep by done. f_equal. by apply IH.
Qed.

Lemma uriChars_no_slash e : Forall uriChar e -> slash ∉ e.
Proof.
  intros He Hin. rewrite Forall_forall in He.
  by destruct (uriChar_bounds _ (He _ Hin)).
Qed.

Lemma encoded_components l es :
  Forall is_string l -> mapM encodeURIComponent l = Some es ->
  Forall2 (fun e s => decodeURIComponent e = Some s) es l
  /\ Forall (Forall uriChar) es.
Proof.
  intros Hl Hes. apply mapM_Some in Hes.
  induction Hes as [|s e l es He Hes IH]; [by split; constructor|].
  apply Forall_cons in Hl as [Hs Hl]. destruct (IH Hl) as [IH1 IH2].
  split; constructor;
    eauto using decodeURIComponent_encodeURIComponent, encodeURIComponent_chars.
Qed.

(** The codec on a non-empty sequence of strings: decoding undoes
    encoding. *)
Lemma decode_encode (l : list jsstring) k :
  l <> [] -> Forall is_string l ->
  keyEncoding.encode l = Some k -> keyEncoding.decode k = Some l.
Proof.
  unfold keyEncoding.encode, keyEncoding.decode. intros Hne Hl Hk.
  destruct (mapM encodeURIComponent l) as [es|] eqn:Hes; [|done].
  injection Hk as <-.
  destruct (encoded_components l es Hl Hes) as [Hdec Hch].
  rewrite split_join.
  - by apply mapM_Some.
  - intros ->. apply Forall2_nil_inv_l in Hdec. done.
  - eapply Forall_impl; [exact Hch|]. apply uriChars_no_slash.
Qed.

(** The codec is injective on non-empty sequences of strings. *)
Lemma encode_inj l1 l2 k :
  l1 <> [] -> l2 <> [] -> Forall is_string l1 -> Forall is_string l2 ->
  keyEncoding.encode l1 = Some k -> keyEncoding.encode l2 = Some k -> l1 = l2.
Proof.
  intros N1 N2 H1 H2 E1 E2.
  apply decode_encode in E1, E2; [|done..]. congruence.
Qed.

(** ** C7: the round trip of the key codec *)

(** C7, as stated, fails at the empty sequence: it encodes to the empty
    string, which splits into one empty component. *)
Lemma roundtrip_fails_on_empty_sequence :
  keyEncoding.encode [] = Some []
  /\ keyEncoding.decode [] = Some [[]]
  /\ (keyEncoding.encode [] ≫= keyEncoding.decode) <> Some [].
Proof. repeat split. discriminate. Qed.

(** C7 (amended): for every non-empty sequence of strings that the codec
    can encode (no component has an unpaired surrogate), decoding the
    encoding yields the original sequence. *)
Theorem keyEncoding_roundtrip (components : list jsstring) (key : jsstring) :
  components <> [] ->
  Forall is_string components ->
  keyEncoding.encode components = Some key ->
  keyEncoding.decode key = Some components.
Proof. apply decode_encode. Qed.

Lemma keyEncoding_roundtrip_witness :
  keyEncoding.decode (str "by/a%2Fb/%C3%A9") = Some [str "by"; str "a/b"; [0xE9]].
Proof.
  apply (keyEncoding_roundtrip [str "by"; str "a/b"; [0xE9]]).
  - discriminate.
  - unfold is_string.
    repeat (apply Forall_cons_2 || apply Forall_nil_2); vm_compute; reflexivity.
  - vm_compute. reflexivity.
Defined.

(** ** The order of strings *)

Lemma str_ltb_cons x a y b :
  str_ltb (x :: a) (y :: b)
  = if x <? y then true else if y <? x then false else str_ltb a b.
Proof. reflexivity. Qed.

Lemma str_ltb_irrefl a : str_ltb a a = false.
Proof.
  induction a as [|x a IH]; [done|].
  rewrite str_ltb_cons, N.ltb_irrefl. done.
Qed.

Lemma str_ltb_asym a b : str_ltb a b = true -> str_ltb b a = false.
Proof.
  revert b. induction a as [|x a IH]; intros [|y b]; try done.
  rewrite !str_ltb_cons.
  destruct (N.ltb_spec x y), (N.ltb_spec y x); try done; try lia. apply IH.
Qed.

Lemma str_ltb_trans a b c :
  str_ltb a b = true -> str_ltb b c = true -> str_ltb a c = true.
Proof.
  revert b c. induction a as [|x a IH]; intros [|y b] [|z c]; try done.
  rewrite !str_ltb_cons.
  destruct (N.ltb_spec x y), (N.ltb_spec y x), (N.ltb_spec y z),
    (N.ltb_spec z y), (N.ltb_spec x z), (N.ltb_spec z x);
    try done; try lia. apply IH.
Qed.

Lemma str_ltb_connex a b : str_ltb a b = false -> str_ltb b a = false -> a = b.
Proof.
  revert b. induction a as [|x a IH]; intros [|y b]; try done.
  rewrite !str_ltb_cons.
  destruct (N.ltb_spec x y), (N.ltb_spec y x); try done.
  intros. f_equal; [lia | by apply IH].
Qed.

Lemma str_ltb_app p a b : str_ltb (p ++ a) (p ++ b) = str_ltb a b.
Proof.
  induction p as [|x p IH]; [done|].
  cbn [app]. rewrite str_ltb_cons, N.ltb_irrefl. done.
Qed.

Lemma str_leb_refl a : str_leb a a = true.
Proof. unfold str_leb. by rewrite str_ltb_irrefl. Qed.

Lemma str_leb_trans a b c :
  str_leb a b = true -> str_leb b c = true -> str_leb a c = true.
Proof.
  unfold str_leb. rewrite !negb_true_iff. intros Hab Hbc.
  destruct (str_ltb c a) eqn:Hca; [|done].
  destruct (str_ltb a b) eqn:Hab'.
  - by rewrite (str_ltb_trans c a b) in Hbc.
  - rewrite (str_ltb_connex a b) in Hca by done. congruence.
Qed.

Lemma str_leb_total a b : str_leb a b = true \/ str_leb b a = true.
Proof.
  unfold str_leb. destruct (str_ltb b a) eqn:H; [right|by left].
  by rewrite (str_ltb_asym b a).
Qed.

Lemma str_leb_antisym a b : str_leb a b = true -> str_leb b a = true -> a = b.
Proof.
  unfold str_leb. rewrite !negb_true_iff. intros. by apply str_ltb_connex.
Qed.

(** ** C2: the codec and the order of keys *)

Lemma str_ltb_tails x y ta tb :
  above_slash x -> above_slash y -> key_tail ta -> key_tail tb ->
  str_ltb (x ++ ta) (y ++ tb)
  = if str_ltb x y then true else if str_ltb y x then false else str_ltb ta tb.
Proof.
  intros Hx. revert y. induction Hx as [|c x Hc Hx IH]; intros y Hy Ha Hb.
  - destruct Hy as [|d y Hd Hy]; [done|].
    cbn [app]. destruct Ha as [->|[t' ->]]; [done|].
    rewrite str_ltb_cons. by destruct (N.ltb_spec slash d); [|lia].
  - destruct Hy as [|d y Hd Hy].
    + cbn [app]. destruct Hb as [->|[t' ->]]; [done|].
      rewrite str_ltb_cons.
      destruct (N.ltb_spec c slash), (N.ltb_spec slash c); try lia. done.
    + cbn [app]. rewrite !str_ltb_cons, IH by done.
      by destruct (N.ltb_spec c d), (N.ltb_spec d c).
Qed.

Lemma join_cons_tail x xs :
  exists t, join [slash] (x :: xs) = x ++ t /\ key_tail t
            /\ (xs = [] -> t = [])
            /\ (xs <> [] -> t = slash :: join [slash] xs).
Proof.
  destruct xs as [|x' xs].
  - exists []. cbn. rewrite app_nil_r. repeat split; [by left | done].
  - exists (slash :: join [slash] (x' :: xs)).
    repeat split; [right; eauto | done].
Qed.

Lemma join_order (A B : list jsstring) :
  A <> [] -> B <> [] -> Forall above_slash A -> Forall above_slash B ->
  str_ltb (join [slash] A) (join [slash] B) = seq_ltb A B.
Proof.
  intros HA HB FA. revert B HB.
  induction FA as [|x xs Hx Hxs IH]; [done|]. clear HA.
  intros B HB FB. destruct FB as [|y ys Hy Hys]; [done|]. clear HB.
  destruct (join_cons_tail x xs) as (ta & -> & Hta & Ha0 & Ha1).
  destruct (join_cons_tail y ys) as (tb & -> & Htb & Hb0 & Hb1).
  rewrite str_ltb_tails by done.
  change (seq_ltb (x :: xs) (y :: ys))
    with (if str_ltb x y then true else if str_ltb y x then false
          else seq_ltb xs ys).
  destruct (str_ltb x y); [done|]. destruct (str_ltb y x); [done|].
  destruct xs as [|x' xs], ys as [|y' ys].
  - by rewrite Ha0, Hb0.
  - by rewrite Ha0, Hb1.
  - by rewrite Ha1, Hb0.
  - rewrite Ha1, Hb1 by done. rewrite str_ltb_cons, N.ltb_irrefl.
    by apply IH.
Qed.

Lemma plainChar_spec c :
  plainChar c = true -> uriUnescaped c = true /\ slash < c.
Proof.
  unfold plainChar, uriUnescaped, slash; cbn [existsb]. intros H.
  repeat (b2p; match goal with H : _ \/ _ |- _ => destruct H | _ => idtac end);
    (split; [|lia]).
  all: repeat match goal with
       | |- context [?a <=? ?b] =>
           first [ rewrite (proj2 (N.leb_le a b)) by lia
                 | rewrite (proj2 (N.leb_gt a b)) by lia ]
       | |- context [?a =? ?b] =>
           first [ rewrite (proj2 (N.eqb_eq a b)) by lia
                 | rewrite (proj2 (N.eqb_neq a b)) by lia ]
       end; reflexivity.
Qed.

Lemma encodeURIComponent_plain s : plain s -> encodeURIComponent s = Some s.
Proof.
  induction 1 as [|c s Hc Hs IH]; [done|].
  cbn [encodeURIComponent].
  destruct (plainChar_spec c Hc) as [-> _]. by rewrite IH.
Qed.

Lemma encode_plain (A : list jsstring) :
  Forall plain A -> keyEncoding.encode A = Some (join [slash] A).
Proof.
  intros HA. unfold keyEncoding.encode.
  replace (mapM encodeURIComponent A) with (Some A); [done|].
  symmetry. apply mapM_Some.
  induction HA; constructor; [by apply encodeURIComponent_plain | done].
Qed.

Lemma plain_above_slash s : plain s -> above_slash s.
Proof.
  unfold plain, above_slash. intros H. eapply Forall_impl; [exact H|].
  cbn. intros c Hc. by destruct (plainChar_spec c Hc).
Qed.

(** C2, as stated, fails: ["-"] is left unescaped and sorts before the
    separator ["/"], so the shorter component [a] comes after [a-] once
    both are followed by the separator. *)
Lemma encode_order_fails_on_hyphen :
  let A := [str "a"; str "b"] in
  let B := [str "a-"; str "b"] in
  keyEncoding.encode A = Some (str "a/b")
  /\ keyEncoding.encode B = Some (str "a-/b")
  /\ seq_ltb A B = true
  /\ str_ltb (str "a/b") (str "a-/b") = false.
Proof. repeat split. Qed.

(** C2 (amended): for non-empty sequences whose components consist of
    letters, digits, ["_"] and ["~"], the encoded keys compare as the
    sequences do, component by component. *)
Theorem encode_preserves_order (A B : list jsstring) :
  A <> [] -> B <> [] -> Forall plain A -> Forall plain B ->
  exists ka kb,
    keyEncoding.encode A = Some ka /\ keyEncoding.encode B = Some kb
    /\ (str_ltb ka kb = true <-> seq_ltb A B = true).
Proof.
  intros HA HB PA PB. exists (join [slash] A), (join [slash] B).
  rewrite !encode_plain by done. repeat split.
  - rewrite join_order; [done..| |]; eapply Forall_impl; eauto using plain_above_slash.
  - rewrite join_order; [done..| |]; eapply Forall_impl; eauto using plain_above_slash.
Qed.

Lemma forallb_plain (s : jsstring) : forallb plainChar s = true -> plain s.
Proof.
  intros H. apply Forall_forall. intros c Hc.
  rewrite forallb_forall in H. apply H. by apply list_elem_of_In.
Qed.

Lemma encode_preserves_order_witness :
  exists ka kb,
    keyEncoding.encode [str "by"; str "ana"; str "z"] = Some ka
    /\ keyEncoding.encode [str "by"; str "bob"; str "a"] = Some kb
    /\ (str_ltb ka kb = true
        <-> seq_ltb [str "by"; str "ana"; str "z"] [str "by"; str "bob"; str "a"] = true).
Proof.
  apply encode_preserves_order; try discriminate;
    repeat (apply Forall_cons_2; [apply forallb_plain; reflexivity|]);
    apply Forall_nil_2.
Defined.

(** ** [putPost]: the paths that end before the batch *)

Lemma lock_held held key : key ∈ held -> lock held key = None.
Proof. intros H. unfold lock. by destruct (decide (key ∈ held)). Qed.

Lemma lock_free held key : key ∉ held -> lock held key = Some ({[key]} ∪ held).
Proof. intros H. unfold lock. by destruct (decide (key ∈ held)). Qed.

Lemma unlock_lock held key : key ∉ held -> unlock ({[key]} ∪ held) key = held.
Proof.
  intros Hfree. unfold unlock. apply set_eq. intros x.
  rewrite elem_of_difference, elem_of_union, elem_of_singleton. split.
  - by intros [[->|?] ?].
  - intros Hx. split; [by right|]. by intros ->.
Qed.

Lemma store_exists_true st k :
  is_Some (st !! k) -> store_exists st None k = inr true.
Proof. intros H. unfold store_exists. by rewrite bool_decide_eq_true_2. Qed.

Lemma store_exists_false st k :
  st !! k = None -> store_exists st None k = inr false.
Proof.
  intros H. unfold store_exists. rewrite bool_decide_eq_false_2; [done|].
  rewrite H. by intros [? ?].
Qed.

(** The outcomes of [putPost], path by path. *)
Lemma putPost_conflict w io post :
  postKey post ∈ locks w -> putPost w io post = (w, Failed Conflict).
Proof. intros H. unfold putPost, putPost_begin. by rewrite lock_held. Qed.

Lemma putPost_exists_error w io post k code :
  postKey post ∉ locks w ->
  keyEncoding.encode (postKey post) = Some k ->
  exists_fault io = Some code ->
  putPost w io post
  = ({| store := store w; locks := {[postKey post]} ∪ locks w |},
     Failed (StoreFailure code)).
Proof.
  intros Hl Hk Hf. unfold putPost, putPost_begin.
  rewrite lock_free, Hk by done. cbn. by rewrite Hf.
Qed.

Lemma putPost_taken w io post k :
  postKey post ∉ locks w ->
  keyEncoding.encode (postKey post) = Some k ->
  exists_fault io = None ->
  is_Some (store w !! k) ->
  putPost w io post
  = ({| store := store w; locks := {[postKey post]} ∪ locks w |},
     Failed SlugAlreadyTaken).
Proof.
  intros Hl Hk Hf Hs. unfold putPost, putPost_begin.
  rewrite lock_free, Hk by done. cbn. by rewrite Hf, store_exists_true.
Qed.

(** Whatever the path, [putPost] ends in one of these ways. *)
Lemma putPost_cases w io post w' done :
  putPost w io post = (w', done) ->
  (postKey post ∈ locks w /\ w' = w /\ done = Failed Conflict)
  \/ ((postKey post ∉ locks w) /\ store w' = store w
      /\ issued_batch w io post = None
      /\ (done = Thrown
          \/ (exists code, exists_fault io = Some code
                           /\ done = Failed (StoreFailure code))
          \/ (exists_fault io = None /\ done = Failed SlugAlreadyTaken)))
  \/ ((postKey post ∉ locks w) /\ exists_fault io = None
      /\ is_Some (issued_batch w io post)
      /\ ((exists code, batch_fault io = Some code /\ store w' = store w
                        /\ done = Failed (StoreFailure code))
          \/ (batch_fault io = None /\ done = Returned tt))).
Proof.
  unfold putPost, issued_batch, putPost_begin.
  destruct (decide (postKey post ∈ locks w)) as [Hl|Hl].
  { rewrite lock_held by done. intros [= <- <-]. by left. }
  rewrite lock_free by done. intros Hput. right.
  destruct (keyEncoding.encode (postKey post)) as [k|].
  2:{ injection Hput as <- <-. left. repeat split; eauto. }
  cbn [exists_key exists_post store] in *. unfold store_exists in *.
  destruct (exists_fault io) as [code|] eqn:Hf.
  { cbn in *. injection Hput as <- <-. left. repeat split; eauto. }
  unfold putPost_onExists in *. cbn [exists_post] in *.
  destruct (bool_decide (is_Some (store w !! k))).
  { injection Hput as <- <-. left. repeat split; eauto. }
  destruct (encodeBatch (batch post)) as [ops|].
  2:{ injection Hput as <- <-. left. repeat split; eauto. }
  unfold answer_batch, store_batch in Hput. cbn [batch_ops store locks] in Hput.
  destruct (batch_fault io) as [code|] eqn:Hb.
  - cbn in Hput. injection Hput as <- <-. right. repeat split; eauto.
  - cbn in Hput. injection Hput as <- <-. right. repeat split; eauto.
Qed.

(** ** C10: no write on the paths that end before the batch *)

(** C10: when [putPost] fails with Conflict, with the store's error from
    the existence check, or with the duplicate-slug rejection, the store
    is as it was and no batch was handed to it. *)
Theorem putPost_early_failure_keeps_store
    (w : World) (io : Faults) (post : Post) (w' : World) (done : Outcome unit) :
  putPost w io post = (w', done) ->
  done = Failed Conflict
  \/ done = Failed SlugAlreadyTaken
  \/ ((postKey post ∉ locks w)
      /\ exists code, exists_fault io = Some code
                      /\ done = Failed (StoreFailure code)) ->
  store w' = store w /\ issued_batch w io post = None.
Proof.
  intros Hput Hdone. apply putPost_cases in Hput.
  destruct Hput as [(Hl & -> & ->) | [(Hl & Hs & Hi & _) | (Hl & Hf & _ & Hb)]].
  - split; [done|]. unfold issued_batch, putPost_begin. by rewrite lock_held.
  - done.
  - exfalso. destruct Hdone as [-> | [-> | (_ & code & Hc & _)]].
    + destruct Hb as [(? & _ & _ & ?) | (_ & ?)]; done.
    + destruct Hb as [(? & _ & _ & ?) | (_ & ?)]; done.
    + congruence.
Qed.

Lemma putPost_early_failure_keeps_store_witness :
  store (putPost scenario healthy firstByAna).1 = store scenario
  /\ issued_batch scenario healthy firstByAna = None.
Proof.
  apply (putPost_early_failure_keeps_store scenario healthy firstByAna
           (putPost scenario healthy firstByAna).1 (Failed SlugAlreadyTaken)).
  - vm_compute. reflexivity.
  - right. left. reflexivity.
Defined.

(** ** C5: a slug that is already taken *)

(** C5, as stated, fails: while another write to the slug is in flight,
    the call is turned away with Conflict, not with the duplicate-slug
    rejection, although the primary record exists. *)
Lemma taken_slug_may_yield_conflict :
  store contended !! str "posts/ana-1" = Some (VPost firstByAna)
  /\ putPost contended healthy anotherAna1 = (contended, Failed Conflict).
Proof. split; vm_compute; reflexivity. Qed.

(** C5 (amended): where a primary record exists for the slug, [putPost]
    never succeeds and never changes the store.  It fails with "Slug
    already taken" whenever it gets the lock and the existence check
    completes without a store error; otherwise it fails with Conflict
    (the lock is held) or with the error that the store reports to the
    existence check. *)
Theorem putPost_rejects_taken_slug
    (w : World) (io : Faults) (post : Post) (k : jsstring) :
  keyEncoding.encode (postKey post) = Some k ->
  is_Some (store w !! k) ->
  store (putPost w io post).1 = store w
  /\ (putPost w io post).2 <> Returned tt
  /\ ((postKey post ∉ locks w) -> exists_fault io = None ->
      (putPost w io post).2 = Failed SlugAlreadyTaken)
  /\ ((postKey post ∈ locks w) -> (putPost w io post).2 = Failed Conflict)
  /\ ((postKey post ∉ locks w) ->
      forall code, exists_fault io = Some code ->
                   (putPost w io post).2 = Failed (StoreFailure code)).
Proof.
  intros Hk Hs.
  destruct (decide (postKey post ∈ locks w)) as [Hl|Hl].
  { rewrite putPost_conflict by done. by split; [|split; [|split; [|split]]]. }
  destruct (exists_fault io) as [code|] eqn:Hf.
  - rewrite (putPost_exists_error w io post k code) by done.
    split; [done|]. split; [done|]. split; [done|]. split; [done|].
    by intros _ code' [= <-].
  - rewrite (putPost_taken w io post k) by done.
    by split; [|split; [|split; [|split]]].
Qed.

Lemma putPost_rejects_taken_slug_witness :
  store (putPost scenario healthy anotherAna1).1 = store scenario
  /\ (putPost scenario healthy anotherAna1).2 <> Returned tt
  /\ ((postKey anotherAna1 ∉ locks scenario) -> exists_fault healthy = None ->
      (putPost scenario healthy anotherAna1).2 = Failed SlugAlreadyTaken)
  /\ ((postKey anotherAna1 ∈ locks scenario) ->
      (putPost scenario healthy anotherAna1).2 = Failed Conflict)
  /\ ((postKey anotherAna1 ∉ locks scenario) ->
      forall code, exists_fault healthy = Some code ->
                   (putPost scenario healthy anotherAna1).2
                   = Failed (StoreFailure code)).
Proof.
  apply (putPost_rejects_taken_slug scenario healthy anotherAna1 (str "posts/ana-1")).
  - vm_compute. reflexivity.
  - exists (VPost firstByAna). vm_compute. reflexivity.
Defined.

(** ** C1: the lock on the paths that end before the batch *)

(** Where the batch is reached, the lock is released when its callback
    runs: the lock table is as it was before the call. *)
Lemma putPost_releases_after_batch w io post w' done :
  putPost w io post = (w', done) ->
  is_Some (issued_batch w io post) ->
  locks w' = locks w.
Proof.
  unfold putPost, issued_batch, putPost_begin.
  destruct (decide (postKey post ∈ locks w)) as [Hl|Hl].
  { rewrite lock_held by done. by intros _ [? ?]. }
  rewrite lock_free by done.
  destruct (keyEncoding.encode (postKey post)) as [k|]; [|by intros _ [? ?]].
  cbn [exists_key exists_post store].
  destruct (putPost_onExists _ _ _) as [w2 [o|req']] eqn:H2; [by intros _ [? ?]|].
  unfold putPost_onExists in H2. cbn [exists_post] in H2.
  destruct (store_exists _ _ _) as [e|[|]]; try done.
  destruct (encodeBatch (batch post)) as [ops|]; [|done].
  injection H2 as <- <-.
  unfold answer_batch, store_batch, putPost_onBatch, unlock.
  cbn [batch_ops batch_post store locks].
  destruct (batch_fault io); intros H _; injection H as <- _; cbn [locks];
    by apply unlock_lock.
Qed.

(** C1 (the code departs from the claim): after the duplicate-slug
    rejection, and after a store error of the existence check, the lock
    that the call took is still held; a later call for the slug is turned
    away with Conflict. *)
Theorem putPost_keeps_lock_when_it_fails_early :
  (postKey anotherAna1 ∉ locks scenario)
  /\ putPost scenario healthy anotherAna1
     = ({| store := store scenario;
           locks := {[postKey anotherAna1]} ∪ locks scenario |},
        Failed SlugAlreadyTaken)
  /\ (putPost (putPost scenario healthy anotherAna1).1 healthy anotherAna1).2
     = Failed Conflict
  /\ (forall io code, exists_fault io = Some code ->
      putPost scenario io anotherAna1
      = ({| store := store scenario;
            locks := {[postKey anotherAna1]} ∪ locks scenario |},
         Failed (StoreFailure code))).
Proof.
  assert (Hfree : postKey anotherAna1 ∉ locks scenario).
  { vm_compute. discriminate. }
  split; [|split; [|split]].
  - exact Hfree.
  - apply (putPost_taken _ _ _ (str "posts/ana-1")); [done..|].
    exists (VPost firstByAna). vm_compute. reflexivity.
  - vm_compute. reflexivity.
  - intros io code Hf.
    by apply (putPost_exists_error _ _ _ (str "posts/ana-1")).
Qed.

(** ** The records of a post *)

Lemma is_string_str s : is_string (str s).
Proof.
  unfold is_string, str. apply Forall_forall. intros c Hc.
  apply list_elem_of_fmap in Hc as (a & -> & _).
  pose proof (N_ascii_bounded a). lia.
Qed.

Lemma encodeBatch_batch post ops :
  encodeBatch (batch post) = Some ops ->
  exists kb kd kp,
    keyEncoding.encode [str "by"; author post; slug post] = Some kb
    /\ keyEncoding.encode [str "date"; date post; slug post] = Some kd
    /\ keyEncoding.encode (postKey post) = Some kp
    /\ ops = [ (kb, VString (str ""));
               (kd, withoutTitle post);
               (kp, VPost post) ].
Proof.
  unfold encodeBatch, batch. cbn [mapM fst snd].
  destruct (keyEncoding.encode [str "by"; author post; slug post]) as [kb|]; [|done].
  destruct (keyEncoding.encode [str "date"; date post; slug post]) as [kd|]; [|done].
  destruct (keyEncoding.encode (postKey post)) as [kp|]; [|done].
  cbn. intros [= <-]. by exists kb, kd, kp.
Qed.

(** The keys of the three records of a post. *)
Lemma post_keys_strings post :
  is_post post ->
  Forall is_string [str "by"; author post; slug post]
  /\ Forall is_string [str "date"; date post; slug post]
  /\ Forall is_string (postKey post).
Proof.
  intros (_ & Hd & Ha & Hs & _). unfold postKey.
  repeat split; repeat (apply Forall_cons_2; [done || apply is_string_str|]);
    apply Forall_nil_2.
Qed.

(** Two records with the same encoded key belong to posts with the same
    slug, and are records of the same index. *)
Lemma records_collide p q opsp opsq op oq :
  is_post p -> is_post q ->
  encodeBatch (batch p) = Some opsp -> encodeBatch (batch q) = Some opsq ->
  op ∈ opsp -> oq ∈ opsq -> op.1 = oq.1 -> slug p = slug q.
Proof.
  intros Hp Hq Ep Eq Hop Hoq Hk.
  destruct (post_keys_strings p Hp) as (Sb & Sd & Sp).
  destruct (post_keys_strings q Hq) as (Sb' & Sd' & Sp').
  apply encodeBatch_batch in Ep as (kb & kd & kp & Eb & Ed & Ep & ->).
  apply encodeBatch_batch in Eq as (kb' & kd' & kp' & Eb' & Ed' & Ep' & ->).
  unfold postKey in *.
  repeat match goal with
         | H : _ ∈ _ :: _ |- _ => apply elem_of_cons in H as [->|H]
         | H : _ ∈ [] |- _ => by apply elem_of_nil in H
         end; cbn [fst] in Hk; subst;
    match goal with
    | H1 : keyEncoding.encode ?l1 = Some ?k, H2 : keyEncoding.encode ?l2 = Some ?k |- _ =>
        assert (Heq : l1 = l2) by (by apply (encode_inj l1 l2 k))
    end; cbn in Heq; by simplify_eq.
Qed.

Lemma records_distinct p ops :
  is_post p -> encodeBatch (batch p) = Some ops -> NoDup ops.*1.
Proof.
  intros Hp Ep.
  destruct (post_keys_strings p Hp) as (Sb & Sd & Sp).
  apply encodeBatch_batch in Ep as (kb & kd & kp & Eb & Ed & Ep & ->).
  unfold postKey in *. cbn.
  assert (kb <> kd).
  { intros ->.
    assert (Heq : [str "by"; author p; slug p] = [str "date"; date p; slug p])
      by (by apply (encode_inj _ _ kd)).
    cbn in Heq. by simplify_eq. }
  assert (kb <> kp).
  { intros ->.
    assert (Heq : [str "by"; author p; slug p] = [str "posts"; slug p])
      by (by apply (encode_inj _ _ kp)).
    cbn in Heq. by simplify_eq. }
  assert (kd <> kp).
  { intros ->.
    assert (Heq : [str "date"; date p; slug p] = [str "posts"; slug p])
      by (by apply (encode_inj _ _ kp)).
    cbn in Heq. by simplify_eq. }
  rewrite !NoDup_cons, !elem_of_cons, !elem_of_nil.
  repeat split; try apply NoDup_nil_2;
    intros Hin; repeat destruct Hin as [Hin|Hin]; congruence.
Qed.

Lemma records_primary p ops :
  encodeBatch (batch p) = Some ops ->
  exists kp, keyEncoding.encode (postKey p) = Some kp /\ (kp, VPost p) ∈ ops.
Proof.
  intros Ep. apply encodeBatch_batch in Ep as (kb & kd & kp & Eb & Ed & Ep & ->).
  exists kp. split; [done|]. rewrite !elem_of_cons. auto.
Qed.

(** The batch applied to the store. *)
Lemma store_batch_lookup st ops k :
  NoDup ops.*1 ->
  (store_batch st None ops).1 !! k
  = match list_to_map (M := gmap jsstring Value) ops !! k with
    | Some v => Some v
    | None => st !! k
    end.
Proof.
  unfold store_batch. cbn [fst]. revert st.
  induction ops as [|[k' v'] ops IH]; intros st Hnd; [done|].
  apply NoDup_cons in Hnd as [Hk' Hnd]. cbn [foldl fst snd].
  rewrite IH, list_to_map_cons by done. destruct (decide (k = k')) as [->|Hne].
  - rewrite (not_elem_of_list_to_map_1 _ k') by done.
    by rewrite !lookup_insert_eq.
  - rewrite !lookup_insert_ne by done. done.
Qed.

(** ** The invariant of the systems that [putPost] calls lead to *)

Lemma run_snoc S acts a : run S (acts ++ [a]) = (step (run S acts) a).1.
Proof. unfold run. by rewrite foldl_app. Qed.

Section invariant.
Variable P : Post -> Prop.
Hypothesis P_is_post : forall post, P post -> is_post post.

Lemma invariant_initial : invariant P initial.
Proof.
  split; [|split].
  - intros k v Hk. cbn in Hk. by rewrite lookup_empty in Hk.
  - constructor.
  - constructor.
Qed.

Lemma pending_ok_locks w held p :
  locks w ⊆ held ->
  pending_ok P w p -> pending_ok P {| store := store w; locks := held |} p.
Proof.
  intros Hsub (HP & Hl & Hp). split; [done|]. split; [by apply Hsub|].
  by destruct p.
Qed.

(** The other calls in flight have other keys. *)
Lemma other_pending_keys (l : list Pending) i p p' :
  NoDup (pending_key <$> l) ->
  l !! i = Some p -> p' ∈ delete i l ->
  pending_key p' <> pending_key p.
Proof.
  intros Hnd Hi Hin Heq.
  rewrite <- (take_drop_middle l i p Hi) in Hnd.
  rewrite delete_take_drop in Hin.
  rewrite fmap_app, fmap_cons in Hnd.
  apply NoDup_app in Hnd as (_ & Hnd1 & Hnd2).
  apply NoDup_cons in Hnd2 as [Hnd2 _].
  apply elem_of_app in Hin as [Hin|Hin].
  - eapply (Hnd1 (pending_key p')).
    + by apply list_elem_of_fmap_2.
    + rewrite Heq. left.
  - apply Hnd2. rewrite <- Heq. by apply list_elem_of_fmap_2.
Qed.

Lemma invariant_delete w l i :
  Forall (pending_ok P w) l ->
  NoDup (pending_key <$> l) ->
  Forall (pending_ok P w) (delete i l)
  /\ NoDup (pending_key <$> delete i l).
Proof.
  intros Hf Hnd. split; [by apply Forall_delete|].
  rewrite list_fmap_delete. eapply sublist_NoDup; [exact Hnd|]. apply sublist_delete.
Qed.

(** The store after the batch of a post whose primary key was free. *)
Lemma consistent_batch st post ops :
  P post -> encodeBatch (batch post) = Some ops ->
  (forall k, keyEncoding.encode (postKey post) = Some k -> st !! k = None) ->
  consistent P st -> consistent P (store_batch st None ops).1.
Proof.
  intros HP Hops Hfree Hst k v.
  assert (Hnd := records_distinct post ops (P_is_post _ HP) Hops).
  assert (Hnew : Forall (fun op => (store_batch st None ops).1 !! op.1 = Some op.2) ops).
  { apply Forall_forall. intros [k' v'] Hin. cbn [fst snd].
    rewrite store_batch_lookup by done.
    by rewrite (elem_of_list_to_map_1 _ _ _ Hnd Hin). }
  rewrite store_batch_lookup by done.
  destruct (list_to_map ops !! k) as [v'|] eqn:Hk.
  - intros [= ->]. apply elem_of_list_to_map_2 in Hk.
    exists post, ops. done.
  - intros Hv. destruct (Hst k v Hv) as (q & opsq & HQ & Hopsq & Hin & Hall).
    exists q, opsq. repeat split; [done..|].
    apply Forall_forall. intros oq Hoq.
    rewrite Forall_forall in Hall. rewrite store_batch_lookup by done.
    destruct (list_to_map ops !! oq.1) as [v'|] eqn:Hc; [|by apply Hall].
    exfalso. apply elem_of_list_to_map_2 in Hc.
    assert (Hslug : slug post = slug q).
    { eapply (records_collide post q ops opsq (oq.1, v') oq); eauto. }
    destruct (records_primary q opsq Hopsq) as (kq & Hkq & Hinq).
    assert (Hkp : keyEncoding.encode (postKey post) = Some kq).
    { unfold postKey in *. by rewrite Hslug. }
    specialize (Hall _ Hinq). cbn in Hall.
    rewrite (Hfree kq Hkp) in Hall. done.
Qed.

Lemma batch_keeps_other_key_free st p q ops k :
  P p -> P q -> encodeBatch (batch p) = Some ops ->
  postKey q <> postKey p ->
  keyEncoding.encode (postKey q) = Some k ->
  st !! k = None -> (store_batch st None ops).1 !! k = None.
Proof.
  intros Hp Hq Hops Hne Hk Hfree.
  assert (Hnd := records_distinct p ops (P_is_post _ Hp) Hops).
  rewrite store_batch_lookup by done.
  destruct (list_to_map ops !! k) as [v|] eqn:Hc; [|done].
  exfalso. apply elem_of_list_to_map_2 in Hc.
  apply Hne. unfold postKey. f_equal. f_equal. symmetry.
  destruct (encodeBatch (batch q)) as [opsq|] eqn:Hopsq.
  - destruct (records_primary q opsq Hopsq) as (kq & Hkq & Hinq).
    assert (kq = k) by congruence. subst kq.
    eapply (records_collide p q ops opsq (k, v) (k, VPost q)); eauto.
  - (* the other records of [q] need not encode; compare the primary keys *)
    apply encodeBatch_batch in Hops as (kb & kd & kp & Eb & Ed & Ep & ->).
    destruct (post_keys_strings p (P_is_post _ Hp)) as (Sb & Sd & Sp).
    destruct (post_keys_strings q (P_is_post _ Hq)) as (_ & _ & Sq).
    unfold postKey in *.
    repeat match goal with
           | H : _ ∈ _ :: _ |- _ => apply elem_of_cons in H as [H|H]
           | H : _ ∈ [] |- _ => by apply elem_of_nil in H
           end; injection Hc as -> _;
      match goal with
      | H1 : keyEncoding.encode ?l1 = Some ?k, H2 : keyEncoding.encode ?l2 = Some ?k |- _ =>
          assert (Heq : l1 = l2) by (by apply (encode_inj l1 l2 k))
      end; cbn in Heq; by simplify_eq.
Qed.

Lemma invariant_step S a :
  begins P a -> invariant P S -> invariant P (step S a).1.
Proof.
  intros Ha (Hst & Hpend & Hnd). destruct S as [w l]. cbn [world inflight] in *.
  unfold invariant.
  destruct a as [post | i fault | i fault]; cbn [step world inflight].
  - (* a call begins *)
    unfold putPost_begin. destruct (decide (postKey post ∈ locks w)) as [Hl|Hl].
    { rewrite lock_held by done. done. }
    rewrite lock_free by done.
    assert (Hpend' : Forall (pending_ok P {| store := store w;
                                          locks := {[postKey post]} ∪ locks w |}) l).
    { eapply Forall_impl; [exact Hpend|]. intros p Hp.
      apply pending_ok_locks; [|done]. apply union_subseteq_r. }
    destruct (keyEncoding.encode (postKey post)) as [k|] eqn:Hk;
      cbn [fst world inflight store locks]; [|done].
    split; [done|]. split.
    + apply Forall_app; split; [done|]. constructor; [|constructor].
      split; [exact Ha|]. split; [|done]. cbn. apply elem_of_union_l.
      by apply elem_of_singleton.
    + rewrite fmap_app. apply NoDup_app. split; [done|]. split.
      * intros key Hin Hin'. apply list_elem_of_singleton in Hin'. subst key.
        apply list_elem_of_fmap in Hin as (p & Hp & Hin).
        rewrite Forall_forall in Hpend. destruct (Hpend p Hin) as (_ & Hlp & _).
        apply Hl. change (postKey post = pending_key p) in Hp. by rewrite Hp.
      * cbn. apply NoDup_singleton.
  - (* the existence check answers *)
    destruct (l !! i) as [[req|req]|] eqn:Hi; [|done..].
    assert (Hreq : pending_ok P w (AwaitExists req)).
    { rewrite Forall_forall in Hpend. apply Hpend. by eapply list_elem_of_lookup_2. }
    destruct Hreq as (HP & Hlock & Hkey). cbn in HP, Hlock, Hkey.
    destruct (invariant_delete w l i Hpend Hnd) as [Hd1 Hd2].
    unfold putPost_onExists, store_exists.
    destruct fault as [code|]; [done|].
    destruct (bool_decide (is_Some (store w !! exists_key req))) eqn:Hex; [done|].
    destruct (encodeBatch (batch (exists_post req))) as [ops|] eqn:Hops; [|done].
    cbn. split; [done|]. split.
    + apply Forall_insert; [done|]. split; [done|]. split; [done|]. cbn.
      split; [done|]. intros k Hk. assert (k = exists_key req) by congruence.
      subst k. apply bool_decide_eq_false in Hex.
      destruct (store w !! exists_key req); [|done]. exfalso. apply Hex. eauto.
    + rewrite list_fmap_insert. rewrite list_insert_id; [done|].
      rewrite list_lookup_fmap, Hi. done.
  - (* the batch answers *)
    destruct (l !! i) as [[req|req]|] eqn:Hi; [done| |done].
    assert (Hreq : pending_ok P w (AwaitBatch req)).
    { rewrite Forall_forall in Hpend. apply Hpend. by eapply list_elem_of_lookup_2. }
    destruct Hreq as (HP & Hlock & Hops & Hfree). cbn in HP, Hlock, Hops, Hfree.
    destruct (invariant_delete w l i Hpend Hnd) as [Hd1 Hd2].
    unfold answer_batch, putPost_onBatch.
    destruct (store_batch (store w) fault (batch_ops req)) as [st error] eqn:Hb.
    cbn [world inflight store locks fst].
    assert (Hothers : forall p', p' ∈ delete i l ->
              pending_key p' ∈ unlock (locks w) (postKey (batch_post req))).
    { intros p' Hin. unfold unlock. apply elem_of_difference. split.
      - rewrite Forall_forall in Hd1. by destruct (Hd1 p' Hin) as (_ & ? & _).
      - intros Heq%elem_of_singleton.
        by apply (other_pending_keys l i (AwaitBatch req) p' Hnd Hi Hin). }
    destruct fault as [code|].
    + cbn in Hb; injection Hb as <- <-.
      split; [done|]. split; [|done].
      apply Forall_forall. intros p' Hin. rewrite Forall_forall in Hd1.
      destruct (Hd1 p' Hin) as (HP' & _ & Hp').
      split; [done|]. split; [by apply Hothers|]. by destruct p'.
    + assert (Hst' : st = (store_batch (store w) None (batch_ops req)).1)
        by (by rewrite Hb).
      clear Hb. subst st.
      split; [by apply (consistent_batch _ (batch_post req))|]. split; [|done].
      apply Forall_forall. intros p' Hin. rewrite Forall_forall in Hd1.
      destruct (Hd1 p' Hin) as (HP' & _ & Hp').
      split; [done|]. split; [by apply Hothers|].
      destruct p' as [req'|req']; [done|]. destruct Hp' as [Hops' Hfree'].
      split; [done|]. intros k Hk. cbn [store].
      apply (batch_keeps_other_key_free _ (batch_post req) (batch_post req'));
        eauto.
      by apply (other_pending_keys l i (AwaitBatch req) (AwaitBatch req') Hnd Hi Hin).
Qed.

Lemma invariant_reachable S : reachable_with P S -> invariant P S.
Proof.
  intros (acts & Hacts & <-).
  induction acts as [|a acts IH] using rev_ind; [apply invariant_initial|].
  apply Forall_app in Hacts as [Hacts Ha]. apply Forall_cons in Ha as [Ha _].
  rewrite run_snoc. apply invariant_step; [done|]. by apply IH.
Qed.

End invariant.

(** ** What the store of a reachable system holds *)

Lemma stored_records st post :
  stored st post ->
  exists kb kd kp,
    keyEncoding.encode [str "by"; author post; slug post] = Some kb
    /\ keyEncoding.encode [str "date"; date post; slug post] = Some kd
    /\ keyEncoding.encode (postKey post) = Some kp
    /\ st !! kb = Some (VString (str ""))
    /\ st !! kd = Some (withoutTitle post)
    /\ st !! kp = Some (VPost post).
Proof.
  intros (ops & Hops & Hall).
  apply encodeBatch_batch in Hops as (kb & kd & kp & Eb & Ed & Ep & ->).
  exists kb, kd, kp.
  apply Forall_cons in Hall as [H1 Hall]. apply Forall_cons in Hall as [H2 Hall].
  apply Forall_cons in Hall as [H3 _]. done.
Qed.

Lemma stored_slug_unique st p q :
  stored st p -> stored st q -> slug p = slug q -> p = q.
Proof.
  intros Hp Hq Hs.
  apply stored_records in Hp as (_ & _ & kp & _ & _ & Ep & _ & _ & Hp).
  apply stored_records in Hq as (_ & _ & kq & _ & _ & Eq & _ & _ & Hq).
  unfold postKey in *. rewrite Hs in Ep. congruence.
Qed.

Lemma consistent_entry P st k v :
  (forall post, P post -> is_post post) ->
  consistent P st -> st !! k = Some v ->
  exists post, P post /\ stored st post /\ record_of post k v.
Proof.
  intros HP Hst Hk. destruct (Hst k v Hk) as (post & ops & Hpost & Hops & Hin & Hall).
  exists post. split; [done|]. split; [by exists ops|].
  destruct (post_keys_strings post (HP _ Hpost)) as (Sb & Sd & Sp).
  apply encodeBatch_batch in Hops as (kb & kd & kp & Eb & Ed & Ep & ->).
  unfold record_of.
  repeat match goal with
         | H : _ ∈ _ :: _ |- _ => apply elem_of_cons in H as [H|H]
         | H : _ ∈ [] |- _ => by apply elem_of_nil in H
         end; injection Hin as -> ->.
  - left. split; [done|]. split; [|done]. by apply decode_encode.
  - right; left. split; [done|]. split; [|done]. by apply decode_encode.
  - right; right. split; [done|]. split; [|done]. by apply decode_encode.
Qed.

Lemma scenario_system_world : world scenario_system = scenario.
Proof. vm_compute. reflexivity. Qed.

Lemma is_post_str t d a s x :
  is_post {| title := str t; date := str d; author := str a; slug := str s;
             text := str x |}.
Proof. repeat split; apply is_string_str. Qed.

Lemma reachable_run acts :
  Forall (begins is_post) acts -> reachable (run initial acts).
Proof. intros H. by exists acts. Qed.

Lemma scenario_system_reachable : reachable scenario_system.
Proof.
  apply reachable_run.
  repeat (apply Forall_cons_2; [first [exact I | apply is_post_str]|]).
  apply Forall_nil_2.
Qed.

(** In a consistent store, the index records for the slug of a stored
    post are records of that post. *)
Lemma index_record_of_stored st post ns k v :
  consistent is_post st -> stored st post ->
  index_record st ns (slug post) k v -> record_of post k v.
Proof.
  intros Hst Hpost (Hk & x & Hd).
  destruct (consistent_entry is_post st k v (fun _ H => H) Hst Hk)
    as (q & _ & Hq & Hrec).
  assert (slug q = slug post).
  { unfold postKey in Hrec.
    destruct Hrec as [(_ & Hd' & _) | [(_ & Hd' & _) | (_ & Hd' & _)]];
      rewrite Hd in Hd'; by simplify_eq. }
  by rewrite <- (stored_slug_unique st q post).
Qed.

Lemma by_index_unique st post kb k v :
  consistent is_post st -> is_post post -> stored st post ->
  keyEncoding.encode [str "by"; author post; slug post] = Some kb ->
  index_record st (str "by") (slug post) k v <-> k = kb /\ v = VString (str "").
Proof.
  intros Hst Hok Hpost Eb. split.
  - intros Hi. assert (Hi' := Hi). destruct Hi' as (_ & x & Hx).
    apply index_record_of_stored in Hi; [|done..]. unfold postKey in Hi.
    destruct Hi as [(Ek & _ & ->) | [(_ & Hd & _) | (_ & Hd & _)]];
      [split; congruence | rewrite Hx in Hd; cbn in Hd; by simplify_eq..].
  - intros [-> ->].
    destruct (stored_records st post Hpost) as (kb' & _ & _ & Eb' & _ & _ & Hb & _).
    assert (kb' = kb) by congruence. subst kb'.
    split; [done|]. exists (author post).
    apply decode_encode; [done| |done]. by destruct (post_keys_strings post).
Qed.

Lemma date_index_unique st post kd k v :
  consistent is_post st -> is_post post -> stored st post ->
  keyEncoding.encode [str "date"; date post; slug post] = Some kd ->
  index_record st (str "date") (slug post) k v <-> k = kd /\ v = withoutTitle post.
Proof.
  intros Hst Hok Hpost Ed. split.
  - intros Hi. assert (Hi' := Hi). destruct Hi' as (_ & x & Hx).
    apply index_record_of_stored in Hi; [|done..]. unfold postKey in Hi.
    destruct Hi as [(_ & Hd & _) | [(Ek & _ & ->) | (_ & Hd & _)]];
      [rewrite Hx in Hd; cbn in Hd; by simplify_eq | split; congruence
      | rewrite Hx in Hd; cbn in Hd; by simplify_eq].
  - intros [-> ->].
    destruct (stored_records st post Hpost) as (_ & kd' & _ & _ & Ed' & _ & _ & Hd & _).
    assert (kd' = kd) by congruence. subst kd'.
    split; [done|]. exists (date post).
    apply decode_encode; [done| |done]. by destruct (post_keys_strings post) as (_ & ? & _).
Qed.

(** ** C4: the indexes and the primary records *)

(** C4: in every store reachable by writes through [putPost], every
    primary record is the full post that a point read of its key returns,
    and has exactly one by-author and exactly one date index record, with
    the key and the value derived from the post; every index record has
    its primary record; and the store holds nothing else. *)
Theorem putPost_keeps_indexes (S : System) :
  reachable S ->
  let st := store (world S) in
  (forall k v s,
      st !! k = Some v -> keyEncoding.decode k = Some [str "posts"; s] ->
      exists post kb kd,
        v = VPost post /\ slug post = s
        /\ level_get st healthy [str "posts"; s] = Returned (VPost post)
        /\ keyEncoding.encode [str "by"; author post; slug post] = Some kb
        /\ (forall k' v', index_record st (str "by") s k' v'
                          <-> k' = kb /\ v' = VString (str ""))
        /\ keyEncoding.encode [str "date"; date post; slug post] = Some kd
        /\ (forall k' v', index_record st (str "date") s k' v'
                          <-> k' = kd /\ v' = withoutTitle post))
  /\ (forall k v ns x s,
         st !! k = Some v -> keyEncoding.decode k = Some [ns; x; s] ->
         exists post kp,
           slug post = s /\ keyEncoding.encode [str "posts"; s] = Some kp
           /\ st !! kp = Some (VPost post))
  /\ (forall k v, st !! k = Some v ->
                  exists post, stored st post /\ record_of post k v).
Proof.
  intros HS st.
  destruct (invariant_reachable is_post (fun _ H => H) S HS) as (Hst & _ & _).
  fold st in Hst.
  assert (Hentry : forall k v, st !! k = Some v ->
            exists post, is_post post /\ stored st post /\ record_of post k v).
  { intros k v Hk. by apply (consistent_entry is_post). }
  split; [|split].
  - intros k v s Hk Hd. destruct (Hentry k v Hk) as (post & Hok & Hpost & Hrec).
    unfold postKey in Hrec.
    destruct Hrec as [(_ & Hd' & _) | [(_ & Hd' & _) | (Ek & Hd' & ->)]];
      rewrite Hd in Hd'; simplify_eq.
    destruct (stored_records st post Hpost)
      as (kb & kd & kp & Eb & Ed & Ep & Hb & Hdd & Hp).
    injection Hd' as ->.
    exists post, kb, kd. unfold postKey in *.
    split; [done|]. split; [done|]. split.
    { unfold level_get. rewrite Ep. cbn. by rewrite Hp. }
    split; [done|]. split; [|split; [done|]].
    + intros k' v'. by apply by_index_unique.
    + intros k' v'. by apply date_index_unique.
  - intros k v ns x s Hk Hd. destruct (Hentry k v Hk) as (post & Hok & Hpost & Hrec).
    destruct (stored_records st post Hpost)
      as (kb & kd & kp & Eb & Ed & Ep & Hb & Hdd & Hp).
    exists post, kp. unfold postKey in *.
    destruct Hrec as [(_ & Hd' & _) | [(_ & Hd' & _) | (_ & Hd' & _)]];
      rewrite Hd in Hd'; by simplify_eq.
  - intros k v Hk. destruct (Hentry k v Hk) as (post & _ & ? & ?). eauto.
Qed.

Lemma putPost_keeps_indexes_witness :
  let st := store (world scenario_system) in
  (forall k v s,
      st !! k = Some v -> keyEncoding.decode k = Some [str "posts"; s] ->
      exists post kb kd,
        v = VPost post /\ slug post = s
        /\ level_get st healthy [str "posts"; s] = Returned (VPost post)
        /\ keyEncoding.encode [str "by"; author post; slug post] = Some kb
        /\ (forall k' v', index_record st (str "by") s k' v'
                          <-> k' = kb /\ v' = VString (str ""))
        /\ keyEncoding.encode [str "date"; date post; slug post] = Some kd
        /\ (forall k' v', index_record st (str "date") s k' v'
                          <-> k' = kd /\ v' = withoutTitle post))
  /\ (forall k v ns x s,
         st !! k = Some v -> keyEncoding.decode k = Some [ns; x; s] ->
         exists post kp,
           slug post = s /\ keyEncoding.encode [str "posts"; s] = Some kp
           /\ st !! kp = Some (VPost post))
  /\ (forall k v, st !! k = Some v ->
                  exists post, stored st post /\ record_of post k v).
Proof. exact (putPost_keeps_indexes scenario_system scenario_system_reachable). Defined.

(** ** Range scans *)

#[local] Instance key_le_total : Total key_le.
Proof.
  intros a b. unfold key_le.
  destruct (str_leb_total a.1 b.1) as [H|H]; [left|right]; by rewrite H.
Qed.

#[local] Instance key_le_trans : Transitive key_le.
Proof.
  intros a b c. unfold key_le. rewrite !Is_true_true. apply str_leb_trans.
Qed.

Lemma StronglySorted_sublist {A} (R : relation A) l1 l2 :
  l1 `sublist_of` l2 -> StronglySorted R l2 -> StronglySorted R l1.
Proof.
  induction 1 as [|x l1 l2 Hsub IH|x l1 l2 Hsub IH]; intros Hs; [done|..].
  - apply StronglySorted_inv in Hs as [Hs Hx]. constructor; [by apply IH|].
    rewrite Forall_forall in *. intros y Hy. apply Hx.
    by eapply elem_of_sublist.
  - apply StronglySorted_inv in Hs as [Hs _]. by apply IH.
Qed.

Lemma StronglySorted_rev {A} (R : relation A) l :
  StronglySorted R l -> StronglySorted (flip R) (rev l).
Proof.
  induction 1 as [|x l Hs IH Hx]; [constructor|]. cbn [rev].
  apply StronglySorted_app_2; [|done|repeat constructor].
  intros y z Hy Hz. apply list_elem_of_singleton in Hz as ->.
  rewrite list_elem_of_In, <- in_rev, <- list_elem_of_In in Hy.
  rewrite Forall_forall in Hx. by apply Hx.
Qed.

Lemma StronglySorted_Forall2 {A B} (R : relation A) (R' : relation B)
    (T : A -> B -> Prop) l k :
  Forall2 T l k ->
  (forall a b a' b', T a a' -> T b b' -> R a b -> R' a' b') ->
  StronglySorted R l -> StronglySorted R' k.
Proof.
  intros HT HR. induction HT as [|a a' l k Ha HT IH]; intros Hs; [constructor|].
  apply StronglySorted_inv in Hs as [Hs Hx]. constructor; [by apply IH|].
  apply Forall_forall. intros b' Hb'.
  apply list_elem_of_lookup in Hb' as [i Hi].
  destruct (Forall2_lookup_r _ _ _ _ _ HT Hi) as (b & Hb & Hbb').
  rewrite Forall_forall in Hx. eapply HR; eauto.
  apply Hx. by eapply list_elem_of_lookup_2.
Qed.

(** The entries of the store, each once, in strictly ascending key order. *)
Lemma elem_of_entries st k v : (k, v) ∈ entries st <-> st !! k = Some v.
Proof.
  unfold entries. rewrite merge_sort_Permutation. apply elem_of_map_to_list.
Qed.

Lemma entries_sorted st :
  StronglySorted (fun a b => str_ltb a.1 b.1 = true) (entries st).
Proof.
  assert (Hs : StronglySorted key_le (entries st))
    by apply (StronglySorted_merge_sort _).
  assert (Hnd : NoDup (entries st).*1).
  { unfold entries. rewrite merge_sort_Permutation. apply NoDup_fst_map_to_list. }
  induction Hs as [|a l Hs IH Ha]; [constructor|].
  rewrite fmap_cons in Hnd. apply NoDup_cons in Hnd as [Hna Hnd].
  constructor; [by apply IH|].
  apply Forall_forall. intros b Hb. rewrite Forall_forall in Ha.
  specialize (Ha b Hb). unfold key_le, str_leb in Ha.
  apply Is_true_true, negb_true_iff in Ha.
  destruct (str_ltb a.1 b.1) eqn:Hab; [done|].
  exfalso. apply Hna. rewrite (str_ltb_connex a.1 b.1) by done.
  by apply list_elem_of_fmap_2.
Qed.

(** The scan without a limit, in ascending order. *)
Lemma elem_of_scan st lo hi k v :
  (k, v) ∈ scan st lo hi None false
  <-> st !! k = Some v /\ str_leb lo k = true /\ str_leb k hi = true.
Proof.
  unfold scan. rewrite list_elem_of_filter, elem_of_entries.
  unfold in_range. cbn [fst]. rewrite Is_true_true, andb_true_iff. tauto.
Qed.

Lemma scan_sorted st lo hi :
  StronglySorted (fun a b => str_ltb a.1 b.1 = true) (scan st lo hi None false).
Proof.
  unfold scan. eapply StronglySorted_sublist; [apply sublist_filter|].
  apply entries_sorted.
Qed.

(** The limited scan in descending order is the beginning of the reversed
    ascending scan. *)
Lemma scan_reverse_limit st lo hi n :
  scan st lo hi (Some n) true = take n (rev (scan st lo hi None false)).
Proof. reflexivity. Qed.

Lemma scan_length st lo hi n rev : (length (scan st lo hi (Some n) rev) <= n)%nat.
Proof. unfold scan. rewrite length_take. lia. Qed.

(** *** The keys between a prefix and the prefix followed by ["~"] *)

Lemma str_leb_nil a : str_leb [] a = true.
Proof. by destruct a. Qed.

Lemma str_leb_cons x a y b :
  str_leb (x :: a) (y :: b) = if x <? y then true else if y <? x then false else str_leb a b.
Proof.
  unfold str_leb. rewrite str_ltb_cons.
  by destruct (N.ltb_spec y x), (N.ltb_spec x y); try lia.
Qed.

Lemma str_leb_app p a b : str_leb (p ++ a) (p ++ b) = str_leb a b.
Proof. unfold str_leb. by rewrite str_ltb_app. Qed.

Lemma between_prefix p k :
  str_leb p k = true -> str_leb k (p ++ [tilde]) = true ->
  exists r, k = p ++ r /\ str_leb r [tilde] = true.
Proof.
  revert k. induction p as [|c p IH]; intros k H1 H2; [by exists k|].
  destruct k as [|d k]; [done|]. cbn [app] in H2.
  rewrite str_leb_cons in H1, H2.
  destruct (N.ltb_spec c d), (N.ltb_spec d c); try done; try lia.
  assert (d = c) by lia. subst d.
  destruct (IH k H1 H2) as (r & -> & Hr). by exists r.
Qed.

Lemma prefix_between p r :
  str_leb r [tilde] = true ->
  str_leb p (p ++ r) = true /\ str_leb (p ++ r) (p ++ [tilde]) = true.
Proof.
  intros Hr. split.
  - rewrite <- (app_nil_r p) at 1. rewrite str_leb_app. apply str_leb_nil.
  - by rewrite str_leb_app.
Qed.

(** A string of encoded code units is at most ["~"] unless it is ["~"]
    followed by more. *)
Lemma uriChars_leb_tilde e :
  Forall uriChar e ->
  (e = [tilde] \/ head e <> Some tilde) -> str_leb e [tilde] = true.
Proof.
  intros He [->|Hh]; [done|]. destruct e as [|c e]; [done|].
  apply Forall_cons in He as [Hc _]. apply uriChar_bounds in Hc as (_ & Hc & _).
  assert (c <> tilde) by (intros ->; by apply Hh). unfold tilde in *.
  unfold str_leb. change [126] with (126 :: []). rewrite str_ltb_cons.
  by destruct (N.ltb_spec 126 c), (N.ltb_spec c 126); try lia.
Qed.

(** *** The shape of encoded keys *)

Lemma encode_two a b k :
  keyEncoding.encode [a; b] = Some k <->
  exists ea eb, encodeURIComponent a = Some ea /\ encodeURIComponent b = Some eb
                /\ k = ea ++ slash :: eb.
Proof.
  unfold keyEncoding.encode. cbn [mapM].
  destruct (encodeURIComponent a) as [ea|], (encodeURIComponent b) as [eb|];
    cbn; split; try done; try (intros (? & ? & ? & ? & ?); done).
  - intros [= <-]. by exists ea, eb.
  - intros (? & ? & [= <-] & [= <-] & ->). done.
Qed.

Lemma encode_three a b c k :
  keyEncoding.encode [a; b; c] = Some k <->
  exists ea eb ec,
    encodeURIComponent a = Some ea /\ encodeURIComponent b = Some eb
    /\ encodeURIComponent c = Some ec /\ k = ea ++ slash :: eb ++ slash :: ec.
Proof.
  unfold keyEncoding.encode. cbn [mapM].
  destruct (encodeURIComponent a) as [ea|], (encodeURIComponent b) as [eb|],
    (encodeURIComponent c) as [ec|];
    cbn; split; try done; try (intros (? & ? & ? & ? & ? & ? & ?); done).
  - intros [= <-]. by exists ea, eb, ec.
  - intros (? & ? & ? & [= <-] & [= <-] & [= <-] & ->). done.
Qed.

Lemma first_slash x y x' y' :
  slash ∉ x -> slash ∉ x' ->
  x ++ slash :: y = x' ++ slash :: y' -> x = x' /\ y = y'.
Proof.
  revert x'. induction x as [|c x IH]; intros [|c' x'] Hx Hx' Heq.
  - by injection Heq as ->.
  - injection Heq as <- _. exfalso. apply Hx'. left.
  - injection Heq as -> _. exfalso. apply Hx. left.
  - injection Heq as -> Heq.
    destruct (IH x') as [-> ->]; [..|done|done].
    + intros ?. apply Hx. by right.
    + intros ?. apply Hx'. by right.
Qed.

Lemma encoded_no_slash s e :
  is_string s -> encodeURIComponent s = Some e -> slash ∉ e.
Proof. intros Hs He. eapply uriChars_no_slash, encodeURIComponent_chars; eauto. Qed.

(** *** The scan of [postsBy] *)

Section postsBy_scan.
Variable st : Store.
Variable name en : jsstring.
Hypothesis st_consistent : consistent is_post st.
Hypothesis name_string : is_string name.
Hypothesis name_encoded : encodeURIComponent name = Some en.

Lemma by_prefix_app e r :
  by_prefix e ++ r = str "by" ++ slash :: e ++ slash :: r.
Proof.
  unfold by_prefix. rewrite <- app_assoc. cbn [app].
  by rewrite <- app_assoc.
Qed.

Lemma postsBy_bounds :
  keyEncoding.encode [str "by"; name; str ""] = Some (by_prefix en)
  /\ keyEncoding.encode [str "by"; name; str "~"] = Some (by_prefix en ++ [tilde]).
Proof.
  split; apply encode_three.
  - exists (str "by"), en, []. by split; [|split; [|split]].
  - exists (str "by"), en, [tilde]. split; [done|]. split; [done|]. split; [done|].
    apply by_prefix_app.
Qed.

Lemma by_record_key post k :
  is_post post -> author post = name ->
  keyEncoding.encode [str "by"; author post; slug post] = Some k ->
  exists es, encodeURIComponent (slug post) = Some es /\ k = by_prefix en ++ es.
Proof.
  intros Hok Ha Hk. apply encode_three in Hk as (ea & eb & ec & Ea & Eb & Ec & ->).
  rewrite Ha, name_encoded in Eb. injection Eb as <-.
  injection Ea as <-. exists ec. split; [done|].
  by rewrite by_prefix_app.
Qed.

Lemma scan_by_entry k v :
  (k, v) ∈ scan st (by_prefix en) (by_prefix en ++ [tilde]) None false ->
  exists post, by_entry st name en (k, v) post.
Proof.
  intros (Hk & Hlo & Hhi)%elem_of_scan.
  destruct (between_prefix _ _ Hlo Hhi) as (r & -> & Hr).
  destruct (consistent_entry is_post st _ v (fun _ H => H) st_consistent Hk)
    as (post & Hok & Hpost & Hrec).
  destruct (post_keys_strings post Hok) as (Sb & Sd & Sp).
  exists post. unfold postKey in Hrec.
  destruct Hrec as [(Ek & _ & ->) | [(Ek & _ & _) | (Ek & _ & _)]].
  - apply encode_three in Ek as (ea & eb & ec & Ea & Eb & Ec & Heq).
    injection Ea as <-. rewrite by_prefix_app in Heq.
    apply app_inv_head in Heq.
    injection Heq as Heq.
    assert (Hok' := Hok). destruct Hok' as (_ & _ & Hauthor & Hslug & _).
    apply first_slash in Heq as [Hen Hr'];
      [|by apply (encoded_no_slash name)|by apply (encoded_no_slash (author post))].
    subst eb ec.
    assert (author post = name)
      by (by apply (encodeURIComponent_inj _ _ en)).
    split; [done|]. split; [done|]. split; [done|].
    exists r. done.
  - apply encode_three in Ek as (ea & eb & ec & Ea & Eb & Ec & Heq).
    injection Ea as <-. by vm_compute in Heq.
  - apply encode_two in Ek as (ea & eb & Ea & Eb & Heq).
    injection Ea as <-. by vm_compute in Heq.
Qed.

Lemma by_entry_scan e post :
  by_entry st name en e post ->
  e ∈ scan st (by_prefix en) (by_prefix en ++ [tilde]) None false.
Proof.
  intros (Hok & Hpost & Ha & es & Es & Hes & ->).
  apply elem_of_scan.
  destruct (prefix_between (by_prefix en) es Hes) as [H1 H2].
  split; [|done].
  destruct (stored_records st post Hpost) as (kb & _ & _ & Eb & _ & _ & Hb & _).
  destruct (by_record_key post kb Hok Ha Eb) as (es' & Es' & ->).
  congruence.
Qed.

(** What the stream and the point reads make of the entries. *)
Lemma by_entry_emit opts e post :
  keys opts = true -> values opts = false ->
  by_entry st name en e post -> emit opts e = Some (DKey [str "by"; name; slug post]).
Proof.
  intros Hkeys Hvals (Hok & Hpost & Ha & es & Es & Hes & ->).
  unfold emit. rewrite Hkeys, Hvals. cbn [fst snd].
  destruct (post_keys_strings post Hok) as (Sb & _ & _).
  rewrite (decode_encode [str "by"; name; slug post]); [done..| |].
  - by rewrite <- Ha.
  - apply encode_three. exists (str "by"), en, es.
    split; [done|]. split; [done|]. split; [done|]. apply by_prefix_app.
Qed.

Lemma by_entry_get e post :
  by_entry st name en e post ->
  level_get st healthy [str "posts"; slug post] = Returned (VPost post).
Proof.
  intros (Hok & Hpost & _).
  destruct (stored_records st post Hpost) as (_ & _ & kp & _ & _ & Ep & _ & _ & Hp).
  unfold level_get, postKey in *. rewrite Ep. cbn. by rewrite Hp.
Qed.

End postsBy_scan.

Lemma async_map_Returned {A B} (f : A -> Outcome B) l k :
  Forall2 (fun x y => f x = Returned y) l k -> async_map f l = Returned k.
Proof.
  induction 1 as [|x y l k Hx _ IH]; [done|].
  cbn [async_map]. by rewrite Hx, IH.
Qed.

Lemma stored_is_post st post :
  consistent is_post st -> stored st post -> is_post post.
Proof.
  intros Hst Hpost.
  destruct (stored_records st post Hpost) as (_ & _ & kp & _ & _ & _ & _ & _ & Hp).
  destruct (consistent_entry is_post st kp _ (fun _ H => H) Hst Hp)
    as (q & Hq & _ & Hrec).
  destruct Hrec as [(_ & _ & ?) | [(_ & _ & ?) | (_ & _ & ?)]]; try done.
  by simplify_eq.
Qed.

(** *** Slugs and the sentinel ["~"] *)

Lemma pctEncode_octets_head os t :
  os <> [] -> head (flat_map pctEncode os ++ t) = Some 37.
Proof. by destruct os. Qed.

Lemma utf8Encode_nonempty cp : utf8Encode cp <> [].
Proof.
  unfold utf8Encode.
  by repeat match goal with |- context [?a <? ?b] => destruct (a <? b) end.
Qed.

Lemma encodeURIComponent_head s es :
  encodeURIComponent s = Some es -> head s <> Some tilde -> head es <> Some tilde.
Proof.
  destruct s as [|c s]; [by intros [= <-]|]. cbn [encodeURIComponent head].
  intros He Hc.
  destruct (uriUnescaped c).
  { destruct (encodeURIComponent s); [|done]. by injection He as <-. }
  destruct (isLeadSurrogate c).
  - destruct s as [|d s]; [done|]. destruct (isTrailSurrogate d); [|done].
    destruct (encodeURIComponent s); [|done]. injection He as <-.
    by rewrite pctEncode_octets_head by apply utf8Encode_nonempty.
  - destruct (isTrailSurrogate c); [done|].
    destruct (encodeURIComponent s); [|done]. injection He as <-.
    by rewrite pctEncode_octets_head by apply utf8Encode_nonempty.
Qed.

Lemma before_sentinel_encoded s es :
  is_string s -> encodeURIComponent s = Some es ->
  before_sentinel s -> str_leb es [tilde] = true.
Proof.
  intros Hs He Hb. apply uriChars_leb_tilde.
  - by eapply encodeURIComponent_chars.
  - destruct Hb as [->|Hh].
    + left. by injection He as <-.
    + right. by eapply encodeURIComponent_head.
Qed.

(** ** C6: the posts of an author *)

(** C6 (amended): in a store reachable by [putPost], [postsBy] calls back
    with full posts, all of them stored posts of the author; every stored
    post of the author whose slug is ["~"] or does not begin with ["~"] is
    among them; and they come in ascending order of their encoded slugs. *)
Theorem postsBy_returns_posts_of_author (S : System) (name : jsstring) :
  reachable S -> is_string name -> is_Some (encodeURIComponent name) ->
  exists ps,
    postsBy (store (world S)) healthy name = Returned (VPost <$> ps)
    /\ (forall post, post ∈ ps ->
                     stored (store (world S)) post /\ author post = name)
    /\ (forall post, stored (store (world S)) post -> author post = name ->
                     before_sentinel (slug post) -> post ∈ ps)
    /\ StronglySorted slug_lt ps.
Proof.
  intros HS Hname [en Hen].
  destruct (invariant_reachable is_post (fun _ H => H) S HS) as (Hst & _ & _).
  set (st := store (world S)) in *.
  set (l := scan st (by_prefix en) (by_prefix en ++ [tilde]) None false).
  assert (Hl : Forall (fun e => exists post, by_entry st name en e post) l).
  { apply Forall_forall. intros [k v] Hin. by apply scan_by_entry. }
  apply Forall_exists_Forall2_l in Hl as [ps Hps].
  exists ps. split; [|split; [|split]].
  - unfold postsBy, createReadStream. cbn [gte lte limit reverse stream_fault healthy].
    destruct (postsBy_bounds name en Hen) as [-> ->]. fold l.
    replace (mapM _ l) with (Some ((fun p => DKey [str "by"; name; slug p]) <$> ps)).
    2:{ symmetry. apply mapM_Some. apply Forall2_fmap_r.
        eapply Forall2_impl; [exact Hps|]. intros e post He. cbv beta.
        by apply (by_entry_emit st name en). }
    apply async_map_Returned. rewrite <- list_fmap_compose.
    apply Forall2_fmap. eapply Forall2_impl; [apply Forall_Forall2_diag|].
    2:{ cbv beta. intros p p' H. exact H. }
    apply Forall_forall. intros post Hin.
    apply list_elem_of_lookup in Hin as [i Hi].
    destruct (Forall2_lookup_r _ _ _ _ _ Hps Hi) as (e & _ & He).
    cbv beta. by apply (by_entry_get st name en e).
  - intros post Hin. apply list_elem_of_lookup in Hin as [i Hi].
    destruct (Forall2_lookup_r _ _ _ _ _ Hps Hi) as (e & _ & He).
    by destruct He as (_ & ? & ? & _).
  - intros post Hpost Ha Hb.
    assert (Hok := stored_is_post st post Hst Hpost).
    destruct (stored_records st post Hpost) as (kb & _ & _ & Eb & _ & _ & Hkb & _).
    destruct (by_record_key name en Hen post kb Hok Ha Eb) as (es & Es & ->).
    assert (Hentry : by_entry st name en (by_prefix en ++ es, VString (str "")) post).
    { split; [done|]. split; [done|]. split; [done|]. exists es.
      split; [done|]. split; [|done].
      destruct Hok as (_ & _ & _ & Hslug & _).
      by apply (before_sentinel_encoded (slug post)). }
    assert (Hin := by_entry_scan st name en Hen _ _ Hentry). fold l in Hin.
    apply list_elem_of_lookup in Hin as [i Hi].
    destruct (Forall2_lookup_l _ _ _ _ _ Hps Hi) as (q & Hq & Hentry').
    assert (q = post); [|subst q; by eapply list_elem_of_lookup_2].
    destruct Hentry' as (_ & Hq' & _ & es' & Es' & _ & Heq).
    injection Heq as Heq%app_inv_head. subst es'.
    apply (stored_slug_unique st); [done..|].
    destruct Hok as (_ & _ & _ & Hslug & _).
    destruct (stored_is_post st q Hst Hq') as (_ & _ & _ & Hslug' & _).
    by apply (encodeURIComponent_inj _ _ es).
  - eapply StronglySorted_Forall2; [exact Hps| |apply scan_sorted].
    intros a b p q (_ & _ & _ & ea & Ea & _ & ->) (_ & _ & _ & eb & Eb & _ & ->) Hlt.
    cbn [fst] in Hlt. rewrite str_ltb_app in Hlt. by exists ea, eb.
Qed.

Lemma postsBy_returns_posts_of_author_witness :
  exists ps,
    postsBy (store (world scenario_system)) healthy (str "ana")
    = Returned (VPost <$> ps)
    /\ (forall post, post ∈ ps ->
          stored (store (world scenario_system)) post /\ author post = str "ana")
    /\ (forall post, stored (store (world scenario_system)) post ->
          author post = str "ana" -> before_sentinel (slug post) -> post ∈ ps)
    /\ StronglySorted slug_lt ps.
Proof.
  apply (postsBy_returns_posts_of_author scenario_system (str "ana")).
  - apply scenario_system_reachable.
  - apply is_string_str.
  - exists (str "ana"). reflexivity.
Defined.

(** C6, as stated, fails: the posts come in the order of their encoded
    slugs, and [%C3%A9lan] sorts before [zoo] although the slug [zoo] is
    the smaller string. *)
Lemma postsBy_order_is_not_slug_order :
  postsBy (store (series_put (world initial) healthy [zoo; elan]).1)
    healthy (str "ana")
  = Returned [VPost elan; VPost zoo]
  /\ str_ltb (slug zoo) (slug elan) = true.
Proof. split; vm_compute; reflexivity. Qed.

(** ** C9: an index record without its primary record *)

(** C9 (the code departs from the claim): the scan ends at [by/ana/~],
    before the key [by/ana/~x]; the orphan is passed over and the callback
    gets an empty list and no error. *)
Theorem postsBy_skips_orphan_after_sentinel :
  keyEncoding.encode [str "by"; str "ana"; str "~x"] = Some (str "by/ana/~x")
  /\ orphan_store !! str "by/ana/~x" = Some (VString (str ""))
  /\ level_get orphan_store healthy [str "posts"; str "~x"] = Failed NotFoundError
  /\ postsBy orphan_store healthy (str "ana") = Returned [].
Proof. split; [|split; [|split]]; vm_compute; reflexivity. Qed.

(** ** Dates *)

Lemma isDigit_unescaped c : isDigit c = true -> uriUnescaped c = true.
Proof.
  unfold isDigit, uriUnescaped. intros ->. by rewrite !orb_true_r.
Qed.

Lemma isoDate_spec d :
  isoDate d = true ->
  length d = 10%nat /\ Forall (fun c => uriUnescaped c = true) d.
Proof.
  unfold isoDate.
  do 11 (destruct d as [|? d]; try done).
  cbn [forallb]. intros H. b2p. subst. split; [done|].
  repeat (apply Forall_cons_2; [first [by apply isDigit_unescaped | reflexivity]|]).
  apply Forall_nil_2.
Qed.

Lemma encodeURIComponent_unescaped s :
  Forall (fun c => uriUnescaped c = true) s -> encodeURIComponent s = Some s.
Proof.
  induction 1 as [|c s Hc Hs IH]; [done|].
  cbn [encodeURIComponent]. by rewrite Hc, IH.
Qed.

(** Of two strings that begin with components of the same length, the
    smaller one has no greater component. *)
Lemma str_ltb_same_length a b x y :
  length a = length b -> str_ltb (a ++ x) (b ++ y) = true -> str_ltb b a = false.
Proof.
  revert b. induction a as [|c a IH]; intros [|d b] Hlen Hlt; try done.
  cbn [app] in Hlt. rewrite str_ltb_cons in *.
  destruct (N.ltb_spec c d), (N.ltb_spec d c); try done; try lia.
  apply IH; [|done]. by injection Hlen.
Qed.

(** *** The scan of [oldestPosts] *)

Lemma oldestPosts_bounds :
  keyEncoding.encode [str "date"; str ""] = Some date_prefix
  /\ keyEncoding.encode [str "date"; str "~"] = Some (date_prefix ++ [tilde]).
Proof. split; reflexivity. Qed.

Lemma isoPost_is_post post : isoPost post -> is_post post.
Proof. by intros [? _]. Qed.

Lemma scan_date_entry st k v :
  consistent isoPost st ->
  (k, v) ∈ scan st date_prefix (date_prefix ++ [tilde]) None false ->
  exists post, date_entry st (k, v) post.
Proof.
  intros Hst (Hk & Hlo & Hhi)%elem_of_scan.
  destruct (between_prefix _ _ Hlo Hhi) as (r & -> & Hr).
  destruct (consistent_entry isoPost st _ v isoPost_is_post Hst Hk)
    as (post & Hok & Hpost & Hrec).
  exists post. unfold postKey in Hrec.
  destruct Hrec as [(Ek & _ & _) | [(Ek & _ & ->) | (Ek & _ & _)]].
  - apply encode_three in Ek as (ea & eb & ec & Ea & Eb & Ec & Heq).
    injection Ea as <-. by vm_compute in Heq.
  - apply encode_three in Ek as (ea & eb & ec & Ea & Eb & Ec & Heq).
    injection Ea as <-.
    destruct (isoDate_spec _ (proj2 Hok)) as [_ Hd].
    rewrite (encodeURIComponent_unescaped _ Hd) in Eb. injection Eb as <-.
    split; [done|]. split; [done|]. exists ec. f_equal.
    rewrite Heq. unfold date_prefix. by rewrite <- app_assoc.
  - apply encode_two in Ek as (ea & eb & Ea & Eb & Heq).
    injection Ea as <-. by vm_compute in Heq.
Qed.

Lemma date_entries_descend st a b p q :
  date_entry st a p -> date_entry st b q ->
  str_ltb b.1 a.1 = true -> str_leb (date q) (date p) = true.
Proof.
  intros ((_ & Hp) & _ & ep & ->) ((_ & Hq) & _ & eq & ->) Hlt.
  cbn [fst] in Hlt. rewrite str_ltb_app in Hlt.
  unfold str_leb. apply negb_true_iff.
  eapply (str_ltb_same_length _ _ _ _ _ Hlt).
  Unshelve.
  destruct (isoDate_spec _ Hp) as [-> _]. by destruct (isoDate_spec _ Hq) as [-> _].
Qed.

(** ** C3: the newest posts first *)

(** C3, as stated, fails: with dates of different lengths the keys do not
    sort as the dates do ([date/2016-01-15/mid] comes before
    [date/2016-01/jan]), and the reversed scan hands out the dates in
    ascending order. *)
Lemma oldestPosts_order_is_not_date_order :
  oldestPosts (store (series_put (world initial) healthy [january; midJanuary]).1)
    healthy 2
  = Returned [DValue (withoutTitle january); DValue (withoutTitle midJanuary)]
  /\ str_ltb (date january) (date midJanuary) = true.
Proof. split; vm_compute; reflexivity. Qed.

(** C3 (amended): in a store reachable by [putPost] calls on posts whose
    dates have the form [YYYY-MM-DD], [oldestPosts] calls back with at
    most [howMany] entries, each the date-index value of a stored post, in
    descending order of their dates (the newest first); after the three
    posts of the scenario, two entries are asked for and the values of
    [ana-2] and [bob-1] come back, in this order. *)
Theorem oldestPosts_newest_first (S : System) (howMany : nat) :
  reachable_with isoPost S ->
  (exists ps,
      oldestPosts (store (world S)) healthy howMany
      = Returned ((fun post => DValue (withoutTitle post)) <$> ps)
      /\ (length ps <= howMany)%nat
      /\ (forall post, post ∈ ps -> stored (store (world S)) post)
      /\ StronglySorted (fun p q => str_leb (date q) (date p) = true) ps)
  /\ oldestPosts (store scenario) healthy 2
     = Returned [DValue (withoutTitle thirdByAna); DValue (withoutTitle secondByBob)].
Proof.
  intros HS. split; [|by vm_compute].
  destruct (invariant_reachable isoPost isoPost_is_post S HS) as (Hst & _ & _).
  set (st := store (world S)) in *.
  set (l := scan st date_prefix (date_prefix ++ [tilde]) None false).
  set (l' := scan st date_prefix (date_prefix ++ [tilde]) (Some howMany) true).
  assert (Hsub : l' `sublist_of` rev l).
  { unfold l'. rewrite scan_reverse_limit. apply sublist_take. }
  assert (Hl : Forall (fun e => exists post, date_entry st e post) l').
  { apply Forall_forall. intros [k v] Hin. apply scan_date_entry; [done|].
    fold l. apply (elem_of_sublist _ _ _ Hin) in Hsub.
    by rewrite list_elem_of_In, <- in_rev, <- list_elem_of_In in Hsub. }
  apply Forall_exists_Forall2_l in Hl as [ps Hps].
  exists ps. split; [|split; [|split]].
  - unfold oldestPosts, createReadStream.
    cbn [gte lte limit reverse stream_fault healthy].
    destruct oldestPosts_bounds as [-> ->]. fold l'.
    replace (mapM _ l')
      with (Some ((fun post => DValue (withoutTitle post)) <$> ps)); [done|].
    symmetry. apply mapM_Some. apply Forall2_fmap_r.
    eapply Forall2_impl; [exact Hps|]. intros e post (_ & _ & es & ->). done.
  - rewrite <- (Forall2_length _ _ _ Hps). apply scan_length.
  - intros post Hin. apply list_elem_of_lookup in Hin as [i Hi].
    destruct (Forall2_lookup_r _ _ _ _ _ Hps Hi) as (e & _ & He).
    by destruct He as (_ & ? & _).
  - eapply StronglySorted_Forall2; [exact Hps| |].
    + intros a b p q Ha Hb Hlt. exact (date_entries_descend st a b p q Ha Hb Hlt).
    + eapply StronglySorted_sublist; [exact Hsub|].
      apply StronglySorted_rev, scan_sorted.
Qed.

Lemma isoPost_str t d a s x :
  isoDate (str d) = true ->
  isoPost {| title := str t; date := str d; author := str a; slug := str s;
             text := str x |}.
Proof. intros H. split; [apply is_post_str | exact H]. Qed.

Lemma oldestPosts_newest_first_witness :
  (exists ps,
      oldestPosts (store (world scenario_system)) healthy 2
      = Returned ((fun post => DValue (withoutTitle post)) <$> ps)
      /\ (length ps <= 2)%nat
      /\ (forall post, post ∈ ps -> stored (store (world scenario_system)) post)
      /\ StronglySorted (fun p q => str_leb (date q) (date p) = true) ps)
  /\ oldestPosts (store scenario) healthy 2
     = Returned [DValue (withoutTitle thirdByAna); DValue (withoutTitle secondByBob)].
Proof.
  apply (oldestPosts_newest_first scenario_system 2).
  exists scenario_actions. split; [|reflexivity].
  repeat (apply Forall_cons_2;
          [first [exact I | apply isoPost_str; reflexivity]|]).
  apply Forall_nil_2.
Defined.

(** *** Orphans within the bounds of the scan *)

Lemma async_map_fails {A B} (P : Error -> Prop) (f : A -> Outcome B) l x :
  (forall a, a ∈ l -> (exists b, f a = Returned b)
                      \/ (exists e, P e /\ f a = Failed e)) ->
  x ∈ l -> (forall b, f x <> Returned b) ->
  exists e, P e /\ async_map f l = Failed e.
Proof.
  intros Hall Hin Hx. induction l as [|a l IH]; [by apply elem_of_nil in Hin|].
  cbn [async_map].
  destruct (Hall a) as [[b Hb] | (e & He & Hfa)]; [left| |].
  - rewrite Hb. apply elem_of_cons in Hin as [->|Hin]; [by destruct (Hx b)|].
    destruct IH as (e & He & ->); [|done|by exists e].
    intros a' Ha'. apply Hall. by right.
  - rewrite Hfa. exists e. split; [done|].
    assert (Hrest : (exists bs, async_map f l = Returned bs)
                    \/ exists e', async_map f l = Failed e').
    { clear -Hall. induction l as [|a' l IH]; [left; by exists []|].
      cbn [async_map].
      destruct IH as [[bs ->] | [e' ->]].
      { intros a'' Ha''. apply Hall. apply elem_of_cons in Ha'' as [->|Ha''].
        - left.
        - right. by right. }
      + destruct (Hall a') as [[b ->] | (e' & _ & ->)]; [right; left|..].
        * left. by eexists.
        * right. by eexists.
      + destruct (Hall a') as [[b ->] | (e'' & _ & ->)]; [right; left|..];
          right; by eexists. }
    by destruct Hrest as [[bs ->] | [e' ->]].
Qed.

Lemma mapM_Some_member {A B} (f : A -> option B) l k x :
  mapM f l = Some k -> x ∈ l -> is_Some (f x).
Proof.
  intros Hk%mapM_Some Hin. apply list_elem_of_lookup in Hin as [i Hi].
  destruct (Forall2_lookup_l _ _ _ _ _ Hk Hi) as (y & _ & Hy). by exists y.
Qed.

(** The point read of [postsBy] for a slug that comes from a key written
    through the codec. *)
Lemma getPost_answers st io key :
  is_Some (keyEncoding.encode key) ->
  (exists v, level_get st io [str "posts"; toString (key !! 2%nat)] = Returned v)
  \/ (exists e, level_get st io [str "posts"; toString (key !! 2%nat)] = Failed e)
  /\ (get_fault io [str "posts"; toString (key !! 2%nat)] = None ->
      level_get st io [str "posts"; toString (key !! 2%nat)] = Failed NotFoundError).
Proof.
  intros [k Hk].
  assert (Hslug : is_Some (encodeURIComponent (toString (key !! 2%nat)))).
  { unfold keyEncoding.encode in Hk.
    destruct (mapM encodeURIComponent key) as [es|] eqn:Hes; [|done].
    destruct (key !! 2%nat) as [s|] eqn:Hs; [|by eexists].
    eapply mapM_Some_member; [exact Hes|]. by eapply list_elem_of_lookup_2. }
  destruct Hslug as [e He]. unfold level_get.
  rewrite (proj2 (encode_two (str "posts") _ (str "posts" ++ slash :: e)))
    by (by exists (str "posts"), e).
  destruct (get_fault io _) as [code|].
  - right. split; [by eexists|done].
  - destruct (st !! _) as [v|]; [left; by eexists|right]. split; [by eexists|done].
Qed.

(** X1: in a store whose keys were all written through the key codec:
    where the by-author index has a record for a slug that is ["~"] or
    does not begin with ["~"], and the primary record of the slug is
    missing, [postsBy] for that author calls back once, with an error,
    whatever the store answers; where the store answers every request,
    the error is the not-found error of the point read. *)
Theorem postsBy_reports_orphan_within_bounds
    (st : Store) (io : Faults) (name s : jsstring) (k kp : jsstring) (v : Value) :
  codec_keys st ->
  is_string name -> is_string s ->
  keyEncoding.encode [str "by"; name; s] = Some k -> st !! k = Some v ->
  keyEncoding.encode [str "posts"; s] = Some kp -> st !! kp = None ->
  before_sentinel s ->
  (exists error, postsBy st io name = Failed error)
  /\ postsBy st healthy name = Failed NotFoundError.
Proof.
  intros Hst Hname Hs Ek Hk Ekp Hkp Hb.
  assert (Ek' := Ek).
  apply encode_three in Ek' as (ea & en & es & Ea & En & Es & ->).
  injection Ea as <-. rewrite <- by_prefix_app in *.
  set (l := scan st (by_prefix en) (by_prefix en ++ [tilde]) None false).
  assert (Hl : Forall (fun e => exists key, keyEncoding.encode key = Some e.1
                                            /\ keyEncoding.decode e.1 = Some key) l).
  { apply Forall_forall. intros [k' v'] (Hk' & _)%elem_of_scan.
    destruct (Hst k' v' Hk') as (key & Hne & Hstr & Hkey).
    exists key. split; [done|]. by apply decode_encode. }
  apply Forall_exists_Forall2_l in Hl as [ks Hkeys].
  assert (Hdata : forall opts, keys opts = true -> values opts = false ->
            mapM (emit opts) l = Some (DKey <$> ks)).
  { intros opts Hko Hvo. apply mapM_Some, Forall2_fmap_r.
    eapply Forall2_impl; [exact Hkeys|]. intros e key [_ Hd].
    unfold emit. by rewrite Hko, Hvo, Hd. }
  assert (Hin : (by_prefix en ++ es, v) ∈ l).
  { apply elem_of_scan. split; [done|].
    apply prefix_between. by apply (before_sentinel_encoded s). }
  assert (Hmember : Some s ∈ (fun key : list jsstring => key !! 2%nat) <$> ks).
  { apply list_elem_of_lookup in Hin as [i Hi].
    destruct (Forall2_lookup_l _ _ _ _ _ Hkeys Hi) as (key & Hkey & _ & Hd).
    cbn [fst] in Hd.
    rewrite (decode_encode [str "by"; name; s]) in Hd; [|done| |done].
    2:{ repeat (apply Forall_cons_2; [done || apply is_string_str|]).
        apply Forall_nil_2. }
    injection Hd as <-.
    apply list_elem_of_fmap. exists [str "by"; name; s].
    split; [done|]. by eapply list_elem_of_lookup_2. }
  assert (Hslugs : forall io', 
            postsBy st io' name
            = match stream_fault io' with
              | Some code => Failed (StoreFailure code)
              | None =>
                  async_map (fun slug => level_get st io' [str "posts"; toString slug])
                    ((fun key : list jsstring => key !! 2%nat) <$> ks)
              end).
  { intros io'. unfold postsBy, createReadStream. cbn [gte lte limit reverse].
    destruct (postsBy_bounds name en En) as [-> ->].
    destruct (stream_fault io'); [done|]. fold l.
    rewrite Hdata by done. cbn [listen]. f_equal.
    rewrite <- list_fmap_compose. done. }
  assert (Hall : forall io' a,
            a ∈ (fun key : list jsstring => key !! 2%nat) <$> ks ->
            (exists v', level_get st io' [str "posts"; toString a] = Returned v')
            \/ (exists e, level_get st io' [str "posts"; toString a] = Failed e)
               /\ (get_fault io' [str "posts"; toString a] = None ->
                   level_get st io' [str "posts"; toString a] = Failed NotFoundError)).
  { intros io' a (key & -> & Hkey)%list_elem_of_fmap.
    apply getPost_answers.
    apply list_elem_of_lookup in Hkey as [i Hi].
    destruct (Forall2_lookup_r _ _ _ _ _ Hkeys Hi) as (e & _ & He & _).
    by eexists. }
  assert (Hfails : forall io' b,
            level_get st io' [str "posts"; toString (Some s)] <> Returned b).
  { intros io' b. unfold level_get. change (toString (Some s)) with s. rewrite Ekp.
    destruct (get_fault io' _); [done|]. by rewrite Hkp. }
  split.
  - rewrite Hslugs. destruct (stream_fault io) as [code|]; [by eexists|].
    destruct (async_map_fails (fun _ => True)
                (fun slug => level_get st io [str "posts"; toString slug])
                ((fun key : list jsstring => key !! 2%nat) <$> ks) (Some s))
      as (e & _ & He);
      [|exact Hmember|apply Hfails|by exists e].
    intros a Ha. destruct (Hall io a Ha) as [?|[[e He] _]]; [by left|right].
    by exists e.
  - rewrite Hslugs. cbn [stream_fault healthy].
    destruct (async_map_fails (fun e => e = NotFoundError)
                (fun slug => level_get st healthy [str "posts"; toString slug])
                ((fun key : list jsstring => key !! 2%nat) <$> ks) (Some s))
      as (e & -> & He); [|exact Hmember|apply Hfails|done].
    intros a Ha. destruct (Hall healthy a Ha) as [?|[_ He]]; [by left|right].
    exists NotFoundError. split; [done|]. by apply He.
Qed.

Lemma postsBy_reports_orphan_within_bounds_witness :
  (exists error,
      postsBy {[ str "by/ana/x" := VString (str "") ]} healthy (str "ana")
      = Failed error)
  /\ postsBy {[ str "by/ana/x" := VString (str "") ]} healthy (str "ana")
     = Failed NotFoundError.
Proof.
  apply (postsBy_reports_orphan_within_bounds _ healthy (str "ana") (str "x")
           (str "by/ana/x") (str "posts/x") (VString (str ""))).
  - intros k v [<- _]%lookup_singleton_Some.
    exists [str "by"; str "ana"; str "x"]. split; [done|]. split; [|reflexivity].
    repeat (apply Forall_cons_2; [apply is_string_str|]). apply Forall_nil_2.
  - apply is_string_str.
  - apply is_string_str.
  - reflexivity.
  - vm_compute. reflexivity.
  - reflexivity.
  - vm_compute. reflexivity.
  - right. vm_compute. discriminate.
Defined.

(** * Further properties *)

(** ** The key codec: the shape of encoded keys *)

Lemma split_length s :
  length (split slash s) = S (length (filter (fun c => c = slash) s)).
Proof.
  induction s as [|c s IH]; [done|]. cbn [split].
  destruct (N.eqb_spec c slash) as [->|Hne].
  - rewrite filter_cons_True by done. cbn [length]. by rewrite IH.
  - rewrite filter_cons_False by done.
    destruct (split slash s) as [|w ws]; [done|]. exact IH.
Qed.

Lemma join_chars (P : N -> Prop) l :
  P slash -> Forall (Forall P) l -> Forall P (join [slash] l).
Proof.
  intros Hs Hl. induction Hl as [|w l Hw Hl IH]; [constructor|].
  destruct l as [|w' l]; [done|].
  change (join [slash] (w :: w' :: l)) with (w ++ slash :: join [slash] (w' :: l)).
  apply Forall_app. split; [done|]. by constructor.
Qed.

(** X2: two non-empty sequences of strings that encode to the same key
    are the same sequence: no two keys of the program collide in the
    store. *)
Theorem encode_is_injective (a b : list jsstring) (key : jsstring) :
  a <> [] -> b <> [] -> Forall is_string a -> Forall is_string b ->
  keyEncoding.encode a = Some key -> keyEncoding.encode b = Some key -> a = b.
Proof. apply encode_inj. Qed.

Lemma encode_is_injective_witness :
  [str "posts"; str "a/b"] = [str "posts"; str "a/b"].
Proof.
  apply (encode_is_injective _ _ (str "posts/a%2Fb")).
  - done.
  - done.
  - repeat (apply Forall_cons_2; [apply is_string_str|]). apply Forall_nil_2.
  - repeat (apply Forall_cons_2; [apply is_string_str|]). apply Forall_nil_2.
  - vm_compute. reflexivity.
  - vm_compute. reflexivity.
Defined.

(** X3: where [decode] returns, it returns one component more than the
    key has separators ["/"]; in particular it never returns the empty
    sequence. *)
Theorem decode_component_count (key : jsstring) (components : list jsstring) :
  keyEncoding.decode key = Some components ->
  length components = S (length (filter (fun c => c = slash) key)).
Proof.
  unfold keyEncoding.decode. intros H%length_mapM.
  by rewrite <- H, split_length.
Qed.

Lemma decode_component_count_witness :
  length [str "by"; str "ana"; str "ana-1"]
  = S (length (filter (fun c => c = slash) (str "by/ana/ana-1"))).
Proof.
  apply (decode_component_count (str "by/ana/ana-1")). reflexivity.
Defined.

(** X4: the key that [encode] makes of a sequence of strings consists of
    printable ASCII code units only, none of them greater than ["~"]. *)
Theorem encoded_key_is_printable_ascii
    (components : list jsstring) (key : jsstring) :
  Forall is_string components ->
  keyEncoding.encode components = Some key ->
  Forall keyChar key.
Proof.
  unfold keyEncoding.encode. intros Hl Hk.
  destruct (mapM encodeURIComponent components) as [es|] eqn:Hes; [|done].
  injection Hk as <-.
  destruct (encoded_components _ _ Hl Hes) as [_ Hch].
  apply join_chars; [unfold keyChar, slash; lia|].
  eapply Forall_impl; [exact Hch|]. intros e He.
  eapply Forall_impl; [exact He|]. intros c Hc.
  apply uriChar_bounds in Hc. unfold keyChar. lia.
Qed.

Lemma encoded_key_is_printable_ascii_witness :
  Forall keyChar (str "by/%C3%A9lan/a%20b").
Proof.
  apply (encoded_key_is_printable_ascii [str "by"; 0xE9 :: str "lan"; str "a b"]).
  - apply Forall_cons_2; [apply is_string_str|].
    apply Forall_cons_2; [|apply Forall_cons_2; [apply is_string_str|apply Forall_nil_2]].
    apply Forall_cons_2; [done|]. apply (is_string_str "lan").
  - vm_compute. reflexivity.
Defined.

Lemma str_ltb_app_same_length a b x y :
  length a = length b -> str_ltb a b = true -> str_ltb (a ++ x) (b ++ y) = true.
Proof.
  revert b. induction a as [|c a IH]; intros [|d b] Hlen Hlt; try done.
  cbn [app]. rewrite str_ltb_cons in *.
  destruct (N.ltb_spec c d), (N.ltb_spec d c); try done; try lia.
  apply IH; [|done]. by injection Hlen.
Qed.

(** X5: the keys of the date index sort by date: of two date records
    whose dates have the form [YYYY-MM-DD], the one with the earlier date
    has the smaller key, whatever the slugs. *)
Theorem date_keys_sort_by_date (d1 d2 s1 s2 : jsstring) (k1 k2 : jsstring) :
  isoDate d1 = true -> isoDate d2 = true ->
  keyEncoding.encode [str "date"; d1; s1] = Some k1 ->
  keyEncoding.encode [str "date"; d2; s2] = Some k2 ->
  str_ltb d1 d2 = true -> str_ltb k1 k2 = true.
Proof.
  intros H1 H2 E1 E2 Hlt.
  destruct (isoDate_spec _ H1) as [L1 U1]. destruct (isoDate_spec _ H2) as [L2 U2].
  apply encode_three in E1 as (ea & eb & ec & Ea & Eb & Ec & ->).
  apply encode_three in E2 as (ea' & eb' & ec' & Ea' & Eb' & Ec' & ->).
  injection Ea as <-. injection Ea' as <-.
  rewrite (encodeURIComponent_unescaped _ U1) in Eb. injection Eb as <-.
  rewrite (encodeURIComponent_unescaped _ U2) in Eb'. injection Eb' as <-.
  rewrite str_ltb_app.
  change (slash :: ?a) with ([slash] ++ a). rewrite str_ltb_app.
  apply str_ltb_app_same_length; [congruence|done].
Qed.

Lemma date_keys_sort_by_date_witness :
  str_ltb (str "date/2016-01-02/a") (str "date/2016-01-10/a%20b") = true.
Proof.
  apply (date_keys_sort_by_date (str "2016-01-02") (str "2016-01-10")
           (str "a") (str "a b")); reflexivity.
Defined.

(** X6: the three kinds of records lie apart in the order of the store:
    every key of the by-author index sorts before every key of the date
    index, and every key of the date index before every primary key. *)
Theorem index_namespaces_sort_apart
    (a s d s' s'' : jsstring) (kb kd kp : jsstring) :
  keyEncoding.encode [str "by"; a; s] = Some kb ->
  keyEncoding.encode [str "date"; d; s'] = Some kd ->
  keyEncoding.encode [str "posts"; s''] = Some kp ->
  str_ltb kb kd = true /\ str_ltb kd kp = true.
Proof.
  intros Eb Ed Ep.
  apply encode_three in Eb as (e1 & ? & ? & E1 & _ & _ & ->).
  apply encode_three in Ed as (e2 & ? & ? & E2 & _ & _ & ->).
  apply encode_two in Ep as (e3 & ? & E3 & _ & ->).
  injection E1 as <-. injection E2 as <-. injection E3 as <-.
  split; reflexivity.
Qed.

Lemma index_namespaces_sort_apart_witness :
  str_ltb (str "by/zed/zz") (str "date/0000-00-00/a") = true
  /\ str_ltb (str "date/0000-00-00/a") (str "posts/a") = true.
Proof.
  apply (index_namespaces_sort_apart (str "zed") (str "zz") (str "0000-00-00")
           (str "a") (str "a")); reflexivity.
Defined.

(** ** [putPost] run to its end *)

(** The one path on which [putPost] succeeds. *)
Lemma putPost_Returned w io post w' :
  putPost w io post = (w', Returned tt) <->
  exists kp ops,
    (postKey post ∉ locks w) /\ keyEncoding.encode (postKey post) = Some kp
    /\ exists_fault io = None /\ store w !! kp = None
    /\ encodeBatch (batch post) = Some ops /\ batch_fault io = None
    /\ w' = {| store := (store_batch (store w) None ops).1; locks := locks w |}.
Proof.
  unfold putPost, putPost_begin. split.
  - destruct (decide (postKey post ∈ locks w)) as [Hl|Hl].
    { by rewrite lock_held. }
    rewrite lock_free by done.
    destruct (keyEncoding.encode (postKey post)) as [k|]; [|done].
    cbn [exists_key exists_post store]. unfold store_exists.
    destruct (exists_fault io) as [code|] eqn:Hf; [done|].
    unfold putPost_onExists. cbn [exists_post].
    destruct (store w !! k) as [v|] eqn:Hk.
    { by rewrite bool_decide_eq_true_2. }
    rewrite bool_decide_eq_false_2 by (by intros [? ?]).
    destruct (encodeBatch (batch post)) as [ops|]; [|done].
    unfold answer_batch, store_batch, putPost_onBatch.
    cbn [batch_ops batch_post store locks].
    destruct (batch_fault io) as [code|] eqn:Hb; [done|].
    cbn [store locks fst]. rewrite unlock_lock by done. intros [= <-].
    by exists k, ops.
  - intros (kp & ops & Hl & Hk & Hf & Hfree & Hops & Hb & ->).
    rewrite lock_free, Hk by done. cbn [exists_key exists_post store].
    rewrite Hf, store_exists_false by done.
    unfold putPost_onExists. cbn [exists_post]. rewrite Hops.
    unfold answer_batch, store_batch, putPost_onBatch.
    cbn [batch_ops batch_post store locks]. rewrite Hb.
    cbn [store locks fst]. by rewrite unlock_lock.
Qed.

(** The operations of the batch of a post are its three records. *)
Lemma batch_records post ops k v :
  is_post post -> encodeBatch (batch post) = Some ops ->
  (k, v) ∈ ops <-> record_of post k v.
Proof.
  intros Hok Hops.
  destruct (post_keys_strings post Hok) as (Sb & Sd & Sp).
  apply encodeBatch_batch in Hops as (kb & kd & kp & Eb & Ed & Ep & ->).
  unfold record_of. rewrite !elem_of_cons, elem_of_nil. split.
  - intros [[= -> ->] | [[= -> ->] | [[= -> ->] | []]]].
    + left. split; [done|]. split; [|done]. by apply decode_encode.
    + right; left. split; [done|]. split; [|done]. by apply decode_encode.
    + right; right. split; [done|]. split; [|done]. by apply decode_encode.
  - intros [(E & _ & ->) | [(E & _ & ->) | (E & _ & ->)]].
    + left. congruence.
    + right; left. congruence.
    + right; right; left. congruence.
Qed.

Lemma batch_stored st post ops :
  is_post post -> encodeBatch (batch post) = Some ops ->
  stored (store_batch st None ops).1 post.
Proof.
  intros Hok Hops. exists ops. split; [done|].
  assert (Hnd := records_distinct post ops Hok Hops).
  apply Forall_forall. intros [k v] Hin. cbn [fst snd].
  rewrite store_batch_lookup by done.
  by rewrite (elem_of_list_to_map_1 _ _ _ Hnd Hin).
Qed.

Lemma batch_other_keys st post ops k :
  is_post post -> encodeBatch (batch post) = Some ops ->
  (forall v, ~ record_of post k v) ->
  (store_batch st None ops).1 !! k = st !! k.
Proof.
  intros Hok Hops Hk.
  rewrite store_batch_lookup by (by apply (records_distinct post)).
  destruct (list_to_map ops !! k) as [v|] eqn:Hv; [|done].
  apply elem_of_list_to_map_2 in Hv. destruct (Hk v).
  by apply (batch_records post ops).
Qed.

(** X7: when [putPost] succeeds, the slug was not stored before; after
    it, a point read of the primary key returns the post as it was given,
    the three records of the post are in the store, every key that is
    none of theirs is as it was, and the lock table is as before the
    call. *)
Theorem putPost_stores_the_post
    (w : World) (io : Faults) (post : Post) (w' : World) :
  is_post post ->
  putPost w io post = (w', Returned tt) ->
  level_get (store w) healthy (postKey post) = Failed NotFoundError
  /\ level_get (store w') healthy (postKey post) = Returned (VPost post)
  /\ stored (store w') post
  /\ (forall k, (forall v, ~ record_of post k v) -> store w' !! k = store w !! k)
  /\ locks w' = locks w.
Proof.
  intros Hok (kp & ops & Hl & Hk & Hf & Hfree & Hops & Hb & ->)%putPost_Returned.
  cbn [store locks].
  assert (Hst := batch_stored (store w) post ops Hok Hops).
  split; [|split; [|split; [|split]]]; [| |done| |done].
  - unfold level_get. rewrite Hk. cbn. by rewrite Hfree.
  - destruct (stored_records _ _ Hst) as (_ & _ & kp' & _ & _ & Ep & _ & _ & Hp).
    unfold level_get. rewrite Ep. cbn [healthy get_fault]. by rewrite Hp.
  - intros k Hk'. by apply (batch_other_keys _ post).
Qed.

Lemma putPost_stores_the_post_witness :
  level_get (store (world initial)) healthy (postKey firstByAna)
  = Failed NotFoundError
  /\ level_get (store (putPost (world initial) healthy firstByAna).1) healthy
       (postKey firstByAna) = Returned (VPost firstByAna)
  /\ stored (store (putPost (world initial) healthy firstByAna).1) firstByAna
  /\ (forall k, (forall v, ~ record_of firstByAna k v) ->
        store (putPost (world initial) healthy firstByAna).1 !! k
        = store (world initial) !! k)
  /\ locks (putPost (world initial) healthy firstByAna).1 = locks (world initial).
Proof.
  apply (putPost_stores_the_post (world initial) healthy firstByAna).
  - apply is_post_str.
  - vm_compute. reflexivity.
Defined.

(** X8: [putPost] succeeds exactly when the lock of the slug is free, the
    store reports no error of its own, the keys of the three records can
    be encoded, and the store holds nothing under the primary key. *)
Theorem putPost_succeeds_iff (w : World) (io : Faults) (post : Post) :
  (putPost w io post).2 = Returned tt <->
  (postKey post ∉ locks w)
  /\ exists_fault io = None /\ batch_fault io = None
  /\ is_Some (encodeBatch (batch post))
  /\ exists kp, keyEncoding.encode (postKey post) = Some kp /\ store w !! kp = None.
Proof.
  split.
  - destruct (putPost w io post) as [w' done] eqn:Hput. cbn [snd]. intros ->.
    apply putPost_Returned in Hput
        as (kp & ops & Hl & Hk & Hf & Hfree & Hops & Hb & ->).
    split; [done|]. split; [done|]. split; [done|]. split; [by exists ops|].
    by exists kp.
  - intros (Hl & Hf & Hb & [ops Hops] & kp & Hk & Hfree).
    erewrite (proj2 (putPost_Returned w io post _)); [done|].
    exists kp, ops. done.
Qed.

(** X9: when the store fails the batch, [putPost] calls back with the
    store's error and leaves everything as it was: no record is written
    and the lock is released. *)
Theorem putPost_failed_batch_changes_nothing
    (w : World) (io : Faults) (post : Post) (w' : World) (done : Outcome unit) :
  putPost w io post = (w', done) ->
  is_Some (issued_batch w io post) ->
  done <> Returned tt ->
  w' = w /\ exists code, batch_fault io = Some code
                         /\ done = Failed (StoreFailure code).
Proof.
  intros Hput Hissued Hdone.
  assert (Hlocks := putPost_releases_after_batch _ _ _ _ _ Hput Hissued).
  apply putPost_cases in Hput as [(Hin & _ & ->) | [(_ & _ & Hnone & _) | Hput]].
  - unfold issued_batch, putPost_begin in Hissued.
    rewrite lock_held in Hissued by done. by destruct Hissued.
  - rewrite Hnone in Hissued. by destruct Hissued.
  - destruct Hput as (_ & _ & _ & [(code & Hb & Hst & ->) | [_ ->]]); [|done].
    split; [|by exists code]. destruct w, w'. cbn in *. congruence.
Qed.

Lemma putPost_failed_batch_changes_nothing_witness :
  (putPost (world initial) (failing_batch 5) firstByAna).1 = world initial
  /\ exists code, batch_fault (failing_batch 5) = Some code
                  /\ (putPost (world initial) (failing_batch 5) firstByAna).2
                     = Failed (StoreFailure code).
Proof.
  apply (putPost_failed_batch_changes_nothing (world initial) (failing_batch 5)
           firstByAna).
  - apply surjective_pairing.
  - vm_compute. eexists. reflexivity.
  - vm_compute. discriminate.
Defined.

(** X10: whatever its outcome, [putPost] leaves the lock table as it was
    or adds the lock of its own slug to it: it never takes or releases
    the lock of another slug. *)
Theorem putPost_touches_only_its_lock
    (w : World) (io : Faults) (post : Post) (w' : World) (done : Outcome unit) :
  putPost w io post = (w', done) ->
  locks w' = locks w \/ locks w' = {[postKey post]} ∪ locks w.
Proof.
  intros Hput.
  destruct (issued_batch w io post) as [req|] eqn:Hreq.
  { left. by apply (putPost_releases_after_batch w io post w' done). }
  revert Hput Hreq. unfold putPost, issued_batch, putPost_begin.
  destruct (decide (postKey post ∈ locks w)) as [Hl|Hl].
  { rewrite lock_held by done. intros [= <- <-]. by left. }
  rewrite lock_free by done.
  destruct (keyEncoding.encode (postKey post)) as [k|].
  2:{ intros [= <- <-]. by left. }
  cbn [exists_key exists_post store].
  destruct (putPost_onExists _ _ _) as [w2 [o|req']] eqn:H2; [|done].
  intros [= <- <-] _. right.
  unfold putPost_onExists in H2. cbn [exists_post] in H2.
  destruct (store_exists _ _ _) as [e|[|]]; [by injection H2 as <-..|].
  destruct (encodeBatch (batch post)); by injection H2 as <-.
Qed.

Lemma putPost_touches_only_its_lock_witness :
  locks (putPost scenario healthy anotherAna1).1 = locks scenario
  \/ locks (putPost scenario healthy anotherAna1).1
     = {[postKey anotherAna1]} ∪ locks scenario.
Proof.
  apply (putPost_touches_only_its_lock scenario healthy anotherAna1 _
           (putPost scenario healthy anotherAna1).2).
  apply surjective_pairing.
Defined.

(** ** A call run to its end, among calls in flight *)

Lemma delete_last {A} (l : list A) x : delete (length l) (l ++ [x]) = l.
Proof. induction l as [|y l IH]; [done|]. simpl. by f_equal. Qed.

Lemma insert_last {A} (l : list A) x y : <[length l := y]> (l ++ [x]) = l ++ [y].
Proof. induction l as [|z l IH]; [done|]. simpl. by f_equal. Qed.

Lemma lookup_last {A} (l : list A) x : (l ++ [x]) !! length l = Some x.
Proof. induction l as [|z l IH]; [done|]. exact IH. Qed.

Lemma putPost_begin_post w post w' req :
  putPost_begin w post = (w', inr req) -> exists_post req = post.
Proof.
  unfold putPost_begin. destruct (lock _ _); [|done].
  destruct (keyEncoding.encode _); by intros [= <- <-].
Qed.

Lemma putPost_onExists_post w req response w' req' :
  putPost_onExists w req response = (w', inr req') ->
  batch_post req' = exists_post req.
Proof.
  unfold putPost_onExists. destruct response as [e|[|]]; try done.
  destruct (encodeBatch _); by intros [= <- <-].
Qed.

Lemma putPost_onExists_world w req response w' next :
  putPost_onExists w req response = (w', next) -> w' = w.
Proof.
  unfold putPost_onExists. destruct response as [e|[|]]; [by intros [= <-]..|].
  destruct (encodeBatch _); by intros [= <-].
Qed.

(** [putPost] run to its end is the call begun and its two answers
    delivered with nothing in between. *)
Lemma run_putPost S io post :
  run S [Begin post;
         ExistsDone (length (inflight S)) (exists_fault io);
         BatchDone (length (inflight S)) (batch_fault io)]
  = {| world := (putPost (world S) io post).1; inflight := inflight S |}.
Proof.
  unfold run, putPost. cbn [foldl].
  assert (Hn : inflight S !! length (inflight S) = None)
    by (by apply lookup_ge_None_2).
  cbn [step].
  destruct (putPost_begin (world S) post) as [w1 [done|req]] eqn:H1.
  { cbn [step world inflight fst]. rewrite Hn.
    cbn [step world inflight fst]. by rewrite Hn. }
  cbn [step world inflight fst]. rewrite lookup_last.
  destruct (putPost_onExists w1 req _) as [w2 [done|req']] eqn:H2.
  { cbn [step world inflight fst]. by rewrite delete_last, Hn. }
  cbn [step world inflight fst]. rewrite insert_last, lookup_last.
  destruct (answer_batch w2 _ req') as [w3 error].
  destruct (putPost_onBatch w3 req' error) as [w4 done].
  cbn [fst]. by rewrite delete_last.
Qed.

Lemma run_app S acts acts' : run S (acts ++ acts') = run (run S acts) acts'.
Proof. unfold run. by rewrite foldl_app. Qed.

Lemma reachable_with_run P S acts :
  reachable_with P S -> Forall (begins P) acts -> reachable_with P (run S acts).
Proof.
  intros (acts0 & H0 & <-) Hacts. exists (acts0 ++ acts).
  split; [by apply Forall_app|]. apply run_app.
Qed.

(** A call of [putPost] run to its end leads from a reachable system to a
    reachable system. *)
Lemma reachable_putPost P S io post :
  reachable_with P S -> P post ->
  reachable_with P {| world := (putPost (world S) io post).1;
                      inflight := inflight S |}.
Proof.
  intros HS Hpost. rewrite <- run_putPost. apply reachable_with_run; [done|].
  apply Forall_cons_2; [done|]. by repeat constructor.
Qed.

(** ** The store only grows *)

(** What an action does to the store: nothing, or the batch of a call in
    flight. *)
Lemma step_store S a :
  store (world (step S a).1) = store (world S)
  \/ exists i req,
       a = BatchDone i None /\ inflight S !! i = Some (AwaitBatch req)
       /\ store (world (step S a).1)
          = (store_batch (store (world S)) None (batch_ops req)).1.
Proof.
  destruct a as [post | i fault | i fault]; cbn [step].
  - left. unfold putPost_begin. destruct (lock _ _); [|done].
    by destruct (keyEncoding.encode _).
  - left. destruct (inflight S !! i) as [[req|req]|]; [|done..].
    unfold putPost_onExists. destruct (store_exists _ _ _) as [e|[|]]; [done..|].
    by destruct (encodeBatch _).
  - destruct (inflight S !! i) as [[req|req]|] eqn:Hi; [by left| |by left].
    unfold answer_batch, putPost_onBatch, store_batch.
    destruct fault as [code|]; [by left|]. right. by exists i, req.
Qed.

Lemma stored_weaken st st' post : st ⊆ st' -> stored st post -> stored st' post.
Proof.
  intros Hsub (ops & Hops & Hall). exists ops. split; [done|].
  eapply Forall_impl; [exact Hall|]. intros op Hop.
  by apply (lookup_weaken _ _ _ _ Hop).
Qed.

Lemma store_batch_fresh (st : Store) ops :
  NoDup ops.*1 -> Forall (fun op => st !! op.1 = None) ops ->
  st ⊆ (store_batch st None ops).1
  /\ size (store_batch st None ops).1 = (size st + length ops)%nat.
Proof.
  unfold store_batch. cbn [fst]. revert st.
  induction ops as [|[k v] ops IH]; intros st Hnd Hfresh.
  { cbn. split; [done|lia]. }
  rewrite fmap_cons in Hnd. apply NoDup_cons in Hnd as [Hk Hnd].
  apply Forall_cons in Hfresh as [Hkf Hfresh]. cbn [fst snd] in *.
  cbn [foldl fst snd length].
  destruct (IH (<[k:=v]> st) Hnd) as [IH1 IH2].
  { apply Forall_forall. intros [k' v'] Hin. cbn [fst].
    rewrite lookup_insert_ne.
    - rewrite Forall_forall in Hfresh. by apply (Hfresh (k', v')).
    - intros <-. apply Hk. by apply (list_elem_of_fmap_2 fst _ (k, v')). }
  split.
  - etrans; [|exact IH1]. by apply insert_subseteq.
  - rewrite IH2, map_size_insert_None by done. lia.
Qed.

Section store_growth.
Variable P : Post -> Prop.
Hypothesis P_is_post : forall post, P post -> is_post post.

(** The keys of a post whose primary key is free are all free. *)
Lemma batch_keys_fresh st post ops :
  consistent P st -> P post -> encodeBatch (batch post) = Some ops ->
  (forall k, keyEncoding.encode (postKey post) = Some k -> st !! k = None) ->
  Forall (fun op => st !! op.1 = None) ops.
Proof.
  intros Hst HP Hops Hfree. apply Forall_forall. intros op Hop.
  destruct (st !! op.1) as [v|] eqn:Hv; [|done]. exfalso.
  destruct (Hst _ _ Hv) as (q & opsq & HQ & Hopsq & Hin & Hall).
  assert (Hslug : slug post = slug q).
  { eapply (records_collide post q ops opsq op (op.1, v)); eauto. }
  destruct (records_primary q opsq Hopsq) as (kq & Hkq & Hinq).
  rewrite Forall_forall in Hall. specialize (Hall _ Hinq). cbn in Hall.
  rewrite (Hfree kq) in Hall; [done|]. unfold postKey in *. by rewrite Hslug.
Qed.

Lemma step_store_grows S a :
  invariant P S -> store (world S) ⊆ store (world (step S a).1).
Proof.
  intros (Hst & Hpend & _).
  destruct (step_store S a) as [-> | (i & req & -> & Hi & ->)]; [done|].
  rewrite Forall_forall in Hpend.
  destruct (Hpend _ (list_elem_of_lookup_2 _ _ _ Hi)) as (HP & _ & Hops & Hfree).
  cbn [pending_post] in HP.
  apply store_batch_fresh.
  - apply (records_distinct (batch_post req)); [by apply P_is_post|done].
  - by apply (batch_keys_fresh _ (batch_post req)).
Qed.

Lemma run_store_grows S acts :
  reachable_with P S -> Forall (begins P) acts ->
  store (world S) ⊆ store (world (run S acts)).
Proof.
  intros HS Hacts.
  induction acts as [|a acts IH] using rev_ind; [done|].
  apply Forall_app in Hacts as [Hacts Ha].
  rewrite run_snoc. etrans; [by apply IH|].
  apply step_store_grows, (invariant_reachable P P_is_post).
  by apply reachable_with_run.
Qed.

End store_growth.

(** X11: no record is ever overwritten or removed: what a key holds in a
    reachable store, it holds after any further [putPost] calls, in any
    interleaving and whatever the store answers. *)
Theorem stored_records_are_never_changed
    (S : System) (acts : list Action) (k : jsstring) (v : Value) :
  reachable S -> Forall (begins is_post) acts ->
  store (world S) !! k = Some v ->
  store (world (run S acts)) !! k = Some v.
Proof.
  intros HS Hacts Hk. eapply lookup_weaken; [exact Hk|].
  by apply (run_store_grows is_post (fun _ H => H)).
Qed.

Lemma stored_records_are_never_changed_witness :
  store (world (run scenario_system [Begin anotherAna1; ExistsDone 0 None]))
    !! str "posts/ana-1" = Some (VPost firstByAna).
Proof.
  apply (stored_records_are_never_changed scenario_system).
  - apply scenario_system_reachable.
  - repeat (apply Forall_cons_2; [first [exact I | apply is_post_str]|]).
    apply Forall_nil_2.
  - vm_compute. reflexivity.
Defined.

(** *** Three records for each post *)

(** A primary record is the record of a stored post. *)
Lemma stored_primary_inv st post :
  consistent is_post st ->
  (exists k, keyEncoding.encode (postKey post) = Some k
             /\ st !! k = Some (VPost post)) ->
  stored st post.
Proof.
  intros Hst (k & Hk & Hv).
  destruct (Hst _ _ Hv) as (q & opsq & HQ & Hopsq & Hin & Hall).
  assert (q = post); [|subst q; by exists opsq].
  apply encodeBatch_batch in Hopsq as (kb & kd & kp & _ & _ & _ & ->).
  rewrite !elem_of_cons, elem_of_nil in Hin.
  destruct Hin as [Hin | [Hin | [Hin | []]]]; injection Hin as _ Hin;
    [done..|]. congruence.
Qed.

Lemma census_step S a ps :
  invariant is_post S -> census (store (world S)) ps ->
  exists ps', census (store (world (step S a).1)) ps'.
Proof.
  intros Hinv (Hnd & Hps & Hsize). assert (Hinv' := Hinv).
  destruct Hinv' as (Hst & Hpend & _).
  destruct (step_store S a) as [-> | (i & req & -> & Hi & Heq)]; [by exists ps|].
  rewrite Forall_forall in Hpend.
  destruct (Hpend _ (list_elem_of_lookup_2 _ _ _ Hi)) as (HP & _ & Hops & Hfree).
  cbn [pending_post] in HP. set (post := batch_post req) in *.
  assert (Hdist := records_distinct post _ HP Hops).
  assert (Hfresh := batch_keys_fresh is_post (fun _ H => H) _ post _ Hst HP Hops Hfree).
  destruct (store_batch_fresh _ _ Hdist Hfresh) as [Hsub Hsz].
  assert (Hnew := batch_stored (store (world S)) post _ HP Hops).
  assert (Hinv2 : invariant is_post (step S (BatchDone i None)).1)
    by (by apply (invariant_step is_post (fun _ H => H))).
  destruct Hinv2 as (Hst2 & _ & _).
  rewrite Heq in *. clear Heq.
  set (st' := (store_batch (store (world S)) None (batch_ops req)).1) in *.
  exists (ps ++ [post]). split; [|split].
  - rewrite fmap_app. apply NoDup_app. split; [done|]. split; [|apply NoDup_singleton].
    intros s Hin Hin'. apply list_elem_of_singleton in Hin'. subst s.
    apply list_elem_of_fmap in Hin as (q & Hs & Hq). apply Hps in Hq.
    destruct (stored_records _ _ Hq) as (_ & _ & kq & _ & _ & Ekq & _ & _ & Hkq).
    rewrite (Hfree kq) in Hkq; [done|]. unfold postKey in *. by rewrite Hs.
  - intros q. rewrite elem_of_app, list_elem_of_singleton. split.
    + intros [Hq | ->]; [|done]. by apply (stored_weaken _ _ _ Hsub), Hps.
    + intros Hq.
      destruct (stored_records _ _ Hq) as (_ & _ & kq & _ & _ & Ekq & _ & _ & Hkq).
      unfold st' in Hkq. rewrite store_batch_lookup in Hkq by done.
      destruct (list_to_map (batch_ops req) !! kq) as [v|] eqn:Hv.
      * right. injection Hkq as ->. apply elem_of_list_to_map_2 in Hv.
        apply encodeBatch_batch in Hops as (kb & kd & kp & _ & _ & _ & Hops).
        rewrite Hops, !elem_of_cons, elem_of_nil in Hv.
        destruct Hv as [Hv | [Hv | [Hv | []]]]; injection Hv as _ Hv;
          [done..|]. congruence.
      * left. apply Hps. apply stored_primary_inv; [done|]. by exists kq.
  - rewrite Hsz, Hsize, length_app.
    apply encodeBatch_batch in Hops as (kb & kd & kp & _ & _ & _ & ->).
    cbn [length]. lia.
Qed.

(** X12: a reachable store holds three records for each stored post and
    nothing else: the stored posts have pairwise distinct slugs, and the
    number of records is three times the number of stored posts. *)
Theorem store_holds_three_records_per_post (S : System) :
  reachable S ->
  exists ps,
    NoDup (slug <$> ps)
    /\ (forall post, post ∈ ps <-> stored (store (world S)) post)
    /\ size (store (world S)) = (3 * length ps)%nat.
Proof.
  intros (acts & Hacts & <-). fold (census (store (world (run initial acts)))).
  induction acts as [|a acts IH] using rev_ind.
  { exists []. split; [constructor|]. split; [|done].
    intros post. split; [by intros ?%elem_of_nil|].
    intros Hpost.
    destruct (stored_records _ _ Hpost) as (_ & _ & kp & _ & _ & _ & _ & _ & Hp).
    cbn in Hp. by rewrite lookup_empty in Hp. }
  apply Forall_app in Hacts as [Hacts Ha].
  destruct (IH Hacts) as [ps Hps]. rewrite run_snoc.
  apply (census_step _ a ps); [|exact Hps].
  apply (invariant_reachable is_post (fun _ H => H)). by exists acts.
Qed.

Lemma store_holds_three_records_per_post_witness :
  exists ps,
    NoDup (slug <$> ps)
    /\ (forall post, post ∈ ps <-> stored (store (world scenario_system)) post)
    /\ size (store (world scenario_system)) = (3 * length ps)%nat.
Proof.
  apply (store_holds_three_records_per_post scenario_system).
  apply scenario_system_reachable.
Defined.

(** ** C8: two calls for one slug *)

(** C8, as stated, fails: where the slug is already stored, the first
    call is rejected as a duplicate and the second, begun before the first
    has ended, with Conflict: neither succeeds. *)
Lemma overlapping_calls_may_both_fail :
  let S0 := run initial [Begin firstByAna; ExistsDone 0 None; BatchDone 0 None] in
  let S1 := (step S0 (Begin anotherAna1)).1 in
  let S2 := (step S1 (Begin firstByAna)).1 in
  inflight S1 = [AwaitExists {| exists_post := anotherAna1;
                                exists_key := str "posts/ana-1" |}]
  /\ (step S1 (Begin firstByAna)).2 = Some (firstByAna, Failed Conflict)
  /\ (step S2 (ExistsDone 0 None)).2 = Some (anotherAna1, Failed SlugAlreadyTaken).
Proof. vm_compute. split; [|split]; reflexivity. Qed.

Lemma reachable_step P S a :
  reachable_with P S -> begins P a -> reachable_with P (step S a).1.
Proof.
  intros HS Ha. change (step S a).1 with (run S [a]).
  apply reachable_with_run; [done|]. by apply Forall_cons_2.
Qed.

Lemma begin_conflict S post :
  postKey post ∈ locks (world S) ->
  step S (Begin post) = (S, Some (post, Failed Conflict)).
Proof.
  intros Hl. cbn [step]. unfold putPost_begin. rewrite lock_held by done.
  by destruct S.
Qed.

Lemma pending_unique (l : list Pending) i j p q :
  NoDup (pending_key <$> l) ->
  l !! i = Some p -> l !! j = Some q -> pending_key p = pending_key q -> i = j.
Proof.
  intros Hnd Hi Hj Heq.
  apply (NoDup_lookup _ i j (pending_key p) Hnd); rewrite list_lookup_fmap.
  - by rewrite Hi.
  - by rewrite Hj, Heq.
Qed.

Lemma elem_of_delete_other {A} (l : list A) j x y :
  x ∈ l -> l !! j = Some y -> x <> y -> x ∈ delete j l.
Proof.
  intros Hx Hj Hne. rewrite <- (take_drop_middle l j y Hj) in Hx.
  rewrite delete_take_drop. rewrite elem_of_app, elem_of_cons in Hx.
  rewrite elem_of_app. destruct Hx as [?|[?|?]]; [by left|done|by right].
Qed.

Lemma elem_of_insert_other {A} (l : list A) j x y z :
  x ∈ l -> l !! j = Some y -> x <> y -> x ∈ <[j := z]> l.
Proof.
  intros Hx Hj Hne. apply list_elem_of_lookup in Hx as [i Hi].
  apply (list_elem_of_lookup_2 _ i). rewrite list_lookup_insert_ne; [done|].
  intros ->. congruence.
Qed.

(** An action that is no answer to the call in flight for a slug, and
    begins no call for it, leaves the call in flight and the primary key
    of the slug free, and ends no call for the slug. *)
Lemma step_other S a p k :
  invariant is_post S ->
  p ∈ inflight S ->
  keyEncoding.encode (pending_key p) = Some k ->
  store (world S) !! k = None ->
  ~ answers S (pending_key p) a ->
  (forall q, a = Begin q -> postKey q <> pending_key p) ->
  p ∈ inflight (step S a).1
  /\ store (world (step S a).1) !! k = None
  /\ forall q o, (step S a).2 = Some (q, o) -> postKey q <> pending_key p.
Proof.
  intros (Hst & Hpend & Hnd) Hp Hk Hfree Hna Hbegin.
  rewrite Forall_forall in Hpend.
  destruct a as [q | j fault | j fault]; cbn [step answers] in *.
  - specialize (Hbegin q eq_refl). unfold putPost_begin.
    destruct (lock _ _) as [held|].
    + destruct (keyEncoding.encode (postKey q)) as [kq|];
        cbn [fst snd world inflight store].
      * split; [apply elem_of_app; by left|]. split; [done|]. done.
      * split; [done|]. split; [done|]. by intros ? ? [= <- _].
    + cbn [fst snd]. split; [done|]. split; [done|]. by intros ? ? [= <- _].
  - destruct (inflight S !! j) as [[req|req]|] eqn:Hj; [|by repeat split..].
    assert (Hne : pending_key (AwaitExists req) <> pending_key p).
    { intros Heq. apply Hna. cbn. by rewrite Heq. }
    assert (Hpne : p <> AwaitExists req) by (by intros ->).
    destruct (putPost_onExists _ _ _) as [w [o|req']] eqn:H2;
      assert (Hw := putPost_onExists_world _ _ _ _ _ H2); subst w;
      cbn [fst snd world inflight].
    + split; [by apply (elem_of_delete_other _ _ _ _ Hp Hj)|]. split; [done|].
      by intros ? ? [= <- _].
    + split; [by apply (elem_of_insert_other _ _ _ _ _ Hp Hj)|]. done.
  - destruct (inflight S !! j) as [[req|req]|] eqn:Hj; [by repeat split| |by repeat split].
    assert (Hne : pending_key (AwaitBatch req) <> pending_key p).
    { intros Heq. apply Hna. cbn. by rewrite Heq. }
    assert (Hpne : p <> AwaitBatch req) by (by intros ->).
    destruct (Hpend _ (list_elem_of_lookup_2 _ _ _ Hj)) as (HP & _ & Hops & _).
    destruct (Hpend _ Hp) as (HP' & _).
    unfold answer_batch, putPost_onBatch.
    destruct (store_batch _ _ _) as [st error] eqn:Hb.
    cbn [fst snd world inflight store].
    split; [by apply (elem_of_delete_other _ _ _ _ Hp Hj)|]. split.
    + destruct fault as [code|]; cbn in Hb; injection Hb as <- <-; [done|].
      apply (batch_keeps_other_key_free is_post (fun _ H => H) _
               (batch_post req) (pending_post p));
        first [done | intros Heq; by apply Hne].
    + by intros ? ? [= <- _].
Qed.

(** Once the slug is stored, no call for it ends with success. *)
Lemma step_stored_no_success S a k post q o :
  invariant is_post S ->
  keyEncoding.encode (postKey post) = Some k ->
  is_Some (store (world S) !! k) ->
  (step S a).2 = Some (q, o) -> slug q = slug post -> o <> Returned tt.
Proof.
  intros (_ & Hpend & _) Hk Hstored Hstep Hslug.
  rewrite Forall_forall in Hpend.
  destruct a as [q' | j fault | j fault]; cbn [step] in Hstep.
  - unfold putPost_begin in Hstep. destruct (lock _ _) as [held|].
    + destruct (keyEncoding.encode (postKey q')); cbn [snd] in Hstep; [done|].
      by injection Hstep as _ <-.
    + cbn [snd] in Hstep. by injection Hstep as _ <-.
  - destruct (inflight S !! j) as [[req|req]|]; [|done..].
    unfold putPost_onExists in Hstep.
    destruct (store_exists _ _ _) as [e|[|]]; cbn [snd] in Hstep;
      [by injection Hstep as _ <-..|].
    destruct (encodeBatch _); cbn [snd] in Hstep; [done|].
    by injection Hstep as _ <-.
  - destruct (inflight S !! j) as [[req|req]|] eqn:Hj; [done| |done].
    destruct (Hpend _ (list_elem_of_lookup_2 _ _ _ Hj)) as (_ & _ & _ & Hfree).
    unfold answer_batch, putPost_onBatch, store_batch in Hstep.
    destruct fault as [code|]; cbn in Hstep; injection Hstep as <- <-; [done|].
    exfalso. cbn [pending_post] in Hfree.
    rewrite (Hfree k) in Hstored; [by destruct Hstored|].
    unfold postKey in *. by rewrite Hslug.
Qed.

Lemma no_success_once_stored post k acts :
  keyEncoding.encode (postKey post) = Some k ->
  forall S, reachable S -> is_Some (store (world S) !! k) ->
  Forall (begins is_post) acts ->
  forall q o, (q, o) ∈ (run_log S acts).2 -> slug q = slug post ->
              o <> Returned tt.
Proof.
  intros Hk. induction acts as [|a acts IH]; intros S HS Hstored Hacts q o Hin Hslug.
  { by apply elem_of_nil in Hin. }
  apply Forall_cons in Hacts as [Ha Hacts].
  assert (Hinv := invariant_reachable is_post (fun _ H => H) S HS).
  cbn [run_log] in Hin.
  destruct (step S a) as [S1 ended] eqn:Hstep.
  assert (HS1 : reachable S1).
  { replace S1 with (step S a).1 by (by rewrite Hstep). by apply reachable_step. }
  assert (Hstored1 : is_Some (store (world S1) !! k)).
  { destruct Hstored as [v Hv]. exists v.
    eapply lookup_weaken; [exact Hv|].
    replace S1 with (step S a).1 by (by rewrite Hstep).
    by apply (step_store_grows is_post (fun _ H => H)). }
  destruct (run_log S1 acts) as [S2 log] eqn:Hrest. cbn [snd] in Hin.
  apply elem_of_app in Hin as [Hin|Hin].
  - destruct ended as [[q' o']|]; [|by apply elem_of_nil in Hin].
    apply list_elem_of_singleton in Hin. injection Hin as <- <-.
    apply (step_stored_no_success S a k post q); [done..| |done].
    by rewrite Hstep.
  - apply (IH S1 HS1 Hstored1 Hacts q o); [|done]. by rewrite Hrest.
Qed.

(** The fate of a call in flight for a slug that is not stored, where
    the store reports no error to it. *)
Lemma first_call_outcome p1 k ops acts :
  is_post p1 ->
  keyEncoding.encode (postKey p1) = Some k ->
  encodeBatch (batch p1) = Some ops ->
  forall S p,
    reachable S -> p ∈ inflight S -> pending_post p = p1 ->
    store (world S) !! k = None ->
    Forall (begins is_post) acts ->
    answered_without_error S (postKey p1) acts ->
    ((exists p', p' ∈ inflight (run_log S acts).1 /\ pending_post p' = p1)
     /\ forall q o, (q, o) ∈ (run_log S acts).2 -> slug q = slug p1 ->
                    o = Failed Conflict)
    \/ exists log1 log2,
         (run_log S acts).2 = log1 ++ (p1, Returned tt) :: log2
         /\ (forall q o, (q, o) ∈ log1 -> slug q = slug p1 -> o = Failed Conflict)
         /\ (forall q o, (q, o) ∈ log2 -> slug q = slug p1 -> o <> Returned tt).
Proof.
  intros Hok Hk Hops.
  induction acts as [|a acts IH]; intros S p HS Hp Hpost Hfree Hacts Hans.
  { left. split; [by exists p|]. by intros q o ?%elem_of_nil. }
  apply Forall_cons in Hacts as [Ha Hacts]. destruct Hans as [Hfault Hans].
  assert (Hinv := invariant_reachable is_post (fun _ H => H) S HS).
  assert (Hinv' := Hinv). destruct Hinv' as (Hst & Hpend & Hnd).
  rewrite Forall_forall in Hpend.
  assert (Hkey : pending_key p = postKey p1) by (unfold pending_key; by rewrite Hpost).
  destruct (Hpend p Hp) as (_ & Hlock & Hstage).
  assert (HS1 : reachable (step S a).1) by (by apply reachable_step).
  (* what the rest of the run adds to an action that ends no call for the
     slug, or ends one with Conflict *)
  assert (Hcont : forall p',
            p' ∈ inflight (step S a).1 -> pending_post p' = p1 ->
            store (world (step S a).1) !! k = None ->
            (forall q o, (step S a).2 = Some (q, o) -> slug q = slug p1 ->
                         o = Failed Conflict) ->
            ((exists p', p' ∈ inflight (run_log S (a :: acts)).1
                         /\ pending_post p' = p1)
             /\ forall q o, (q, o) ∈ (run_log S (a :: acts)).2 -> slug q = slug p1 ->
                            o = Failed Conflict)
            \/ exists log1 log2,
                 (run_log S (a :: acts)).2 = log1 ++ (p1, Returned tt) :: log2
                 /\ (forall q o, (q, o) ∈ log1 -> slug q = slug p1 ->
                                 o = Failed Conflict)
                 /\ (forall q o, (q, o) ∈ log2 -> slug q = slug p1 ->
                                 o <> Returned tt)).
  { intros p' Hp' Hpost' Hfree' Hended.
    specialize (IH (step S a).1 p' HS1 Hp' Hpost' Hfree' Hacts Hans).
    cbn [run_log]. destruct (step S a) as [S1 ended]. cbn [fst snd] in *.
    destruct (run_log S1 acts) as [S2 log]. cbn [fst snd] in *.
    destruct IH as [[Hflight Hlog] | (log1 & log2 & -> & H1 & H2)].
    - left. split; [done|]. intros q o [Hin|Hin]%elem_of_app Hslug.
      + destruct ended as [[q' o']|]; [|by apply elem_of_nil in Hin].
        apply list_elem_of_singleton in Hin. injection Hin as <- <-.
        by apply (Hended q).
      + by apply (Hlog q).
    - right. exists (option_list ended ++ log1), log2.
      split; [by rewrite app_assoc|]. split; [|done].
      intros q o [Hin|Hin]%elem_of_app Hslug.
      + destruct ended as [[q' o']|]; [|by apply elem_of_nil in Hin].
        apply list_elem_of_singleton in Hin. injection Hin as <- <-.
        by apply (Hended q).
      + by apply (H1 q). }
  (* an action that does not concern the call *)
  assert (Hother : ~ answers S (postKey p1) a ->
                   (forall q, a = Begin q -> postKey q <> postKey p1) -> _)
    by (intros Hna Hb; exact (step_other S a p k Hinv Hp
                                ltac:(by rewrite Hkey) Hfree
                                ltac:(by rewrite Hkey)
                                ltac:(by rewrite Hkey))).
  destruct a as [q | j fault | j fault].
  - (* a call begins *)
    destruct (decide (postKey q = postKey p1)) as [Hq|Hq].
    + assert (Hstep : step S (Begin q) = (S, Some (q, Failed Conflict))).
      { apply begin_conflict. by rewrite Hq, <- Hkey. }
      apply (Hcont p); rewrite ?Hstep; cbn [fst snd]; try done.
      by intros ? ? [= _ <-].
    + destruct Hother as (Hp' & Hfree' & Hended); [by intros []|by intros ? [= <-]|].
      apply (Hcont p); try done.
      intros q' o Hstep Hslug. destruct (Hended q' o Hstep).
      unfold postKey. by rewrite Hkey, Hslug.
  - (* an existence check answers *)
    destruct (decide (answers S (postKey p1) (ExistsDone j fault))) as [Hyes|Hno].
    2:{ destruct Hother as (Hp' & Hfree' & Hended); [done|done|].
        apply (Hcont p); try done.
        intros q' o Hstep Hslug. destruct (Hended q' o Hstep).
        unfold postKey. by rewrite Hkey, Hslug. }
    specialize (Hfault Hyes). cbn [fault_of] in Hfault. subst fault.
    unfold answers in Hyes. apply fmap_Some in Hyes as (p'' & Hj & Hyes).
    apply list_elem_of_lookup in Hp as [i Hi].
    assert (i = j) by (apply (pending_unique _ _ _ _ _ Hnd Hi Hj); congruence).
    subst i. assert (p'' = p) by congruence. subst p''.
    destruct p as [req|req]; cbn [pending_post] in *.
    + (* the call goes on to its batch *)
      assert (Hstep : step S (ExistsDone j None)
                      = ({| world := world S;
                            inflight := <[j := AwaitBatch {| batch_post := p1;
                                                             batch_ops := ops |}]>
                                          (inflight S) |}, None)).
      { cbn [step]. rewrite Hj. unfold putPost_onExists.
        assert (exists_key req = k) as -> by congruence.
        rewrite store_exists_false by done. by rewrite Hpost, Hops. }
      apply (Hcont (AwaitBatch {| batch_post := p1; batch_ops := ops |}));
        rewrite ?Hstep; cbn [fst snd world inflight]; try done.
      apply list_elem_of_insert. by eapply lookup_lt_Some.
    + assert (Hstep : step S (ExistsDone j None) = (S, None))
        by (cbn [step]; by rewrite Hj).
      apply (Hcont (AwaitBatch req)); rewrite ?Hstep; cbn [fst snd]; try done.
      by eapply list_elem_of_lookup_2.
  - (* a batch answers *)
    destruct (decide (answers S (postKey p1) (BatchDone j fault))) as [Hyes|Hno].
    2:{ destruct Hother as (Hp' & Hfree' & Hended); [done|done|].
        apply (Hcont p); try done.
        intros q' o Hstep Hslug. destruct (Hended q' o Hstep).
        unfold postKey. by rewrite Hkey, Hslug. }
    specialize (Hfault Hyes). cbn [fault_of] in Hfault. subst fault.
    unfold answers in Hyes. apply fmap_Some in Hyes as (p'' & Hj & Hyes).
    apply list_elem_of_lookup in Hp as [i Hi].
    assert (i = j) by (apply (pending_unique _ _ _ _ _ Hnd Hi Hj); congruence).
    subst i. assert (p'' = p) by congruence. subst p''.
    destruct p as [req|req]; cbn [pending_post] in *.
    + assert (Hstep : step S (BatchDone j None) = (S, None))
        by (cbn [step]; by rewrite Hj).
      apply (Hcont (AwaitExists req)); rewrite ?Hstep; cbn [fst snd]; try done.
      by eapply list_elem_of_lookup_2.
    + (* the call ends with success *)
      right. exists [], (run_log (step S (BatchDone j None)).1 acts).2.
      destruct Hstage as [Hops' _]. rewrite Hpost in Hops'.
      assert (Hended : (step S (BatchDone j None)).2 = Some (p1, Returned tt)).
      { cbn [step]. rewrite Hj. unfold answer_batch, putPost_onBatch, store_batch.
        cbn. by rewrite Hpost. }
      assert (Hstored : is_Some (store (world (step S (BatchDone j None)).1) !! k)).
      { cbn [step]. rewrite Hj. unfold answer_batch, putPost_onBatch.
        cbn [store_batch]. cbn [fst world store].
        assert (Hb := batch_stored (store (world S)) p1 _ Hok Hops').
        destruct (stored_records _ _ Hb) as (_ & _ & kp & _ & _ & Ep & _ & _ & Hkp).
        assert (kp = k) by congruence. subst kp. by eexists. }
      split; [|split].
      * cbn [run_log]. destruct (step S (BatchDone j None)) as [S1 ended].
        cbn [fst snd] in *. subst ended. by destruct (run_log S1 acts).
      * by intros q o ?%elem_of_nil.
      * intros q o Hin Hslug.
        by apply (no_success_once_stored p1 k acts Hk _ HS1 Hstored Hacts q o).
Qed.

(** C8 (amended): while a call for a slug is in flight, a second call for
    the same slug is called back with Conflict within its own [putPost]
    call, and nothing changes: not the store, not the lock table, not the
    calls in flight.  Where the slug is neither stored nor locked when the
    first call begins, the keys of its records can be encoded and the
    store reports no error to a call for the slug, then, whatever other
    calls begin and end in between: either the first call is still in
    flight and every call for the slug that has ended was turned away
    with Conflict; or the first call has succeeded, every call for the
    slug that ended before it was turned away with Conflict, and no call
    for the slug that ended after it has succeeded.  So exactly one call
    succeeds.  Where the slug is already stored, no call for it
    succeeds. *)
Theorem first_writer_succeeds_second_gets_conflict :
  (forall (S : System) (i : nat) (first : Pending) (post : Post),
      reachable S ->
      inflight S !! i = Some first ->
      slug post = slug (pending_post first) ->
      step S (Begin post) = (S, Some (post, Failed Conflict)))
  /\ (forall (S : System) (first : Post) (k : jsstring) (acts : list Action),
         reachable S -> is_post first ->
         (postKey first ∉ locks (world S)) ->
         keyEncoding.encode (postKey first) = Some k ->
         store (world S) !! k = None ->
         is_Some (encodeBatch (batch first)) ->
         Forall (begins is_post) acts ->
         answered_without_error (step S (Begin first)).1 (postKey first) acts ->
         ((exists p, p ∈ inflight (run_log S (Begin first :: acts)).1
                     /\ pending_post p = first)
          /\ forall q o, (q, o) ∈ (run_log S (Begin first :: acts)).2 ->
                         slug q = slug first -> o = Failed Conflict)
         \/ exists log1 log2,
              (run_log S (Begin first :: acts)).2
              = log1 ++ (first, Returned tt) :: log2
              /\ (forall q o, (q, o) ∈ log1 -> slug q = slug first ->
                              o = Failed Conflict)
              /\ (forall q o, (q, o) ∈ log2 -> slug q = slug first ->
                              o <> Returned tt))
  /\ (forall (S : System) (post : Post) (k : jsstring) (acts : list Action),
         reachable S ->
         keyEncoding.encode (postKey post) = Some k ->
         is_Some (store (world S) !! k) ->
         Forall (begins is_post) acts ->
         forall q o, (q, o) ∈ (run_log S acts).2 -> slug q = slug post ->
                     o <> Returned tt).
Proof.
  split; [|split].
  - intros S i first post HS Hi Hslug.
    destruct (invariant_reachable is_post (fun _ H => H) S HS) as (_ & Hpend & _).
    rewrite Forall_forall in Hpend.
    destruct (Hpend first) as (_ & Hlock & _); [by eapply list_elem_of_lookup_2|].
    apply begin_conflict.
    replace (postKey post) with (pending_key first); [done|].
    unfold pending_key, postKey. by rewrite Hslug.
  - intros S first k acts HS Hok Hlock Hk Hfree [ops Hops] Hacts Hans.
    assert (Hstep : step S (Begin first)
                    = ({| world := {| store := store (world S);
                                      locks := {[postKey first]} ∪ locks (world S) |};
                          inflight := inflight S
                                      ++ [AwaitExists {| exists_post := first;
                                                         exists_key := k |}] |},
                       None)).
    { cbn [step]. unfold putPost_begin. by rewrite lock_free, Hk. }
    assert (HS1 : reachable (step S (Begin first)).1) by (by apply reachable_step).
    cbn [run_log]. rewrite Hstep in *. cbn [fst] in *.
    destruct (first_call_outcome first k ops acts Hok Hk Hops _
                (AwaitExists {| exists_post := first; exists_key := k |}) HS1)
      as [[Hflight Hlog] | (log1 & log2 & Hlog & H1 & H2)]; try done.
    { cbn [inflight]. apply elem_of_app. right. by apply list_elem_of_singleton. }
    + left. destruct (run_log _ acts) as [S2 log]. by split.
    + right. exists log1, log2. destruct (run_log _ acts) as [S2 log]. by split.
  - intros S post k acts HS Hk Hstored Hacts q o.
    by apply (no_success_once_stored post k acts).
Qed.

Lemma first_writer_succeeds_second_gets_conflict_witness :
  (let S1 := run initial [Begin firstByAna] in
   step S1 (Begin anotherAna1) = (S1, Some (anotherAna1, Failed Conflict)))
  /\ (let acts := [Begin anotherAna1; ExistsDone 0 None; Begin anotherAna1;
                   BatchDone 0 None] in
      ((exists p, p ∈ inflight (run_log initial (Begin firstByAna :: acts)).1
                  /\ pending_post p = firstByAna)
       /\ forall q o, (q, o) ∈ (run_log initial (Begin firstByAna :: acts)).2 ->
                      slug q = slug firstByAna -> o = Failed Conflict)
      \/ exists log1 log2,
           (run_log initial (Begin firstByAna :: acts)).2
           = log1 ++ (firstByAna, Returned tt) :: log2
           /\ (forall q o, (q, o) ∈ log1 -> slug q = slug firstByAna ->
                           o = Failed Conflict)
           /\ (forall q o, (q, o) ∈ log2 -> slug q = slug firstByAna ->
                           o <> Returned tt))
  /\ (forall q o,
        (q, o) ∈ (run_log scenario_system [Begin anotherAna1; ExistsDone 0 None]).2 ->
        slug q = slug anotherAna1 -> o <> Returned tt).
Proof.
  destruct first_writer_succeeds_second_gets_conflict as (Hsecond & Hfirst & Hstored).
  split; [|split].
  - apply (Hsecond _ 0%nat
             (AwaitExists {| exists_post := firstByAna;
                             exists_key := str "posts/ana-1" |})).
    + apply reachable_run.
      apply Forall_cons_2; [apply is_post_str | apply Forall_nil_2].
    + vm_compute. reflexivity.
    + vm_compute. reflexivity.
  - apply (Hfirst initial firstByAna (str "posts/ana-1")).
    + by apply (reachable_run []).
    + apply is_post_str.
    + vm_compute. intros H. inversion H.
    + vm_compute. reflexivity.
    + vm_compute. reflexivity.
    + vm_compute. eexists. reflexivity.
    + repeat (apply Forall_cons_2; [first [exact I | apply is_post_str]|]).
      apply Forall_nil_2.
    + cbn [answered_without_error fault_of]. repeat split; intros _; reflexivity.
  - apply (Hstored scenario_system anotherAna1 (str "posts/ana-1")).
    + apply scenario_system_reachable.
    + vm_compute. reflexivity.
    + exists (VPost firstByAna). vm_compute. reflexivity.
    + repeat (apply Forall_cons_2; [first [exact I | apply is_post_str]|]).
      apply Forall_nil_2.
Defined.

(** ** Locks that stay behind *)

(** A lock that no call in flight holds stays where it is. *)
Lemma abandoned_lock_step S a key :
  key ∈ locks (world S) -> key ∉ pending_key <$> inflight S ->
  key ∈ locks (world (step S a).1) /\ key ∉ pending_key <$> inflight (step S a).1.
Proof.
  intros Hkey Hnone.
  destruct a as [post | i fault | i fault]; cbn [step].
  - unfold putPost_begin. destruct (decide (postKey post ∈ locks (world S))) as [Hl|Hl].
    { by rewrite lock_held. }
    rewrite lock_free by done.
    destruct (keyEncoding.encode (postKey post)) as [k|];
      cbn [fst world inflight locks].
    + split; [by apply elem_of_union_r|].
      rewrite fmap_app, elem_of_app. intros [Hin | Hin%list_elem_of_singleton]; [done|].
      apply Hl. unfold pending_key in Hin. cbn in Hin. by rewrite <- Hin.
    + done.
  - destruct (inflight S !! i) as [[req|req]|] eqn:Hi; [|done..].
    destruct (putPost_onExists _ _ _) as [w [o|req']] eqn:H2;
      assert (Hw := putPost_onExists_world _ _ _ _ _ H2); subst w;
      cbn [fst world inflight]; (split; [done|]).
    + rewrite list_fmap_delete. intros Hin. apply Hnone.
      eapply elem_of_sublist; [exact Hin|]. apply sublist_delete.
    + rewrite list_fmap_insert, list_insert_id; [done|].
      rewrite list_lookup_fmap, Hi. cbn. unfold pending_key. cbn. f_equal. f_equal.
      symmetry. by apply (putPost_onExists_post _ _ _ _ _ H2).
  - destruct (inflight S !! i) as [[req|req]|] eqn:Hi; [done| |done].
    unfold answer_batch, putPost_onBatch.
    destruct (store_batch _ _ _) as [st error]. cbn [fst world inflight locks].
    split.
    + unfold unlock. apply elem_of_difference. split; [done|].
      intros ->%elem_of_singleton. apply Hnone.
      apply (list_elem_of_fmap_2 pending_key _ (AwaitBatch req)).
      by eapply list_elem_of_lookup_2.
    + rewrite list_fmap_delete. intros Hin. apply Hnone.
      eapply elem_of_sublist; [exact Hin|]. apply sublist_delete.
Qed.

(** X13: a lock that is held while no call in flight holds it is never
    released: whatever calls begin and end afterwards, every [putPost]
    for its slug is turned away with Conflict and changes nothing. *)
Theorem abandoned_lock_is_never_released
    (S : System) (acts : list Action) (io : Faults) (post : Post) :
  postKey post ∈ locks (world S) ->
  postKey post ∉ pending_key <$> inflight S ->
  putPost (world (run S acts)) io post = (world (run S acts), Failed Conflict).
Proof.
  intros Hkey Hnone. apply putPost_conflict.
  assert (H : postKey post ∈ locks (world (run S acts))
              /\ postKey post ∉ pending_key <$> inflight (run S acts));
    [|by destruct H].
  induction acts as [|a acts IH] using rev_ind; [done|].
  rewrite run_snoc. destruct IH. by apply abandoned_lock_step.
Qed.

Lemma abandoned_lock_is_never_released_witness :
  putPost (world (run (run initial [Begin firstByAna; ExistsDone 0 (Some 1)])
                      [Begin secondByBob; Begin firstByAna; ExistsDone 0 None]))
    healthy firstByAna
  = (world (run (run initial [Begin firstByAna; ExistsDone 0 (Some 1)])
                [Begin secondByBob; Begin firstByAna; ExistsDone 0 None]),
     Failed Conflict).
Proof.
  apply (abandoned_lock_is_never_released
           (run initial [Begin firstByAna; ExistsDone 0 (Some 1)])).
  - vm_compute. reflexivity.
  - vm_compute. intros H. inversion H.
Defined.

(** X14: in a reachable system the calls in flight are calls for pairwise
    distinct slugs, and each of them holds the lock of its slug: two
    calls for one slug never wait for the store at the same time. *)
Theorem calls_in_flight_hold_distinct_locks (S : System) :
  reachable S ->
  NoDup (pending_key <$> inflight S)
  /\ forall p, p ∈ inflight S -> pending_key p ∈ locks (world S).
Proof.
  intros HS.
  apply (invariant_reachable is_post (fun _ H => H)) in HS as (_ & Hpend & Hnd).
  split; [done|]. intros p Hp. rewrite Forall_forall in Hpend.
  by destruct (Hpend p Hp) as (_ & ? & _).
Qed.

Lemma calls_in_flight_hold_distinct_locks_witness :
  NoDup (pending_key <$> inflight (run initial [Begin firstByAna; Begin secondByBob;
                                                 Begin firstByAna]))
  /\ forall p, p ∈ inflight (run initial [Begin firstByAna; Begin secondByBob;
                                           Begin firstByAna]) ->
       pending_key p ∈ locks (world (run initial [Begin firstByAna; Begin secondByBob;
                                                   Begin firstByAna])).
Proof.
  apply (calls_in_flight_hold_distinct_locks
           (run initial [Begin firstByAna; Begin secondByBob; Begin firstByAna])).
  apply reachable_run.
  repeat (apply Forall_cons_2; [apply is_post_str|]). apply Forall_nil_2.
Defined.

(** Only keys that the codec can encode are ever locked. *)
Lemma step_locked_keys_encode S a :
  (forall key, key ∈ locks (world S) -> is_Some (keyEncoding.encode key)) ->
  forall key, key ∈ locks (world (step S a).1) -> is_Some (keyEncoding.encode key).
Proof.
  intros Hall key. destruct a as [post | i fault | i fault]; cbn [step].
  - unfold putPost_begin. destruct (decide (postKey post ∈ locks (world S))) as [Hl|Hl].
    { rewrite lock_held by done. apply Hall. }
    rewrite lock_free by done.
    destruct (keyEncoding.encode (postKey post)) as [k|] eqn:Hk;
      cbn [fst world locks]; [|apply Hall].
    intros [->%elem_of_singleton|Hin]%elem_of_union; [by exists k|by apply Hall].
  - destruct (inflight S !! i) as [[req|req]|]; [|apply Hall..].
    destruct (putPost_onExists _ _ _) as [w [o|req']] eqn:H2;
      assert (Hw := putPost_onExists_world _ _ _ _ _ H2); subst w; apply Hall.
  - destruct (inflight S !! i) as [[req|req]|]; [apply Hall| |apply Hall].
    unfold answer_batch, putPost_onBatch.
    destruct (store_batch _ _ _) as [st error]. cbn [fst world locks].
    unfold unlock. intros [Hin _]%elem_of_difference. by apply Hall.
Qed.

(** X23: only keys that the codec can encode are ever locked: in a
    system reachable by [putPost] calls, in any interleaving and whatever
    the store answers, every key of the lock table has a code; a call
    whose slug the codec rejects takes no lock. *)
Theorem locked_keys_encode (S : System) (key : list jsstring) :
  reachable S -> key ∈ locks (world S) -> is_Some (keyEncoding.encode key).
Proof.
  intros (acts & _ & <-). revert key.
  induction acts as [|a acts IH] using rev_ind.
  { intros key Hin. cbn in Hin. by apply elem_of_empty in Hin. }
  rewrite run_snoc. by apply step_locked_keys_encode.
Qed.

Lemma locked_keys_encode_witness :
  is_Some (keyEncoding.encode (postKey firstByAna)).
Proof.
  apply (locked_keys_encode (run initial [Begin firstByAna; ExistsDone 0 (Some 1)])).
  - apply reachable_run.
    repeat (apply Forall_cons_2; [first [exact I | apply is_post_str]|]).
    apply Forall_nil_2.
  - vm_compute. reflexivity.
Defined.

(** ** Queries after writes *)

(** [postsBy] on a consistent store. *)
Lemma postsBy_consistent st name :
  consistent is_post st -> is_string name -> is_Some (encodeURIComponent name) ->
  exists ps,
    postsBy st healthy name = Returned (VPost <$> ps)
    /\ (forall post, post ∈ ps -> stored st post /\ author post = name)
    /\ (forall post, stored st post -> author post = name ->
                     before_sentinel (slug post) -> post ∈ ps).
Proof.
  intros Hst Hname [en Hen].
  set (l := scan st (by_prefix en) (by_prefix en ++ [tilde]) None false).
  assert (Hl : Forall (fun e => exists post, by_entry st name en e post) l).
  { apply Forall_forall. intros [k v] Hin. by apply scan_by_entry. }
  apply Forall_exists_Forall2_l in Hl as [ps Hps].
  assert (Hmem : forall post, post ∈ ps -> exists e, by_entry st name en e post).
  { intros post Hin. apply list_elem_of_lookup in Hin as [i Hi].
    destruct (Forall2_lookup_r _ _ _ _ _ Hps Hi) as (e & _ & He). by exists e. }
  exists ps. split; [|split].
  - unfold postsBy, createReadStream. cbn [gte lte limit reverse stream_fault healthy].
    destruct (postsBy_bounds name en Hen) as [-> ->]. fold l.
    replace (mapM _ l) with (Some ((fun p => DKey [str "by"; name; slug p]) <$> ps)).
    2:{ symmetry. apply mapM_Some. apply Forall2_fmap_r.
        eapply Forall2_impl; [exact Hps|]. intros e post He. cbv beta.
        by apply (by_entry_emit st name en). }
    apply async_map_Returned. rewrite <- list_fmap_compose.
    apply Forall2_fmap. eapply Forall2_impl; [apply Forall_Forall2_diag|].
    2:{ cbv beta. intros p p' H. exact H. }
    apply Forall_forall. intros post Hin. destruct (Hmem post Hin) as [e He].
    cbv beta. by apply (by_entry_get st name en e).
  - intros post Hin. destruct (Hmem post Hin) as [e He].
    by destruct He as (_ & ? & ? & _).
  - intros post Hpost Ha Hb.
    assert (Hok := stored_is_post st post Hst Hpost).
    destruct (stored_records st post Hpost) as (kb & _ & _ & Eb & _ & _ & Hkb & _).
    destruct (by_record_key name en Hen post kb Hok Ha Eb) as (es & Es & ->).
    assert (Hentry : by_entry st name en (by_prefix en ++ es, VString (str "")) post).
    { split; [done|]. split; [done|]. split; [done|]. exists es.
      split; [done|]. split; [|done].
      destruct Hok as (_ & _ & _ & Hslug & _).
      by apply (before_sentinel_encoded (slug post)). }
    assert (Hin := by_entry_scan st name en Hen _ _ Hentry). fold l in Hin.
    apply list_elem_of_lookup in Hin as [i Hi].
    destruct (Forall2_lookup_l _ _ _ _ _ Hps Hi) as (q & Hq & Hentry').
    assert (q = post); [|subst q; by eapply list_elem_of_lookup_2].
    destruct Hentry' as (_ & Hq' & _ & es' & Es' & _ & Heq).
    injection Heq as Heq%app_inv_head. subst es'.
    apply (stored_slug_unique st); [done..|].
    destruct Hok as (_ & _ & _ & Hslug & _).
    destruct (stored_is_post st q Hst Hq') as (_ & _ & _ & Hslug' & _).
    by apply (encodeURIComponent_inj _ _ es).
Qed.

(** X15: a post that [putPost] has stored is found by [postsBy]: after a
    successful call in a reachable system, for a slug that is ["~"] or
    does not begin with ["~"], [postsBy] for the author of the post calls
    back with posts among which the post is. *)
Theorem putPost_then_postsBy
    (S : System) (io : Faults) (post : Post) (w' : World) :
  reachable S -> is_post post -> before_sentinel (slug post) ->
  putPost (world S) io post = (w', Returned tt) ->
  exists ps, postsBy (store w') healthy (author post) = Returned (VPost <$> ps)
             /\ post ∈ ps.
Proof.
  intros HS Hok Hb Hput.
  assert (HS' := reachable_putPost is_post S io post HS Hok).
  apply (invariant_reachable is_post (fun _ H => H)) in HS' as (Hst & _ & _).
  rewrite Hput in Hst. cbn [world store fst] in Hst.
  apply putPost_Returned in Hput
      as (kp & ops & _ & _ & _ & _ & Hops & _ & ->).
  cbn [store] in *.
  assert (Hstored := batch_stored (store (world S)) post ops Hok Hops).
  destruct (postsBy_consistent _ (author post) Hst) as (ps & Hps & _ & Hall).
  - by destruct Hok as (_ & _ & ? & _).
  - apply encodeBatch_batch in Hops as (kb & _ & _ & Eb & _).
    apply encode_three in Eb as (_ & ea & _ & _ & Ea & _). by exists ea.
  - exists ps. split; [done|]. by apply Hall.
Qed.

Lemma putPost_then_postsBy_witness :
  exists ps,
    postsBy (store (putPost (world scenario_system) healthy zoo).1) healthy
      (author zoo) = Returned (VPost <$> ps)
    /\ zoo ∈ ps.
Proof.
  apply (putPost_then_postsBy scenario_system healthy zoo).
  - apply scenario_system_reachable.
  - apply is_post_str.
  - right. vm_compute. discriminate.
  - vm_compute. reflexivity.
Defined.

(** The posts that the scenario has stored. *)
Lemma scenario_posts post :
  post ∈ [firstByAna; secondByBob; thirdByAna]
  <-> stored (store (world scenario_system)) post.
Proof.
  split.
  - intros Hin.
    repeat (apply elem_of_cons in Hin as [->|Hin]); [..|by apply elem_of_nil in Hin];
      (eexists; split; [vm_compute; reflexivity|]);
      repeat (apply Forall_cons_2; [vm_compute; reflexivity|]); apply Forall_nil_2.
  - intros Hst.
    destruct (stored_records _ _ Hst) as (_ & _ & kp & _ & _ & _ & _ & _ & Hp).
    apply elem_of_map_to_list in Hp.
    set (l := map_to_list _) in Hp. vm_compute in l. subst l.
    repeat (apply elem_of_cons in Hp as [Hp|Hp]);
      [..|by apply elem_of_nil in Hp]; injection Hp as _ Hp; try discriminate Hp.
    all: rewrite !elem_of_cons.
    all: first [ left; by destruct post
               | right; left; by destruct post
               | right; right; left; by destruct post ].
Qed.

(** X16: for an author of whom no post is stored, [postsBy] calls back
    with the empty list, not with an error. *)
Theorem postsBy_unknown_author (S : System) (name : jsstring) :
  reachable S -> is_string name -> is_Some (encodeURIComponent name) ->
  (forall post, stored (store (world S)) post -> author post <> name) ->
  postsBy (store (world S)) healthy name = Returned [].
Proof.
  intros HS Hname Hen Hnone.
  apply (invariant_reachable is_post (fun _ H => H)) in HS as (Hst & _ & _).
  destruct (postsBy_consistent _ name Hst Hname Hen) as (ps & Hps & Hin & _).
  destruct ps as [|post ps]; [done|].
  destruct (Hin post) as [Hpost Ha]; [left|]. by destruct (Hnone post).
Qed.

Lemma postsBy_unknown_author_witness :
  postsBy (store (world scenario_system)) healthy (str "carol") = Returned [].
Proof.
  apply (postsBy_unknown_author scenario_system (str "carol")).
  - apply scenario_system_reachable.
  - apply is_string_str.
  - by exists (str "carol").
  - intros post Hpost%scenario_posts.
    repeat (apply elem_of_cons in Hpost as [->|Hpost]);
      [by vm_compute..|by apply elem_of_nil in Hpost].
Defined.

(** *** The newest posts *)

Lemma stored_satisfies P st post :
  (forall p, P p -> is_post p) ->
  consistent P st -> stored st post -> P post.
Proof.
  intros HP Hst Hpost.
  destruct (stored_records st post Hpost) as (_ & _ & kp & _ & _ & _ & _ & _ & Hp).
  destruct (consistent_entry P st kp _ HP Hst Hp) as (q & Hq & _ & Hrec).
  destruct Hrec as [(_ & _ & ?) | [(_ & _ & ?) | (_ & _ & ?)]]; try done.
  by simplify_eq.
Qed.

Lemma isoDate_head d :
  isoDate d = true -> exists c r, d = c :: r /\ c < tilde.
Proof.
  unfold isoDate. destruct d as [|c d]; [done|].
  do 10 (destruct d as [|? d]; try done).
  cbn [forallb]. unfold isDigit at 1. intros H. b2p.
  exists c. eexists. split; [done|]. unfold tilde. lia.
Qed.

(** The date record of a stored post lies within the bounds of the scan. *)
Lemma date_entry_scan st post :
  consistent isoPost st -> stored st post ->
  exists e, e ∈ scan st date_prefix (date_prefix ++ [tilde]) None false
            /\ date_entry st e post.
Proof.
  intros Hst Hpost.
  assert (Hiso := stored_satisfies isoPost st post isoPost_is_post Hst Hpost).
  destruct (stored_records st post Hpost) as (_ & kd & _ & _ & Ed & _ & _ & Hd & _).
  apply encode_three in Ed as (ea & eb & ec & Ea & Eb & Ec & ->).
  injection Ea as <-.
  destruct (isoDate_spec _ (proj2 Hiso)) as [Hlen Hun].
  rewrite (encodeURIComponent_unescaped _ Hun) in Eb. injection Eb as <-.
  set (k := _ ++ slash :: date post ++ slash :: ec) in Hd.
  assert (Hkey : k = date_prefix ++ date post ++ slash :: ec).
  { unfold k, date_prefix. by rewrite <- app_assoc. }
  clearbody k. subst k.
  exists (date_prefix ++ date post ++ slash :: ec, withoutTitle post). split.
  - apply elem_of_scan. split; [done|]. apply prefix_between.
    destruct (isoDate_head _ (proj2 Hiso)) as (c & r & -> & Hc).
    cbn [app]. change [tilde] with (tilde :: []). rewrite str_leb_cons.
    by destruct (N.ltb_spec c tilde); [|lia].
  - split; [done|]. split; [done|]. by exists ec.
Qed.

(** The key of a date record of a post. *)
Lemma date_entry_key st e post :
  consistent isoPost st -> st !! e.1 = Some e.2 -> date_entry st e post ->
  keyEncoding.encode [str "date"; date post; slug post] = Some e.1.
Proof.
  intros Hst He (_ & Hpost & es & ->). cbn [fst snd] in *.
  destruct (consistent_entry isoPost st _ _ isoPost_is_post Hst He)
    as (q & _ & Hq & Hrec).
  destruct Hrec as [(_ & _ & ?) | [(Ek & _ & Hv) | (_ & _ & ?)]]; [done| |done].
  assert (q = post) as ->; [|done].
  apply (stored_slug_unique st); [done..|]. unfold withoutTitle in Hv. congruence.
Qed.

Lemma StronglySorted_irrefl_NoDup {A} (R : relation A) l :
  (forall x, ~ R x x) -> StronglySorted R l -> NoDup l.
Proof.
  intros Hirr. induction 1 as [|x l _ IH Hx]; constructor; [|done].
  intros Hin. rewrite Forall_forall in Hx. by apply (Hirr x), Hx.
Qed.

Lemma Forall2_NoDup {A B} (T : A -> B -> Prop) l k :
  (forall a b y, T a y -> T b y -> a = b) ->
  Forall2 T l k -> NoDup l -> NoDup k.
Proof.
  intros Hinj. induction 1 as [|a y l k Hay HT IH]; intros Hnd; [constructor|].
  apply NoDup_cons in Hnd as [Ha Hnd]. constructor; [|by apply IH].
  intros Hin. apply list_elem_of_lookup in Hin as [i Hi].
  destruct (Forall2_lookup_r _ _ _ _ _ HT Hi) as (b & Hb & Hby).
  apply Ha. rewrite (Hinj a b y Hay Hby). by eapply list_elem_of_lookup_2.
Qed.

(** The entries of the scan of [oldestPosts] are date records of stored
    posts. *)
Lemma date_scan_posts st howMany :
  consistent isoPost st ->
  exists ps,
    Forall2 (date_scan_entry st)
      (scan st date_prefix (date_prefix ++ [tilde]) (Some howMany) true) ps.
Proof.
  intros Hst. apply Forall_exists_Forall2_l.
  apply Forall_forall. intros [k v] Hin.
  rewrite scan_reverse_limit in Hin. apply elem_of_take in Hin as (i & Hi & _).
  apply list_elem_of_lookup_2 in Hi.
  rewrite list_elem_of_In, <- in_rev, <- list_elem_of_In in Hi.
  destruct (scan_date_entry st k v Hst Hi) as [post Hpost].
  exists post. split; [|done]. by apply elem_of_scan in Hi as (? & _).
Qed.

(** [oldestPosts] on a consistent store of posts with ISO dates. *)
Lemma oldestPosts_of_scan st howMany ps :
  consistent isoPost st ->
  Forall2 (date_scan_entry st)
    (scan st date_prefix (date_prefix ++ [tilde]) (Some howMany) true) ps ->
  oldestPosts st healthy howMany
  = Returned ((fun post => DValue (withoutTitle post)) <$> ps)
  /\ (length ps <= howMany)%nat
  /\ NoDup ps
  /\ (forall post, post ∈ ps -> stored st post)
  /\ StronglySorted (fun p q => str_leb (date q) (date p) = true) ps
  /\ (forall post, stored st post ->
        post ∈ ps
        \/ (length ps = howMany
            /\ forall q, q ∈ ps -> str_leb (date post) (date q) = true)).
Proof.
  intros Hst.
  set (l := scan st date_prefix (date_prefix ++ [tilde]) None false).
  set (l' := scan st date_prefix (date_prefix ++ [tilde]) (Some howMany) true).
  intros Hps.
  assert (Hl' : l' = take howMany (rev l)) by apply scan_reverse_limit.
  assert (Hsorted : StronglySorted (fun a b => str_ltb b.1 a.1 = true) (rev l)).
  { apply (StronglySorted_rev (fun a b => str_ltb a.1 b.1 = true)), scan_sorted. }
  assert (Hsorted' : StronglySorted (fun a b => str_ltb b.1 a.1 = true) l').
  { rewrite Hl'. eapply StronglySorted_sublist; [apply sublist_take|done]. }
  split; [|split; [|split; [|split; [|split]]]].
  - unfold oldestPosts, createReadStream.
    cbn [gte lte limit reverse stream_fault healthy].
    destruct oldestPosts_bounds as [-> ->]. fold l'.
    replace (mapM _ l')
      with (Some ((fun post => DValue (withoutTitle post)) <$> ps)); [done|].
    symmetry. apply mapM_Some. apply Forall2_fmap_r.
    eapply Forall2_impl; [exact Hps|]. intros e post (_ & _ & _ & es & ->). done.
  - rewrite <- (Forall2_length _ _ _ Hps). apply scan_length.
  - eapply Forall2_NoDup; [|exact Hps|].
    + intros [ka va] [kb vb] post [Ha Ea] [Hb Eb].
      assert (Hka := date_entry_key st _ post Hst Ha Ea).
      assert (Hkb := date_entry_key st _ post Hst Hb Eb).
      destruct Ea as (_ & _ & ? & Ea), Eb as (_ & _ & ? & Eb).
      cbn [fst] in *. congruence.
    + eapply (StronglySorted_irrefl_NoDup (fun a b => str_ltb b.1 a.1 = true));
        [|done].
      intros x. by rewrite str_ltb_irrefl.
  - intros post Hin. apply list_elem_of_lookup in Hin as [i Hi].
    destruct (Forall2_lookup_r _ _ _ _ _ Hps Hi) as (e & _ & _ & He).
    by destruct He as (_ & ? & _).
  - eapply StronglySorted_Forall2; [exact Hps| |exact Hsorted'].
    intros a b p q [_ Ha] [_ Hb] Hlt.
    exact (date_entries_descend st a b p q Ha Hb Hlt).
  - intros post Hpost.
    destruct (date_entry_scan st post Hst Hpost) as (e & He & Hentry). fold l in He.
    assert (He' : e ∈ take howMany (rev l) ++ drop howMany (rev l)).
    { rewrite take_drop. by rewrite list_elem_of_In, <- in_rev, <- list_elem_of_In. }
    rewrite <- Hl' in He'. apply elem_of_app in He' as [Hin|Hin].
    + left. apply list_elem_of_lookup in Hin as [i Hi].
      destruct (Forall2_lookup_l _ _ _ _ _ Hps Hi) as (q & Hq & _ & Hentry').
      assert (q = post); [|subst q; by eapply list_elem_of_lookup_2].
      destruct Hentry as (_ & _ & es & ->).
      destruct Hentry' as (_ & Hq' & es' & Heq).
      apply (stored_slug_unique st); [done..|].
      unfold withoutTitle in Heq. congruence.
    + right. split.
      * rewrite <- (Forall2_length _ _ _ Hps), Hl', length_take.
        apply list_elem_of_lookup in Hin as [i Hi].
        apply lookup_lt_Some in Hi. rewrite length_drop in Hi. lia.
      * intros q Hq. apply list_elem_of_lookup in Hq as [i Hi].
        destruct (Forall2_lookup_r _ _ _ _ _ Hps Hi) as (a & Ha & _ & Hentry').
        apply (date_entries_descend st a e q post); [done..|].
        rewrite <- (take_drop howMany (rev l)) in Hsorted.
        eapply (StronglySorted_app_1_elem_of _ _ _ a e Hsorted); [|done].
        rewrite <- Hl'. by eapply list_elem_of_lookup_2.
Qed.

Lemma oldestPosts_consistent st howMany :
  consistent isoPost st ->
  exists ps,
    oldestPosts st healthy howMany
    = Returned ((fun post => DValue (withoutTitle post)) <$> ps)
    /\ (length ps <= howMany)%nat
    /\ NoDup ps
    /\ (forall post, post ∈ ps -> stored st post)
    /\ (forall post, stored st post ->
          post ∈ ps
          \/ (length ps = howMany
              /\ forall q, q ∈ ps -> str_leb (date post) (date q) = true)).
Proof.
  intros Hst. destruct (date_scan_posts st howMany Hst) as [ps Hps].
  destruct (oldestPosts_of_scan st howMany ps Hst Hps) as (? & ? & ? & ? & _ & ?).
  by exists ps.
Qed.

(** X17: in a store reachable by [putPost] calls on posts whose dates
    have the form [YYYY-MM-DD], [oldestPosts] leaves out no newer post:
    every stored post is among the posts whose values come back, or
    [howMany] values come back and none of them has an earlier date than
    the post. *)
Theorem oldestPosts_returns_the_newest (S : System) (howMany : nat) :
  reachable_with isoPost S ->
  exists ps,
    oldestPosts (store (world S)) healthy howMany
    = Returned ((fun post => DValue (withoutTitle post)) <$> ps)
    /\ (forall post, stored (store (world S)) post ->
          post ∈ ps
          \/ (length ps = howMany
              /\ forall q, q ∈ ps -> str_leb (date post) (date q) = true)).
Proof.
  intros HS.
  destruct (invariant_reachable isoPost isoPost_is_post S HS) as (Hst & _ & _).
  destruct (oldestPosts_consistent _ howMany Hst) as (ps & Hps & _ & _ & _ & Hall).
  by exists ps.
Qed.

Lemma oldestPosts_returns_the_newest_witness :
  exists ps,
    oldestPosts (store (world scenario_system)) healthy 2
    = Returned ((fun post => DValue (withoutTitle post)) <$> ps)
    /\ (forall post, stored (store (world scenario_system)) post ->
          post ∈ ps
          \/ (length ps = 2%nat
              /\ forall q, q ∈ ps -> str_leb (date post) (date q) = true)).
Proof.
  apply (oldestPosts_returns_the_newest scenario_system 2).
  exists scenario_actions. split; [|reflexivity].
  repeat (apply Forall_cons_2;
          [first [exact I | apply isoPost_str; reflexivity]|]).
  apply Forall_nil_2.
Defined.

(** X18: in such a store [oldestPosts] calls back with [howMany] values,
    or with one value for each stored post where fewer than [howMany]
    posts are stored. *)
Theorem oldestPosts_count
    (S : System) (howMany : nat) (stored_posts : list Post) :
  reachable_with isoPost S ->
  NoDup stored_posts ->
  (forall post, post ∈ stored_posts <-> stored (store (world S)) post) ->
  exists data,
    oldestPosts (store (world S)) healthy howMany = Returned data
    /\ length data = (howMany `min` length stored_posts)%nat.
Proof.
  intros HS Hnd Hall.
  destruct (invariant_reachable isoPost isoPost_is_post S HS) as (Hst & _ & _).
  destruct (oldestPosts_consistent _ howMany Hst)
    as (ps & Hps & Hlen & Hnd' & Hin & Hfull).
  eexists. split; [exact Hps|]. rewrite length_fmap.
  assert (H1 : (length ps <= length stored_posts)%nat).
  { apply submseteq_length, NoDup_submseteq; [done|].
    intros post Hpost. by apply Hall, Hin. }
  destruct (decide (length ps = howMany)) as [Heq|Hne]; [lia|].
  assert (H2 : (length stored_posts <= length ps)%nat); [|lia].
  apply submseteq_length, NoDup_submseteq; [done|].
  intros post Hpost. apply Hall in Hpost.
  by destruct (Hfull post Hpost) as [?|[? _]].
Qed.

Lemma oldestPosts_count_witness :
  exists data,
    oldestPosts (store (world scenario_system)) healthy 2 = Returned data
    /\ length data = (2 `min` length [firstByAna; secondByBob; thirdByAna])%nat.
Proof.
  apply (oldestPosts_count scenario_system 2 [firstByAna; secondByBob; thirdByAna]).
  - exists scenario_actions. split; [|reflexivity].
    repeat (apply Forall_cons_2;
            [first [exact I | apply isoPost_str; reflexivity]|]).
    apply Forall_nil_2.
  - apply (bool_decide_unpack _). vm_compute. exact I.
  - apply scenario_posts.
Defined.

(** ** A series of calls *)

Lemma series_put_Returned S io posts w' :
  reachable S -> Forall is_post posts ->
  series_put (world S) io posts = (w', Returned tt) ->
  store (world S) ⊆ store w'
  /\ forall post, post ∈ posts ->
       stored (store w') post
       /\ forall k, keyEncoding.encode (postKey post) = Some k ->
                    store (world S) !! k = None.
Proof.
  intros HS Hposts. revert S HS.
  induction Hposts as [|post rest Hok Hrest IH]; intros S HS Hput.
  { injection Hput as <-. split; [done|]. by intros post ?%elem_of_nil. }
  cbn [series_put] in Hput.
  destruct (putPost (world S) io post) as [w1 [[]| | |]] eqn:H1; [|done..].
  assert (HS1 := reachable_putPost is_post S io post HS Hok).
  rewrite H1 in HS1. cbn [fst] in HS1.
  destruct (IH _ HS1 Hput) as [Hsub1 Hrest']. cbn [world] in Hsub1, Hrest'.
  assert (Hsub : store (world S) ⊆ store w1).
  { replace w1 with (world (run S [Begin post;
        ExistsDone (length (inflight S)) (exists_fault io);
        BatchDone (length (inflight S)) (batch_fault io)]))
      by (by rewrite run_putPost, H1).
    apply (run_store_grows is_post (fun _ H => H)); [done|].
    apply Forall_cons_2; [done|]. by repeat constructor. }
  apply putPost_Returned in H1
      as (kp & ops & _ & Hk & _ & Hfree & Hops & _ & ->).
  cbn [store] in *.
  split; [by etrans|].
  intros q [->|Hq]%elem_of_cons.
  - split.
    + eapply stored_weaken; [exact Hsub1|]. by apply batch_stored.
    + intros k Hk'. congruence.
  - destruct (Hrest' q Hq) as [Hst Hfree']. split; [done|].
    intros k Hk'. specialize (Hfree' k Hk').
    destruct (store (world S) !! k) as [v|] eqn:Hv; [|done].
    by rewrite (lookup_weaken _ _ _ _ Hv Hsub) in Hfree'.
Qed.

(** X19: when a series of [putPost] calls, each run to its end before the
    next begins, succeeds from a reachable system, every post of the
    series is stored afterwards, every record that was in the store is
    still there, and the posts of the series have pairwise distinct
    slugs. *)
Theorem series_put_stores_every_post
    (S : System) (io : Faults) (posts : list Post) (w' : World) :
  reachable S -> Forall is_post posts ->
  series_put (world S) io posts = (w', Returned tt) ->
  (forall post, post ∈ posts -> stored (store w') post)
  /\ (forall k v, store (world S) !! k = Some v -> store w' !! k = Some v)
  /\ NoDup (slug <$> posts).
Proof.
  intros HS Hposts Hput.
  destruct (series_put_Returned S io posts w' HS Hposts Hput) as [Hsub Hall].
  split; [|split].
  - intros post Hin. by destruct (Hall post Hin).
  - intros k v Hk. by apply (lookup_weaken _ _ _ _ Hk).
  - clear Hsub Hall. revert S HS Hput.
    induction Hposts as [|post rest Hok Hrest IH]; intros S HS Hput;
      [constructor|].
    cbn [series_put] in Hput.
    destruct (putPost (world S) io post) as [w1 [[]| | |]] eqn:H1; [|done..].
    assert (HS1 := reachable_putPost is_post S io post HS Hok).
    rewrite H1 in HS1. cbn [fst] in HS1.
    rewrite fmap_cons. apply NoDup_cons. split; [|by apply (IH _ HS1)].
    intros (q & Hs & Hq)%list_elem_of_fmap.
    destruct (series_put_Returned _ io rest w' HS1 Hrest Hput) as [_ Hall].
    destruct (Hall q Hq) as [_ Hfree]. cbn [world] in Hfree.
    apply putPost_Returned in H1
        as (kp & ops & _ & Hk & _ & _ & Hops & _ & ->).
    destruct (stored_records _ _ (batch_stored (store (world S)) post ops Hok Hops))
      as (_ & _ & kp' & _ & _ & Ep & _ & _ & Hp).
    cbn [store] in Hfree. rewrite (Hfree kp') in Hp; [done|].
    unfold postKey in *. by rewrite <- Hs.
Qed.

Lemma series_put_stores_every_post_witness :
  (forall post, post ∈ [zoo; elan] ->
     stored (store (series_put (world scenario_system) healthy [zoo; elan]).1) post)
  /\ (forall k v, store (world scenario_system) !! k = Some v ->
        store (series_put (world scenario_system) healthy [zoo; elan]).1 !! k
        = Some v)
  /\ NoDup (slug <$> [zoo; elan]).
Proof.
  apply (series_put_stores_every_post scenario_system healthy [zoo; elan]).
  - apply scenario_system_reachable.
  - apply Forall_cons_2; [apply is_post_str|].
    apply Forall_cons_2; [|apply Forall_nil_2].
    repeat split; try apply is_string_str;
      (apply Forall_cons_2; [done|]; apply (is_string_str "lan")).
  - vm_compute. reflexivity.
Defined.

(** ** The earlier version of the program *)

Example earlier_scenario_passes : earlier.putAndQueryData (world initial) = true.
Proof. vm_compute. reflexivity. Qed.

(** *** [putPost] in the two versions *)

Lemma earlier_encodeBatch post ops :
  encodeBatch (batch post) = Some ops ->
  exists kb kd kp,
    ops = [ (kb, VString (str "")); (kd, withoutTitle post); (kp, VPost post) ]
    /\ encodeBatch (earlier.batch post)
       = Some [ (kp, VPost post); (kb, VString (str "")); (kd, VString (str "")) ].
Proof.
  intros (kb & kd & kp & Eb & Ed & Ep & ->)%encodeBatch_batch.
  exists kb, kd, kp. split; [done|].
  unfold encodeBatch, earlier.batch. cbn [mapM fst snd].
  rewrite Ep, Eb, Ed. done.
Qed.

Lemma earlier_encodeBatch_None post :
  encodeBatch (batch post) = None -> encodeBatch (earlier.batch post) = None.
Proof.
  unfold encodeBatch, batch, earlier.batch. cbn [mapM fst snd].
  destruct (keyEncoding.encode [str "by"; author post; slug post]) as [kb|];
    destruct (keyEncoding.encode [str "date"; date post; slug post]) as [kd|];
    destruct (keyEncoding.encode (postKey post)) as [kp|]; done.
Qed.

Lemma earlier_store_batch st post ops ops' :
  is_post post ->
  encodeBatch (batch post) = Some ops ->
  encodeBatch (earlier.batch post) = Some ops' ->
  (store_batch (placeholder <$> st) None ops').1
  = placeholder <$> (store_batch st None ops).1.
Proof.
  intros Hok Hops Hops'.
  assert (Hnd := records_distinct post ops Hok Hops).
  destruct (earlier_encodeBatch post ops Hops) as (kb & kd & kp & -> & Hops'').
  rewrite Hops' in Hops''. injection Hops'' as ->.
  cbn in Hnd. rewrite !NoDup_cons, !elem_of_cons, !elem_of_nil in Hnd.
  destruct Hnd as (Hb & Hd & _).
  unfold store_batch. cbn [foldl fst snd]. rewrite !fmap_insert. cbn [placeholder].
  rewrite (insert_insert_ne _ kp kd) by (intros ->; apply Hd; by left).
  rewrite (insert_insert_ne _ kp kb) by (intros ->; apply Hb; right; by left).
  done.
Qed.

Lemma earlier_putPost_world w io post :
  is_post post ->
  earlier.putPost (earlier_world w) io post
  = (earlier_world (putPost w io post).1, (putPost w io post).2).
Proof.
  intros Hok. unfold earlier.putPost, putPost, putPost_begin, earlier_world.
  cbn [locks store].
  destruct (lock (locks w) (postKey post)) as [held|]; [|done].
  destruct (keyEncoding.encode (postKey post)) as [k|]; [|done].
  cbn [exists_key exists_post store locks].
  assert (Hex : store_exists (placeholder <$> store w) (exists_fault io) k
                = store_exists (store w) (exists_fault io) k).
  { unfold store_exists. destruct (exists_fault io); [done|].
    rewrite lookup_fmap. by destruct (store w !! k). }
  rewrite Hex. unfold earlier.putPost_onExists, putPost_onExists.
  cbn [exists_post].
  destruct (store_exists (store w) (exists_fault io) k) as [e|[|]]; [done..|].
  destruct (encodeBatch (batch post)) as [ops|] eqn:Hops.
  2:{ by rewrite earlier_encodeBatch_None. }
  destruct (earlier_encodeBatch post ops Hops) as (kb & kd & kp & _ & Hops').
  rewrite Hops'. unfold answer_batch. cbn [batch_ops store locks].
  destruct (batch_fault io) as [code|]; [done|].
  assert (Heq := earlier_store_batch (store w) post ops _ Hok Hops Hops').
  unfold store_batch in *. cbn [fst] in Heq. rewrite Heq. done.
Qed.

(** X20: the two versions of [putPost] differ only in the value of the
    date record: started in corresponding worlds, where the earlier
    version holds the empty string for every summary, they end with the
    same outcome in corresponding worlds. *)
Theorem earlier_putPost_corresponds (w : World) (io : Faults) (post : Post) :
  is_post post ->
  earlier.putPost (earlier_world w) io post
  = (earlier_world (putPost w io post).1, (putPost w io post).2).
Proof. apply earlier_putPost_world. Qed.

Lemma earlier_putPost_corresponds_witness :
  earlier.putPost (earlier_world scenario) healthy zoo
  = (earlier_world (putPost scenario healthy zoo).1,
     (putPost scenario healthy zoo).2).
Proof.
  apply (earlier_putPost_corresponds scenario healthy zoo). apply is_post_str.
Defined.

(** The worlds of the earlier version correspond to reachable worlds of
    the later one. *)
Lemma earlier_run_world P S calls :
  (forall post, P post -> is_post post) ->
  reachable_with P S -> Forall (fun call => P call.2) calls ->
  exists S', reachable_with P S'
             /\ earlier.run (earlier_world (world S)) calls = earlier_world (world S').
Proof.
  intros HP HS Hcalls. revert S HS.
  induction Hcalls as [|[io post] calls Hpost _ IH]; intros S HS; [by exists S|].
  unfold earlier.run. cbn [foldl fst snd].
  rewrite earlier_putPost_world by (by apply HP). cbn [fst].
  apply (IH {| world := (putPost (world S) io post).1; inflight := inflight S |}).
  by apply reachable_putPost.
Qed.

Lemma earlier_world_initial : earlier_world (world initial) = world initial.
Proof. unfold earlier_world. cbn. by rewrite fmap_empty. Qed.

(** *** The scans of the two versions *)

Lemma consistent_impl (P Q : Post -> Prop) st :
  (forall post, P post -> Q post) -> consistent P st -> consistent Q st.
Proof.
  intros HPQ Hst k v Hk. destruct (Hst k v Hk) as (post & ops & HP & H).
  exists post, ops. split; [by apply HPQ|done].
Qed.

Lemma filter_in_range_fmap (f : Value -> Value) lo hi (l : list (jsstring * Value)) :
  filter (in_range lo hi) (prod_map id f <$> l)
  = prod_map id f <$> filter (in_range lo hi) l.
Proof.
  induction l as [|[k v] l IH]; [done|]. rewrite fmap_cons.
  destruct (decide (in_range lo hi (k, v))) as [Hin|Hout].
  - rewrite !filter_cons_True by done. by rewrite fmap_cons, IH.
  - rewrite !filter_cons_False by done. done.
Qed.

Lemma rev_fmap {A B} (f : A -> B) (l : list A) : rev (f <$> l) = f <$> rev l.
Proof.
  induction l as [|x l IH]; [done|]. cbn [rev]. rewrite fmap_cons. cbn [rev].
  by rewrite IH, fmap_app.
Qed.

Lemma entries_fmap (f : Value -> Value) (st : Store) :
  entries (f <$> st) = prod_map id f <$> entries st.
Proof.
  set (R := fun a b : jsstring * Value => str_ltb a.1 b.1 = true).
  assert (Hirr : forall x, ~ R x x) by (intros x; unfold R; by rewrite str_ltb_irrefl).
  assert (H1 : StronglySorted R (entries (f <$> st))) by apply entries_sorted.
  assert (H2 : StronglySorted R (prod_map id f <$> entries st)).
  { eapply (StronglySorted_fmap _ R R); [|apply entries_sorted].
    by intros [??] [??]. }
  apply (StronglySorted_unique_strong R); [|done..|].
  { intros x1 x2 _ _ H12 H21. unfold R in *.
    by rewrite (str_ltb_asym _ _ H12) in H21. }
  apply NoDup_Permutation; [by eapply StronglySorted_irrefl_NoDup..|].
  intros [k v]. rewrite elem_of_entries, lookup_fmap_Some, list_elem_of_fmap. split.
  - intros (v0 & <- & Hk). exists (k, v0). split; [done|]. by apply elem_of_entries.
  - intros ([k0 v0] & [= -> ->] & Hk). exists v0. split; [done|].
    by apply elem_of_entries.
Qed.

Lemma scan_fmap (f : Value -> Value) (st : Store) lo hi lim rev :
  scan (f <$> st) lo hi lim rev = prod_map id f <$> scan st lo hi lim rev.
Proof.
  unfold scan. rewrite entries_fmap, filter_in_range_fmap.
  destruct rev, lim as [n|]; by rewrite ?rev_fmap, ?fmap_take.
Qed.

(** [oldestPosts] of the earlier version, on the store that corresponds
    to a consistent store. *)
Lemma earlier_oldestPosts_of_scan st howMany ps :
  consistent isoPost st ->
  Forall2 (date_scan_entry st)
    (scan st date_prefix (date_prefix ++ [tilde]) (Some howMany) true) ps ->
  earlier.oldestPosts (placeholder <$> st) healthy howMany
  = Returned (VPost <$> ps).
Proof.
  intros Hst Hps.
  unfold earlier.oldestPosts, createReadStream.
  cbn [gte lte limit reverse stream_fault healthy].
  destruct oldestPosts_bounds as [-> ->]. rewrite scan_fmap.
  replace (mapM _ _)
    with (Some ((fun p => DKey [str "date"; date p; slug p]) <$> ps)).
  2:{ symmetry. apply mapM_Some. apply Forall2_fmap.
      eapply Forall2_impl; [exact Hps|]. intros [k v] post [Hk He].
      unfold emit. cbn [keys values fst snd prod_map id].
      assert (Hkey := date_entry_key st _ post Hst Hk He). cbn [fst] in Hkey.
      destruct He as (Hiso & _).
      destruct (post_keys_strings post (isoPost_is_post _ Hiso)) as (_ & Sd & _).
      assert (Hd : keyEncoding.decode k = Some [str "date"; date post; slug post])
        by (by apply decode_encode).
      by rewrite Hd. }
  apply async_map_Returned. rewrite <- list_fmap_compose.
  apply Forall2_fmap. eapply Forall2_impl; [apply Forall_Forall2_diag|].
  2:{ cbv beta. intros p p' H. exact H. }
  apply Forall_forall. intros post Hin. apply list_elem_of_lookup in Hin as [i Hi].
  destruct (Forall2_lookup_r _ _ _ _ _ Hps Hi) as (e & _ & _ & _ & Hpost & _).
  destruct (stored_records st post Hpost) as (_ & _ & kp & _ & _ & Ep & _ & _ & Hp).
  cbv beta. unfold level_get, postKey, compose in *.
  change (toString ([str "date"; date post; slug post] !! 2%nat)) with (slug post).
  rewrite Ep. cbn [healthy get_fault]. by rewrite lookup_fmap, Hp.
Qed.

(** X21: the two versions of [oldestPosts] agree: on corresponding
    stores, reachable by [putPost] calls on posts whose dates have the
    form [YYYY-MM-DD], the earlier version calls back with the full posts
    whose summaries the later version calls back with, in the same
    order. *)
Theorem oldestPosts_versions_agree (S : System) (howMany : nat) :
  reachable_with isoPost S ->
  exists ps,
    oldestPosts (store (world S)) healthy howMany
    = Returned ((fun post => DValue (withoutTitle post)) <$> ps)
    /\ earlier.oldestPosts (store (earlier_world (world S))) healthy howMany
       = Returned (VPost <$> ps).
Proof.
  intros HS.
  destruct (invariant_reachable isoPost isoPost_is_post S HS) as (Hst & _ & _).
  destruct (date_scan_posts _ howMany Hst) as [ps Hps].
  exists ps. split.
  - by apply oldestPosts_of_scan.
  - by apply earlier_oldestPosts_of_scan.
Qed.

Lemma oldestPosts_versions_agree_witness :
  exists ps,
    oldestPosts (store (world scenario_system)) healthy 2
    = Returned ((fun post => DValue (withoutTitle post)) <$> ps)
    /\ earlier.oldestPosts (store (earlier_world (world scenario_system))) healthy 2
       = Returned (VPost <$> ps).
Proof.
  apply (oldestPosts_versions_agree scenario_system 2).
  exists scenario_actions. split; [|reflexivity].
  repeat (apply Forall_cons_2;
          [first [exact I | apply isoPost_str; reflexivity]|]).
  apply Forall_nil_2.
Defined.

(** X22: in a store that calls of the earlier [putPost], one after the
    other, on posts whose dates have the form [YYYY-MM-DD] have built
    from the empty store, the earlier [oldestPosts] calls back with at
    most [howMany] full posts, each of them the post that a point read of
    its primary key returns, in descending order of their dates (the
    newest first); and a post that a point read returns is among them,
    or [howMany] posts come back and none of them has an earlier date. *)
Theorem earlier_oldestPosts_newest_first
    (calls : list (Faults * Post)) (howMany : nat) :
  Forall (fun call => isoPost call.2) calls ->
  exists ps,
    earlier.oldestPosts (store (earlier.run (world initial) calls)) healthy howMany
    = Returned (VPost <$> ps)
    /\ (length ps <= howMany)%nat
    /\ StronglySorted (fun p q => str_leb (date q) (date p) = true) ps
    /\ (forall post, post ∈ ps ->
          level_get (store (earlier.run (world initial) calls)) healthy
            (postKey post) = Returned (VPost post))
    /\ (forall post,
          level_get (store (earlier.run (world initial) calls)) healthy
            (postKey post) = Returned (VPost post) ->
          post ∈ ps
          \/ (length ps = howMany
              /\ forall q, q ∈ ps -> str_leb (date post) (date q) = true)).
Proof.
  intros Hcalls.
  destruct (earlier_run_world isoPost initial calls isoPost_is_post)
    as (S & HS & Hrun); [by exists []|done|].
  rewrite earlier_world_initial in Hrun. rewrite Hrun. cbn [earlier_world store].
  destruct (invariant_reachable isoPost isoPost_is_post S HS) as (Hst & _ & _).
  destruct (date_scan_posts _ howMany Hst) as [ps Hps].
  destruct (oldestPosts_of_scan _ howMany ps Hst Hps)
    as (_ & Hlen & _ & Hstored & Hsorted & Hfull).
  exists ps. split; [by apply earlier_oldestPosts_of_scan|].
  split; [done|]. split; [done|]. split.
  - intros post Hin.
    destruct (stored_records _ _ (Hstored post Hin))
      as (_ & _ & kp & _ & _ & Ep & _ & _ & Hp).
    unfold level_get. rewrite Ep. cbn [healthy get_fault].
    by rewrite lookup_fmap, Hp.
  - intros post Hget. apply Hfull.
    apply stored_primary_inv; [by apply (consistent_impl isoPost), Hst; apply isoPost_is_post|].
    unfold level_get in Hget.
    destruct (keyEncoding.encode (postKey post)) as [kp|]; [|done].
    cbn [healthy get_fault] in Hget. rewrite lookup_fmap in Hget.
    exists kp. split; [done|].
    destruct (store (world S) !! kp) as [[s|t d a s|p]|]; cbn in Hget; try done.
    by injection Hget as ->.
Qed.

Lemma earlier_oldestPosts_newest_first_witness :
  exists ps,
    earlier.oldestPosts
      (store (earlier.run (world initial)
                [(healthy, firstByAna); (healthy, secondByBob); (healthy, thirdByAna)]))
      healthy 2
    = Returned (VPost <$> ps)
    /\ (length ps <= 2)%nat
    /\ StronglySorted (fun p q => str_leb (date q) (date p) = true) ps
    /\ (forall post, post ∈ ps ->
          level_get
            (store (earlier.run (world initial)
                      [(healthy, firstByAna); (healthy, secondByBob);
                       (healthy, thirdByAna)]))
            healthy (postKey post) = Returned (VPost post))
    /\ (forall post,
          level_get
            (store (earlier.run (world initial)
                      [(healthy, firstByAna); (healthy, secondByBob);
                       (healthy, thirdByAna)]))
            healthy (postKey post) = Returned (VPost post) ->
          post ∈ ps
          \/ (length ps = 2%nat
              /\ forall q, q ∈ ps -> str_leb (date post) (date q) = true)).
Proof.
  apply (earlier_oldestPosts_newest_first
           [(healthy, firstByAna); (healthy, secondByBob); (healthy, thirdByAna)] 2).
  repeat (apply Forall_cons_2; [apply isoPost_str; reflexivity|]).
  apply Forall_nil_2.
Defined.
